(** * what_to_pack: response parsing and stage orchestration

    A shallow embedding of [json_utils.py], [config.py], [weather_service.py]
    and the stage handlers of [main.py], with the properties the design
    document states about them.

    Conventions.
    - A Python [str] is a list of Unicode code points ([str := list N]).
    - Python exceptions are the [Raised] outcome of [outcome].
    - Console output ([print]) has no influence on any value or on control
      flow and is left out of the model of the stages; the console entry
      point [main] records what it prints itself.
    - Prompts are f-string templates; the model records which template is
      sent and the values interpolated into it.
    - The language model, the HTTP endpoint and the workflow runner of the
      agent framework are parameters: every statement holds for all their
      answers.  [create_agents] and the construction of the workflow only
      build objects of the agent framework and are not part of the model. *)

From Stdlib Require Import List NArith ZArith Lia Bool String Ascii.
Import ListNotations.

Set Warnings "-register-all".

(** ** Python strings *)

Module PyStr.

Definition str : Type := list N.

(** An ASCII literal as a [str]. *)
Definition u (s : string) : str :=
  map N_of_ascii (list_ascii_of_string s).

(** A literal in which an apostrophe stands for a double quote; used to
    write JSON texts. *)
Definition jq (s : string) : str :=
  map (fun c => if N.eqb c 39 then 34%N else c) (u s).

Definition str_eqb (a b : str) : bool :=
  if list_eq_dec N.eq_dec a b then true else false.

(** [str.isspace] on one code point, as [str.strip()] uses it. *)
Definition isspace (c : N) : bool :=
  ((9 <=? c) && (c <=? 13) || (28 <=? c) && (c <=? 32)
   || (c =? 133) || (c =? 160) || (c =? 5760)
   || (8192 <=? c) && (c <=? 8202)
   || (c =? 8232) || (c =? 8233) || (c =? 8239) || (c =? 8287)
   || (c =? 12288))%N.

Fixpoint lstrip (s : str) : str :=
  match s with
  | c :: s' => if isspace c then lstrip s' else s
  | [] => []
  end.

Definition rstrip (s : str) : str := rev (lstrip (rev s)).

(** [s.strip()] *)
Definition strip (s : str) : str := rstrip (lstrip s).

(** [s.startswith(p)] *)
Fixpoint startswith (s p : str) {struct p} : bool :=
  match p, s with
  | [], _ => true
  | a :: p', b :: s' => N.eqb a b && startswith s' p'
  | _ :: _, [] => false
  end.

(** [s.endswith(p)] *)
Definition endswith (s p : str) : bool := startswith (rev s) (rev p).

(** [s.find(c)] for a one-character needle: the first index, or -1. *)
Fixpoint find (s : str) (c : N) : Z :=
  match s with
  | [] => (-1)%Z
  | b :: s' =>
      if N.eqb b c then 0%Z
      else let r := find s' c in if (r =? -1)%Z then (-1)%Z else (r + 1)%Z
  end.

(** [s.rfind(c)] for a one-character needle: the last index, or -1. *)
Fixpoint rfind (s : str) (c : N) : Z :=
  match s with
  | [] => (-1)%Z
  | b :: s' =>
      let r := rfind s' c in
      if (r =? -1)%Z then (if N.eqb b c then 0%Z else (-1)%Z) else (r + 1)%Z
  end.

(** [s[a:b]] for [0 <= a]; the code only slices with indices returned by
    [find] and [rfind] after checking them against -1. *)
Definition slice (s : str) (a b : Z) : str :=
  firstn (Z.to_nat (b - a)) (skipn (Z.to_nat a) s).

(** [str.lower] on the code points 'A'..'Z'.  Other code points are left as
    they are: none of them lowercases to 'j', 's', 'o' or 'n', so the test
    [inner.lower().startswith("json")] is computed exactly. *)
Definition to_lower (c : N) : N :=
  if ((65 <=? c) && (c <=? 90))%N then (c + 32)%N else c.

Definition lower (s : str) : str := map to_lower s.

(** [sep.join(parts)] *)
Fixpoint join (sep : str) (parts : list str) : str :=
  match parts with
  | [] => []
  | [p] => p
  | p :: ps => p ++ sep ++ join sep ps
  end.

End PyStr.
Import PyStr.

(** ** Exceptions *)

Module PyExn.

Inductive exn_class : Type :=
| JSONDecodeError
| RecursionError
| AttributeError
| RuntimeError
| TypeError
| OtherError.

(** An exception: its class and [str(e)]. *)
Record exn : Type := mk_exn { exn_kind : exn_class; exn_str : str }.

(** The result of evaluating an expression: a value, or an exception that
    propagates to the caller. *)
Inductive outcome (A : Type) : Type :=
| Returned (a : A)
| Raised (e : exn).
Arguments Returned {A} a.
Arguments Raised {A} e.

Definition obind {A B : Type} (m : outcome A) (k : A -> outcome B) : outcome B :=
  match m with
  | Returned a => k a
  | Raised e => Raised e
  end.

(** [try: m  except Exception as e: h e] *)
Definition try_except {A : Type} (m : outcome A) (h : exn -> outcome A)
  : outcome A :=
  match m with
  | Returned a => Returned a
  | Raised e => h e
  end.

End PyExn.
Import PyExn.

(** ** JSON values and Python's [json] module *)

Module Json.

Local Open Scope N_scope.

(** Python's [float].  Binary floating point is not interpreted: the model
    is stated over any implementation of the operations the program uses. *)
Class PyFloat : Type := {
  float : Type;
  (** [float(s)] for a JSON number literal with a fraction or an exponent *)
  float_of_literal : str -> float;
  float_nan : float;
  float_inf : float;
  float_neg_inf : float;
  (** the text [json.dumps] writes for a float *)
  float_dumps : float -> str;
  (** [bool(x)] *)
  float_truth : float -> bool
}.

Section Values.
Context {F : PyFloat}.

(** What [json.loads] can return.  A [dict] keeps its keys in insertion
    order; keys are strings. *)
Inductive value : Type :=
| VNone
| VBool (b : bool)
| VInt (z : Z)
| VFloat (f : float)
| VStr (s : str)
| VList (l : list value)
| VDict (d : list (str * value)).

(** *** dict operations *)

(** [d.get(k)] *)
Fixpoint dict_get (d : list (str * value)) (k : str) : option value :=
  match d with
  | [] => None
  | (k', v) :: d' => if str_eqb k' k then Some v else dict_get d' k
  end.

(** [k in d] *)
Definition dict_mem (d : list (str * value)) (k : str) : bool :=
  match dict_get d k with Some _ => true | None => false end.

(** [d[k] = v]: an existing key keeps its place, a new key goes last. *)
Fixpoint dict_set (d : list (str * value)) (k : str) (v : value)
  : list (str * value) :=
  match d with
  | [] => [(k, v)]
  | (k', v') :: d' =>
      if str_eqb k' k then (k', v) :: d' else (k', v') :: dict_set d' k v
  end.

(** [dict(pairs)] *)
Definition dict_of_pairs (pairs : list (str * value)) : list (str * value) :=
  fold_left (fun d kv => dict_set d (fst kv) (snd kv)) pairs [].

Definition dict_keys (d : list (str * value)) : list str := map fst d.

(** [bool(x)] *)
Definition truthy (x : value) : bool :=
  match x with
  | VNone => false
  | VBool b => b
  | VInt z => negb (Z.eqb z 0)
  | VFloat f => float_truth f
  | VStr s => match s with [] => false | _ => true end
  | VList l => match l with [] => false | _ => true end
  | VDict d => match d with [] => false | _ => true end
  end.

(** [isinstance(x, dict)] *)
Definition is_dict (x : value) : bool :=
  match x with VDict _ => true | _ => false end.

(** [isinstance(x, (int, float))]; [bool] is a subclass of [int]. *)
Definition is_int_or_float (x : value) : bool :=
  match x with
  | VBool _ | VInt _ | VFloat _ => true
  | _ => false
  end.

(** *** Decimal numerals *)

Fixpoint dec_digits (fuel : nat) (n : N) (acc : str) : str :=
  match fuel with
  | O => acc
  | S fuel' =>
      let acc' := (48 + n mod 10) :: acc in
      if n <? 10 then acc' else dec_digits fuel' (n / 10) acc'
  end.

(** [str(n)] for a natural number *)
Definition dec (n : N) : str := dec_digits (S (N.to_nat (N.log2 n))) n [].

(** [str(z)] for an [int] *)
Definition dec_Z (z : Z) : str :=
  match z with
  | Zneg p => 45 :: dec (Npos p)
  | _ => dec (Z.to_N z)
  end.

Definition is_digit (c : N) : bool := (48 <=? c) && (c <=? 57).

Fixpoint digits_value (s : str) (acc : N) : N :=
  match s with
  | [] => acc
  | c :: s' => digits_value s' (acc * 10 + (c - 48))
  end.

(** [int(s)] for the integer part matched by the number pattern *)
Definition int_of_literal (s : str) : Z :=
  match s with
  | c :: s' => if c =? 45 then (- Z.of_N (digits_value s' 0))%Z
               else Z.of_N (digits_value s 0)
  | [] => 0%Z
  end.

(** *** The decoder *)

(** The outcome of scanning at some position: a result and the text that
    follows it, or a [JSONDecodeError] message with the text at which the
    error is reported. *)
Inductive parsed (A : Type) : Type :=
| Parsed (a : A) (rest : str)
| Failed (msg : str) (at_ : str).
Arguments Parsed {A} a rest.
Arguments Failed {A} msg at_.

Definition is_ws (c : N) : bool :=
  (c =? 32) || (c =? 9) || (c =? 10) || (c =? 13).

Fixpoint skip_ws (s : str) : str :=
  match s with
  | c :: s' => if is_ws c then skip_ws s' else s
  | [] => []
  end.

Definition hex_val (c : N) : option N :=
  if (48 <=? c) && (c <=? 57) then Some (c - 48)
  else if (97 <=? c) && (c <=? 102) then Some (c - 87)
  else if (65 <=? c) && (c <=? 70) then Some (c - 55)
  else None.

Definition hex4 (a b c d : N) : option N :=
  match hex_val a, hex_val b, hex_val c, hex_val d with
  | Some x, Some y, Some z, Some w => Some (((x * 16 + y) * 16 + z) * 16 + w)
  | _, _, _, _ => None
  end.

Definition is_high_surrogate (c : N) : bool := (55296 <=? c) && (c <=? 56319).
Definition is_low_surrogate (c : N) : bool := (56320 <=? c) && (c <=? 57343).
Definition join_surrogates (hi lo : N) : N :=
  65536 + (hi - 55296) * 1024 + (lo - 56320).

(** The one-character escapes: quote, backslash, slash, b, f, n, r, t. *)
Definition unescape (e : N) : option N :=
  if e =? 34 then Some 34
  else if e =? 92 then Some 92
  else if e =? 47 then Some 47
  else if e =? 98 then Some 8
  else if e =? 102 then Some 12
  else if e =? 110 then Some 10
  else if e =? 114 then Some 13
  else if e =? 116 then Some 9
  else None.

Definition msg_unterminated : str := Eval cbv in u "Unterminated string starting at".
Definition msg_control : str := Eval cbv in u "Invalid control character at".
Definition msg_escape : str := Eval cbv in u "Invalid \escape".
Definition msg_uescape : str := Eval cbv in u "Invalid \uXXXX escape".
Definition msg_value : str := Eval cbv in u "Expecting value".
Definition msg_name : str :=
  Eval cbv in u "Expecting property name enclosed in double quotes".
Definition msg_colon : str := Eval cbv in u "Expecting ':' delimiter".
Definition msg_comma : str := Eval cbv in u "Expecting ',' delimiter".
Definition msg_extra : str := Eval cbv in u "Extra data".
Definition msg_bom : str :=
  Eval cbv in u "Unexpected UTF-8 BOM (decode using utf-8-sig)".
Definition msg_depth : str := Eval cbv in u "maximum recursion depth exceeded".

Definition push (c : N) (r : parsed str) : parsed str :=
  match r with
  | Parsed x rest => Parsed (c :: x) rest
  | Failed m a => Failed m a
  end.

(** [scanstring] in strict mode, from the character after the opening
    quote: the decoded string and the text after the closing quote. *)
Fixpoint scanstring (s : str) : parsed str :=
  match s with
  | [] => Failed msg_unterminated s
  | c :: s1 =>
      if c =? 34 then Parsed [] s1
      else if c =? 92 then
        match s1 with
        | [] => Failed msg_unterminated s
        | e :: s2 =>
            if e =? 117 then
              match s2 with
              | a :: b :: c' :: d :: s3 =>
                  match hex4 a b c' d with
                  | None => Failed msg_uescape s1
                  | Some cp =>
                      if is_high_surrogate cp then
                        match s3 with
                        | b1 :: b2 :: a2 :: b2' :: c2 :: d2 :: s4 =>
                            if (b1 =? 92) && (b2 =? 117) then
                              match hex4 a2 b2' c2 d2 with
                              | None => Failed msg_uescape s3
                              | Some cp2 =>
                                  if is_low_surrogate cp2
                                  then push (join_surrogates cp cp2) (scanstring s4)
                                  else push cp (scanstring s3)
                              end
                            else push cp (scanstring s3)
                        | _ => push cp (scanstring s3)
                        end
                      else push cp (scanstring s3)
                  end
              | _ => Failed msg_uescape s1
              end
            else
              match unescape e with
              | Some ch => push ch (scanstring s2)
              | None => Failed msg_escape s
              end
        end
      else if c <=? 31 then Failed msg_control s
      else push c (scanstring s1)
  end.

(** The number pattern of the scanner: an integer part (an optional minus
    sign, then 0 or a non-zero digit followed by digits), an optional
    fraction (a dot and one or more digits) and an optional exponent (e or E,
    an optional sign, one or more digits). *)

Fixpoint span_digits (s : str) : str * str :=
  match s with
  | c :: s' =>
      if is_digit c then let (ds, r) := span_digits s' in (c :: ds, r)
      else ([], s)
  | [] => ([], [])
  end.

(** Group 1: the integer part. *)
Definition match_integer (s : str) : option (str * str) :=
  let (sign, s1) :=
    match s with
    | c :: t => if c =? 45 then ([45], t) else ([], s)
    | [] => ([], s)
    end in
  match s1 with
  | c :: t =>
      if c =? 48 then Some (sign ++ [48], t)
      else if is_digit c then
        let (ds, r) := span_digits t in Some (sign ++ c :: ds, r)
      else None
  | [] => None
  end.

(** Group 2: the fraction; the empty text when the group does not match. *)
Definition match_frac (s : str) : str * str :=
  match s with
  | c :: t =>
      if c =? 46 then
        match span_digits t with
        | ([], _) => ([], s)
        | (ds, r) => (c :: ds, r)
        end
      else ([], s)
  | [] => ([], s)
  end.

(** Group 3: the exponent. *)
Definition match_exp (s : str) : str * str :=
  match s with
  | e :: t =>
      if (e =? 101) || (e =? 69) then
        let (sg, t1) :=
          match t with
          | c :: t' => if (c =? 43) || (c =? 45) then ([c], t') else ([], t)
          | [] => ([], t)
          end in
        match span_digits t1 with
        | ([], _) => ([], s)
        | (ds, r) => (e :: sg ++ ds, r)
        end
      else ([], s)
  | [] => ([], s)
  end.

(** [match_number]: the value of the literal and the text after it. *)
Definition match_number (s : str) : option (value * str) :=
  match match_integer s with
  | None => None
  | Some (integer, r1) =>
      let (frac, r2) := match_frac r1 in
      let (exp, r3) := match_exp r2 in
      match frac, exp with
      | [], [] => Some (VInt (int_of_literal integer), r3)
      | _, _ => Some (VFloat (float_of_literal (integer ++ frac ++ exp)), r3)
      end
  end.

Definition s_null : str := Eval cbv in u "null".
Definition s_true : str := Eval cbv in u "true".
Definition s_false : str := Eval cbv in u "false".
Definition s_NaN : str := Eval cbv in u "NaN".
Definition s_Infinity : str := Eval cbv in u "Infinity".
Definition s_neg_Infinity : str := Eval cbv in u "-Infinity".

(** The scalar cases of [scan_once], tried after the string, object and
    array cases. *)
Definition scan_scalar (s : str) : parsed value :=
  if startswith s s_null then Parsed VNone (skipn 4 s)
  else if startswith s s_true then Parsed (VBool true) (skipn 4 s)
  else if startswith s s_false then Parsed (VBool false) (skipn 5 s)
  else
    match match_number s with
    | Some (v, r) => Parsed v r
    | None =>
        if startswith s s_NaN then Parsed (VFloat float_nan) (skipn 3 s)
        else if startswith s s_Infinity then Parsed (VFloat float_inf) (skipn 8 s)
        else if startswith s s_neg_Infinity
             then Parsed (VFloat float_neg_inf) (skipn 9 s)
        else Failed msg_value s
    end.

(** [scan_once], [JSONArray] and [JSONObject].  The recursion of the decoder
    is bounded by [fuel]; [json_loads] supplies more than any text uses
    (lemma [decoder_fuel_suffices]).  Python bounds the nesting depth by its
    recursion limit and the digits of an integer by a conversion limit, and
    answers a text beyond them with an exception that [try_parse_json]
    catches like any other; the model has no such limits. *)
Fixpoint scan_once (fuel : nat) (s : str) {struct fuel} : parsed value :=
  match fuel with
  | O => Failed msg_depth s
  | S n =>
      match s with
      | [] => Failed msg_value s
      | c :: r =>
          if c =? 34 then
            match scanstring r with
            | Parsed x rest => Parsed (VStr x) rest
            | Failed m a => Failed m a
            end
          else if c =? 123 then
            match skip_ws r with
            | c1 :: r1 =>
                if c1 =? 125 then Parsed (VDict []) r1
                else
                  match object_items n (c1 :: r1) with
                  | Parsed pairs rest => Parsed (VDict (dict_of_pairs pairs)) rest
                  | Failed m a => Failed m a
                  end
            | [] => Failed msg_name []
            end
          else if c =? 91 then
            match skip_ws r with
            | c1 :: r1 =>
                if c1 =? 93 then Parsed (VList []) r1
                else
                  match array_items n (c1 :: r1) with
                  | Parsed items rest => Parsed (VList items) rest
                  | Failed m a => Failed m a
                  end
            | [] => Failed msg_value []
            end
          else scan_scalar s
      end
  end

(** The loop of [JSONArray]: [s] stands at the next item. *)
with array_items (fuel : nat) (s : str) {struct fuel} : parsed (list value) :=
  match fuel with
  | O => Failed msg_depth s
  | S n =>
      match scan_once n s with
      | Failed m a => Failed m a
      | Parsed v r =>
          match skip_ws r with
          | c :: r1 =>
              if c =? 93 then Parsed [v] r1
              else if c =? 44 then
                match array_items n (skip_ws r1) with
                | Parsed vs rest => Parsed (v :: vs) rest
                | Failed m a => Failed m a
                end
              else Failed msg_comma (c :: r1)
          | [] => Failed msg_comma []
          end
      end
  end

(** The loop of [JSONObject]: [s] stands at the next key. *)
with object_items (fuel : nat) (s : str) {struct fuel}
  : parsed (list (str * value)) :=
  match fuel with
  | O => Failed msg_depth s
  | S n =>
      match s with
      | q :: s1 =>
          if q =? 34 then
            match scanstring s1 with
            | Failed m a => Failed m a
            | Parsed key r =>
                match skip_ws r with
                | c :: r1 =>
                    if c =? 58 then
                      match scan_once n (skip_ws r1) with
                      | Failed m a => Failed m a
                      | Parsed v r2 =>
                          match skip_ws r2 with
                          | c2 :: r3 =>
                              if c2 =? 125 then Parsed [(key, v)] r3
                              else if c2 =? 44 then
                                match object_items n (skip_ws r3) with
                                | Parsed kvs rest => Parsed ((key, v) :: kvs) rest
                                | Failed m a => Failed m a
                                end
                              else Failed msg_comma (c2 :: r3)
                          | [] => Failed msg_comma []
                          end
                      end
                    else Failed msg_colon (c :: r1)
                | [] => Failed msg_colon []
                end
            end
          else Failed msg_name s
      | [] => Failed msg_name s
      end
  end.

(** [doc.count(c, 0, n)] *)
Definition count_upto (doc : str) (c : N) (n : nat) : N :=
  N.of_nat (List.length (filter (N.eqb c) (firstn n doc))).

(** [JSONDecodeError(msg, doc, pos)]: the message carries the position.
    The offsets follow the decoder where an error is reported at the
    character that stopped it; the properties use only that the message is
    not empty. *)
Definition json_decode_error (msg doc : str) (pos : nat) : exn :=
  let before := firstn pos doc in
  let lineno := count_upto doc 10 pos + 1 in
  let colno := Z.to_N (Z.of_nat pos - rfind before 10) in
  mk_exn JSONDecodeError
    (msg ++ u ": line " ++ dec lineno ++ u " column " ++ dec colno
         ++ u " (char " ++ dec (N.of_nat pos) ++ u ")").

Definition decoder_fuel (s : str) : nat := 2 * List.length s + 2.

(** [json.loads(s)] with the default decoder. *)
Definition json_loads (s : str) : outcome value :=
  if startswith s [65279] then Raised (json_decode_error msg_bom s 0)
  else
    match scan_once (decoder_fuel s) (skip_ws s) with
    | Failed m a =>
        if str_eqb m msg_depth then Raised (mk_exn RecursionError m)
        else Raised (json_decode_error m s (List.length s - List.length a))
    | Parsed v rest =>
        match skip_ws rest with
        | [] => Returned v
        | r => Raised (json_decode_error msg_extra s (List.length s - List.length r))
        end
    end.

(** *** The encoder *)

Definition hex_digit (n : N) : N := if n <? 10 then 48 + n else 87 + n.

(** ['\\u{0:04x}'.format(c)] *)
Definition u_escape (c : N) : str :=
  [92; 117; hex_digit ((c / 4096) mod 16); hex_digit ((c / 256) mod 16);
   hex_digit ((c / 16) mod 16); hex_digit (c mod 16)].

(** One character of [encode_basestring_ascii]. *)
Definition escape_char (c : N) : str :=
  if c =? 34 then [92; 34]
  else if c =? 92 then [92; 92]
  else if c =? 10 then [92; 110]
  else if c =? 13 then [92; 114]
  else if c =? 9 then [92; 116]
  else if c =? 12 then [92; 102]
  else if c =? 8 then [92; 98]
  else if (32 <=? c) && (c <=? 126) then [c]
  else if c <? 65536 then u_escape c
  else
    let n := c - 65536 in
    u_escape (55296 + (n / 1024) mod 1024) ++ u_escape (56320 + n mod 1024).

Definition encode_basestring_ascii (s : str) : str :=
  34 :: flat_map escape_char s ++ [34].

Definition item_sep : str := [44; 32].
Definition key_sep : str := [58; 32].

(** [json.dumps(v)] with the default arguments. *)
Fixpoint json_dumps (v : value) : str :=
  match v with
  | VNone => s_null
  | VBool true => s_true
  | VBool false => s_false
  | VInt z => dec_Z z
  | VFloat f => float_dumps f
  | VStr s => encode_basestring_ascii s
  | VList l => 91 :: join item_sep (map json_dumps l) ++ [93]
  | VDict d =>
      123 :: join item_sep
               (map (fun kv => encode_basestring_ascii (fst kv) ++ key_sep
                                 ++ json_dumps (snd kv)) d)
          ++ [125]
  end.

End Values.

Arguments Parsed {A} a rest.
Arguments Failed {A} msg at_.

End Json.
Import Json.

(** ** json_utils.py *)

Module JsonUtils.

(** *** CODE_FENCE_PATTERN

    [re.compile(r"```(?:json)?(.*?)```", re.DOTALL | re.IGNORECASE)],
    written as the backtracking matcher the pattern denotes. *)

Definition fence : str := [96; 96; 96]%N.

(** A literal pattern character under IGNORECASE: the character, its other
    case, and for 's' also U+017F (LATIN SMALL LETTER LONG S), which the
    regex engine treats as a case variant of 's'. *)
Definition ci_match (p c : N) : bool :=
  (N.eqb (to_lower c) p || (N.eqb p 115 && N.eqb c 383))%bool.

(** [(?:json)?] taken: the text after the tag. *)
Definition tag_json (s : str) : option str :=
  match s with
  | a :: b :: c :: d :: rest =>
      if ci_match 106 a && ci_match 115 b && ci_match 111 c && ci_match 110 d
      then Some rest else None
  | _ => None
  end.

(** [(.*?)```] : the shortest text up to a closing fence (DOTALL: any
    character, newlines included). *)
Fixpoint lazy_group (s : str) : option str :=
  if startswith s fence then Some []
  else match s with
       | [] => None
       | c :: s' => option_map (cons c) (lazy_group s')
       end.

(** A match that starts at the head of [s]; the result is group 1. *)
Definition fence_match_here (s : str) : option str :=
  if startswith s fence then
    let r := skipn 3 s in
    match tag_json r with
    | Some r' =>
        match lazy_group r' with
        | Some g => Some g
        | None => lazy_group r      (* backtrack: the optional tag not taken *)
        end
    | None => lazy_group r
    end
  else None.

(** [CODE_FENCE_PATTERN.search(s)]: the leftmost match, as [match.group(1)]. *)
Fixpoint fence_search (s : str) : option str :=
  match fence_match_here s with
  | Some g => Some g
  | None => match s with
            | [] => None
            | _ :: s' => fence_search s'
            end
  end.

Definition lbrace : N := 123.
Definition rbrace : N := 125.
Definition s_json : str := Eval cbv in u "json".

Definition extract_json_text (raw : str) : str :=
  let raw := strip raw in
  let raw :=
    match fence_search raw with
    | Some g =>
        let inner := strip g in
        if startswith (lower inner) s_json then strip (skipn 4 inner) else inner
    | None => raw
    end in
  (* Fallback bracket slicing *)
  let raw :=
    if negb (startswith raw [lbrace] && endswith raw [rbrace]) then
      let start := find raw lbrace in
      let end_ := rfind raw rbrace in
      if (negb (start =? -1) && negb (end_ =? -1) && (end_ >? start))%Z
      then slice raw start (end_ + 1)
      else raw
    else raw in
  strip raw.

Section Loading.
Context {F : PyFloat}.

(** [try_parse_json]: [(data, None)], or [(None, str(e))] when [json.loads]
    raises. *)
Definition try_parse_json (raw : str) : outcome (value * option str) :=
  try_except
    (obind (json_loads raw) (fun data => Returned (data, None)))
    (fun e => Returned (VNone, Some (exn_str e))).

Definition validate_keys (obj : value) (required : list str)
  : bool * list str :=
  match obj with
  | VDict d =>
      let missing := filter (fun k => negb (dict_mem d k)) required in
      (Nat.eqb (List.length missing) 0, missing)
  | _ => (false, required)
  end.

(** The truth value of an [Optional[str]]. *)
Definition opt_str_truth (o : option str) : bool :=
  match o with
  | Some (_ :: _) => true
  | _ => false
  end.

Definition s_parse_error : str := Eval cbv in u "JSON parse error: ".
Definition s_missing_keys : str := Eval cbv in u "Missing keys: ".
Definition s_comma_space : str := Eval cbv in u ", ".

Definition safe_load_validated (raw : str) (required_keys : list str)
  : outcome (value * list str) :=
  let warnings : list str := [] in
  let json_text := extract_json_text raw in
  obind (try_parse_json json_text) (fun '(data, err) =>
  if opt_str_truth err then
    let warnings := warnings ++ [s_parse_error ++ match err with Some e => e | None => [] end] in
    Returned (VDict [], warnings)
  else
    let '(ok, missing) := validate_keys data required_keys in
    let warnings :=
      if negb ok then warnings ++ [s_missing_keys ++ join s_comma_space missing]
      else warnings in
    Returned (data, warnings)).

End Loading.
End JsonUtils.
Import JsonUtils.

(** An executable stand-in for [float] that keeps the literal text.  It is
    used to run the model on examples; the properties below are stated for
    every implementation of [PyFloat]. *)
Module LiteralFloat.

Definition nonzero_digit (c : N) : bool := ((49 <=? c) && (c <=? 57))%N.

Fixpoint mantissa (s : str) : str :=
  match s with
  | c :: s' => if ((c =? 101) || (c =? 69))%N then [] else c :: mantissa s'
  | [] => []
  end.

#[export] Instance literal_float : PyFloat := {|
  float := str;
  float_of_literal := fun s => s;
  float_nan := s_NaN;
  float_inf := s_Infinity;
  float_neg_inf := s_neg_Infinity;
  float_dumps := fun s => s;
  float_truth := fun s =>
    existsb nonzero_digit (mantissa s) || str_eqb s s_NaN
    || str_eqb s s_Infinity || str_eqb s s_neg_Infinity
|}.

(** A float of the stand-in, from its literal. *)
Definition lit_float (s : string) : @value literal_float := VFloat (u s).

End LiteralFloat.
Import LiteralFloat.


(** ** config.py *)

Module Config.

Record AzureAIConfig : Type := {
  endpoint : option str;
  model_deployment_name : option str
}.

Definition s_endpoint_var : str := Eval cbv in u "AZURE_AI_FOUNDRY_ENDPOINT".
Definition s_model_var : str := Eval cbv in u "AZURE_AI_MODEL_DEPLOYMENT_NAME".
Definition s_default_model : str := Eval cbv in u "gpt-4o-mini".

(** [AzureAIConfig()], reading the process environment through [getenv]. *)
Definition new_config (getenv : str -> option str) : AzureAIConfig :=
  {| endpoint := getenv s_endpoint_var;
     model_deployment_name :=
       match getenv s_model_var with
       | Some m => Some m
       | None => Some s_default_model
       end |}.

Definition validate_config (c : AzureAIConfig) : bool :=
  let missing_configs : list str :=
    if negb (opt_str_truth (endpoint c)) then [s_endpoint_var] else [] in
  match missing_configs with
  | _ :: _ => false
  | [] => true
  end.

Definition get_setup_instructions (c : AzureAIConfig) : str :=
  Eval cbv in u "
Setup Instructions:

1. Azure AI Foundry Setup:
    - Create an Azure AI Foundry project: https://ai.azure.com
    - Deploy a model (recommended: gpt-4o-mini for cost efficiency)
    - Set environment variable: AZURE_AI_FOUNDRY_ENDPOINT=<your-project-endpoint>
    - Set environment variable: AZURE_AI_MODEL_DEPLOYMENT_NAME=<your-model-deployment-name>

2. Azure Authentication:
    - Install Azure CLI: https://docs.microsoft.com/en-us/cli/azure/install-azure-cli
    - Run: az login
    - The application will use DefaultAzureCredential for authentication

Environment variables can be set in:
- Windows: System Properties > Environment Variables
- Or create a .env file in the project root (not recommended for production)
".

End Config.
Import Config.

(** ** Effects of the stages *)

Module Effects.

(** [str(x)] as an f-string applies it to a parsed value. *)
Class PyFormat (F : PyFloat) : Type := { py_str : value -> str }.

Section Monad.
Context {F : PyFloat}.

(** The prompt templates of [main.py] with the values interpolated into
    them. *)
Inductive prompt : Type :=
| ExtractionPrompt (user_input : str)
| GeoPrompt (destination : value)
| WeatherPrompt (destination latitude longitude temperature wind_speed : value).

(** What the process does that its environment can observe, and the calls
    the properties count. *)
Inductive event : Type :=
| AgentRun (p : prompt)                         (* await agent.run(messages) *)
| SendMessage (msg : value)                     (* await ctx.send_message(msg) *)
| WeatherServiceCreated                         (* WeatherService(config) *)
| WeatherLookup (latitude longitude : value)    (* get_weather_info_by_coords(...) *)
| WeatherClose                                  (* weather_service.close() *)
| SessionCreated                                (* aiohttp.ClientSession() *)
| SessionClosed                                 (* session.close() *)
| HttpGet (latitude longitude : value)          (* session.get(base_url, params) *)
| CredentialEntered
| CredentialExited.

(** The answer to [session.get]: a transport error, or a response with its
    status and what [await response.json()] evaluates to. *)
Inductive http_response : Type :=
| HttpRaises (e : exn)
| HttpStatus (status : Z) (body : outcome value).

(** The collaborators: the language model caller, the Open-Meteo endpoint,
    the credential provider and the process environment. *)
Record env : Type := {
  agent_reply : prompt -> outcome str;
  http_reply : value -> value -> http_response;
  credential_enter : outcome unit;
  getenv : str -> option str
}.

(** [WeatherService._session] *)
Inductive session : Type := NoSession | OpenSession | ClosedSession.

(** A computation: given the collaborators and the session field, an
    outcome, the session field afterwards and the events in order. *)
Definition M (A : Type) : Type :=
  env -> session -> outcome A * session * list event.

Definition ret {A : Type} (a : A) : M A := fun _ s => (Returned a, s, []).

Definition raise {A : Type} (e : exn) : M A := fun _ s => (Raised e, s, []).

Definition bind {A B : Type} (m : M A) (k : A -> M B) : M B :=
  fun e s =>
    match m e s with
    | (Returned a, s1, t1) =>
        match k a e s1 with
        | (r, s2, t2) => (r, s2, t1 ++ t2)
        end
    | (Raised x, s1, t1) => (Raised x, s1, t1)
    end.

Definition lift {A : Type} (o : outcome A) : M A := fun _ s => (o, s, []).

Definition emit (ev : event) : M unit := fun _ s => (Returned tt, s, [ev]).

(** [try: m  except Exception as e: h e] *)
Definition try_catch {A : Type} (m : M A) (h : exn -> M A) : M A :=
  fun e s =>
    match m e s with
    | (Returned a, s1, t1) => (Returned a, s1, t1)
    | (Raised x, s1, t1) =>
        match h x e s1 with
        | (r, s2, t2) => (r, s2, t1 ++ t2)
        end
    end.

(** [try: m  finally: f] *)
Definition try_finally {A : Type} (m : M A) (f : M unit) : M A :=
  fun e s =>
    match m e s with
    | (r, s1, t1) =>
        match f e s1 with
        | (Returned _, s2, t2) => (r, s2, t1 ++ t2)
        | (Raised x, s2, t2) => (Raised x, s2, t1 ++ t2)
        end
    end.

(** [(await agent.run(messages)).messages[-1].contents[-1].text] *)
Definition agent_run (p : prompt) : M str :=
  fun e s => (agent_reply e p, s, [AgentRun p]).

Definition send_message (msg : value) : M unit := emit (SendMessage msg).

End Monad.

Declare Scope py_scope.
Delimit Scope py_scope with py.
Notation "x <- m ;; k" := (bind m (fun x => k))
  (at level 61, m at next level, right associativity) : py_scope.
Notation "' p <- m ;; k" := (bind m (fun p => k))
  (at level 61, p pattern, m at next level, right associativity) : py_scope.
Notation "m ;; k" := (bind m (fun _ => k))
  (at level 61, right associativity) : py_scope.

End Effects.
Import Effects.

(** ** weather_service.py *)

Module Weather.
Section Service.
Context {F : PyFloat}.
Local Open Scope py_scope.

(** The name of a value's type, as error messages print it. *)
Definition type_name (x : value) : str :=
  match x with
  | VNone => u "NoneType"
  | VBool _ => u "bool"
  | VInt _ => u "int"
  | VFloat _ => u "float"
  | VStr _ => u "str"
  | VList _ => u "list"
  | VDict _ => u "dict"
  end.

(** [obj.get(k, default)]: defined on a [dict] only. *)
Definition py_get (obj : value) (k : str) (default : value) : outcome value :=
  match obj with
  | VDict d =>
      Returned (match dict_get d k with Some v => v | None => default end)
  | _ =>
      Raised (mk_exn AttributeError
                (u "'" ++ type_name obj ++ u "' object has no attribute 'get'"))
  end.

(** [WeatherService(config)] *)
Definition new_weather_service : M unit :=
  fun _ _ => (Returned tt, NoSession, [WeatherServiceCreated]).

(** [_get_session] *)
Definition get_session : M unit :=
  fun _ s =>
    match s with
    | OpenSession => (Returned tt, s, [])
    | _ => (Returned tt, OpenSession, [SessionCreated])
    end.

(** [close] *)
Definition close : M unit :=
  emit WeatherClose ;;
  fun _ s =>
    match s with
    | OpenSession => (Returned tt, ClosedSession, [SessionClosed])
    | _ => (Returned tt, s, [])
    end.

(** [session.get(base_url, params=params)] and the response's status and
    JSON body. *)
Definition http_get (latitude longitude : value) : M (Z * outcome value) :=
  fun e s =>
    match http_reply e latitude longitude with
    | HttpRaises x => (Raised x, s, [HttpGet latitude longitude])
    | HttpStatus status body =>
        (Returned (status, body), s, [HttpGet latitude longitude])
    end.

Definition get_weather_info_by_coords (latitude longitude : value) : M value :=
  emit (WeatherLookup latitude longitude) ;;
  try_catch
    (get_session ;;
     ' (status, body) <- http_get latitude longitude ;;
     if (status =? 200)%Z then
       data <- lift body ;;
       current <- lift (py_get data (u "current") (VDict [])) ;;
       temperature <- lift (py_get current (u "temperature_2m") VNone) ;;
       wind_speed <- lift (py_get current (u "wind_speed_10m") VNone) ;;
       ret (VDict [(u "temperature", temperature);
                   (u "wind_speed", wind_speed);
                   (u "latitude", latitude);
                   (u "longitude", longitude);
                   (u "source", VStr (u "open-meteo"))])
     else ret VNone)
    (fun _ => ret VNone).

End Service.
End Weather.
Import Weather.

(** ** main.py *)

Module Main.
Section Stages.
Context {F : PyFloat} {P : PyFormat F}.
Local Open Scope py_scope.

Definition k_destination : str := Eval cbv in u "destination".
Definition k_duration : str := Eval cbv in u "duration".
Definition k_travel_type : str := Eval cbv in u "travel_type".
Definition k_latitude : str := Eval cbv in u "latitude".
Definition k_longitude : str := Eval cbv in u "longitude".
Definition k_weather : str := Eval cbv in u "weather".
Definition k_weather_analysis : str := Eval cbv in u "weather_analysis".
Definition k_weather_summary : str := Eval cbv in u "weather_summary".
Definition k_packing_notes : str := Eval cbv in u "packing_notes".
Definition k_temperature : str := Eval cbv in u "temperature".
Definition k_wind_speed : str := Eval cbv in u "wind_speed".

(** The fallback of the extraction stage. *)
Definition fallback_travel_info : value :=
  VDict [(k_destination, VStr (u "Paris"));
         (k_duration, VInt 7);
         (k_travel_type, VStr (u "vacation"))].

(** [DestinationAgent.handle_user_input] *)
Definition handle_user_input (user_input : str) : M unit :=
  raw_text <- agent_run (ExtractionPrompt user_input) ;;
  ' (travel_info, warnings) <-
      lift (safe_load_validated raw_text
              [k_destination; k_duration; k_travel_type]) ;;
  let travel_info :=
    if negb (truthy travel_info) then fallback_travel_info else travel_info in
  send_message travel_info.

(** The fallback used when no weather reading was obtained. *)
Definition unavailable_analysis : value :=
  VDict [(k_weather_summary, VStr (u "Weather data unavailable"));
         (k_packing_notes, VList [VStr (u "Pack for variable weather conditions")])].

(** The fallback used when the assessment reply is unusable:
    [f"Temp {temperature}°C, wind {wind_speed} m/s"] and two fixed notes. *)
Definition reading_analysis (temperature wind_speed : value) : value :=
  VDict [(k_weather_summary,
          VStr (u "Temp " ++ py_str temperature ++ [176%N] ++ u "C, wind "
                  ++ py_str wind_speed ++ u " m/s"));
         (k_packing_notes,
          VList [VStr (u "Layer clothing appropriately");
                 VStr (u "Consider wind-resistant outerwear")])].

(** [{**travel_info, "weather": w, "weather_analysis": a}] *)
Definition complete (travel_info w a : value) : outcome value :=
  match travel_info with
  | VDict d =>
      Returned (VDict (dict_set (dict_set d k_weather w) k_weather_analysis a))
  | _ =>
      Raised (mk_exn TypeError
                (u "'" ++ type_name travel_info ++ u "' object is not a mapping"))
  end.

Definition is_none (x : value) : bool :=
  match x with VNone => true | _ => false end.

(** [WeatherAgent.handle_travel_info] *)
Definition handle_travel_info (travel_info : value) : M unit :=
  destination <- lift (py_get travel_info k_destination (VStr (u "Unknown"))) ;;
  geo_raw <- agent_run (GeoPrompt destination) ;;
  ' (geo_data, geo_warnings) <-
      lift (safe_load_validated geo_raw [k_latitude; k_longitude]) ;;
  lat <- lift (py_get geo_data k_latitude VNone) ;;
  let latitude := if is_int_or_float lat then lat else VNone in
  lon <- lift (py_get geo_data k_longitude VNone) ;;
  let longitude := if is_int_or_float lon then lon else VNone in
  weather_data <-
    (if negb (is_none latitude) && negb (is_none longitude)
     then get_weather_info_by_coords latitude longitude
     else ret VNone) ;;
  if truthy weather_data then
    temperature <- lift (py_get weather_data k_temperature VNone) ;;
    wind_speed <- lift (py_get weather_data k_wind_speed VNone) ;;
    wlat <- lift (py_get weather_data k_latitude VNone) ;;
    wlon <- lift (py_get weather_data k_longitude VNone) ;;
    analysis_raw <-
      agent_run (WeatherPrompt destination wlat wlon temperature wind_speed) ;;
    ' (weather_analysis, warnings) <-
        lift (safe_load_validated analysis_raw
                [k_weather_summary; k_packing_notes]) ;;
    let weather_analysis :=
      if negb (truthy weather_analysis)
      then reading_analysis temperature wind_speed
      else weather_analysis in
    complete_info <- lift (complete travel_info weather_data weather_analysis) ;;
    send_message complete_info
  else
    complete_info <- lift (complete travel_info VNone unavailable_analysis) ;;
    send_message complete_info.

Definition s_missing_configuration : str :=
  Eval cbv in
    u "Missing required configuration. Please set AZURE_AI_FOUNDRY_ENDPOINT and AZURE_AI_MODEL_DEPLOYMENT_NAME.
".

(** [async with DefaultAzureCredential() as credential: body] *)
Definition with_credential {A : Type} (body : M A) : M A :=
  (fun e s => (credential_enter e, s, [])) ;;
  emit CredentialEntered ;;
  try_finally body (emit CredentialExited).

Section Workflow.

(** The body of the [try] block: [create_agents], entering the three
    agents, building the workflow and draining [workflow.run_stream].  It is
    run by the agent framework, which is not part of this repository. *)
Variable run_workflow : AzureAIConfig -> str -> M str.

Definition run_multi_agent_workflow (user_input : str) : M str :=
  config <- (fun e s => (Returned (new_config (getenv e)), s, [])) ;;
  if negb (validate_config config) then
    raise (mk_exn RuntimeError
             (s_missing_configuration ++ get_setup_instructions config))
  else
    new_weather_service ;;
    with_credential
      (try_finally (run_workflow config user_input) close).

End Workflow.

End Stages.
End Main.
Import Main.

(** An executable [str()] for the stand-in floats: scalars print as Python
    prints them; a list or a dict prints as its JSON text (Python writes the
    [repr] of the items, which the stages never rely on). *)
Module LiteralFormat.

Definition literal_str (x : value) : str :=
  match x with
  | VNone => u "None"
  | VBool true => u "True"
  | VBool false => u "False"
  | VInt z => dec_Z z
  | VFloat f => f
  | VStr s => s
  | _ => json_dumps x
  end.

#[export] Instance literal_format : PyFormat literal_float :=
  {| py_str := literal_str |}.

End LiteralFormat.
Import LiteralFormat.

(** ** main.py: the synthesis stage *)

Module Packing.
Section Stage.
Context {F : PyFloat} {P : PyFormat F}.

(** The packing prompt template with the values interpolated into it. *)
Inductive packing_prompt : Type :=
| PackingPrompt (destination duration travel_type weather_info : value)
                (weather_notes : str).

(** What the stage does that its environment can observe. *)
Inductive packing_event : Type :=
| PackingRun (p : packing_prompt)     (* await self.agent.run(messages) *)
| YieldOutput (final_output : str).   (* await ctx.yield_output(final_output) *)

(** A computation of the stage: given the language model caller, an outcome
    and the events in order. *)
Definition PM (A : Type) : Type :=
  (packing_prompt -> outcome str) -> outcome A * list packing_event.

Definition pret {A : Type} (a : A) : PM A := fun _ => (Returned a, []).

Definition pbind {A B : Type} (m : PM A) (k : A -> PM B) : PM B :=
  fun reply =>
    match m reply with
    | (Returned a, t1) =>
        match k a reply with
        | (r, t2) => (r, t1 ++ t2)
        end
    | (Raised x, t1) => (Raised x, t1)
    end.

Definition plift {A : Type} (o : outcome A) : PM A := fun _ => (o, []).

(** [(await self.agent.run(messages)).messages[-1].contents[-1].text] *)
Definition packing_run (p : packing_prompt) : PM str :=
  fun reply => (reply p, [PackingRun p]).

Definition yield_output (final_output : str) : PM unit :=
  fun _ => (Returned tt, [YieldOutput final_output]).

(** The items of [sep.join(items)] for a list: every item has to be a
    [str]. *)
Fixpoint join_items (i : N) (l : list value) : outcome (list str) :=
  match l with
  | [] => Returned []
  | VStr s :: l' => obind (join_items (i + 1) l') (fun parts => Returned (s :: parts))
  | x :: _ =>
      Raised (mk_exn TypeError
                (u "sequence item " ++ dec i ++ u ": expected str instance, "
                   ++ type_name x ++ u " found"))
  end.

(** [sep.join(x)] for a parsed value: a list of strings is joined, a string
    is iterated by character and a mapping by key; anything else is not
    iterable. *)
Definition str_join (sep : str) (x : value) : outcome str :=
  match x with
  | VList l => obind (join_items 0 l) (fun parts => Returned (join sep parts))
  | VStr s => Returned (join sep (map (fun c => [c]) s))
  | VDict d => Returned (join sep (dict_keys d))
  | _ => Raised (mk_exn TypeError (u "can only join an iterable"))
  end.

Definition rule : str := repeat 61%N 26.

(** The weather line of the report:
    [f"... Weather: {weather_analysis.get('weather_summary', 'N/A')}"
     if weather_analysis.get('weather_summary') else ''] *)
Definition weather_line (weather_analysis : value) : outcome str :=
  obind (py_get weather_analysis k_weather_summary VNone) (fun shown =>
  if truthy shown then
    obind (py_get weather_analysis k_weather_summary (VStr (u "N/A")))
      (fun summary =>
         Returned ([127777; 65039]%N ++ u "  Weather: " ++ py_str summary))
  else Returned []).

(** The report template. *)
Definition final_output (destination duration travel_type : value)
  (line packing_recommendations : str) : str :=
  [10; 127919]%N ++ u " TRAVEL PLANNING SUMMARY" ++ [10%N]
  ++ rule ++ [10%N]
  ++ [128205%N] ++ u " Destination: " ++ py_str destination ++ [10%N]
  ++ [128197%N] ++ u " Duration: " ++ py_str duration ++ u " days" ++ [10%N]
  ++ [127917%N] ++ u " Travel Type: " ++ py_str travel_type ++ [10%N]
  ++ line ++ [10%N]
  ++ [10%N]
  ++ [127890%N] ++ u " PACKING RECOMMENDATIONS" ++ [10%N]
  ++ rule ++ [10%N]
  ++ packing_recommendations ++ [10%N]
  ++ [10%N]
  ++ [9992; 65039]%N ++ u " Have a wonderful trip!" ++ [10%N].

Declare Scope packing_scope.
Delimit Scope packing_scope with packing.
Local Notation "x <- m ;; k" := (pbind m (fun x => k))
  (at level 61, m at next level, right associativity) : packing_scope.
Local Notation "m ;; k" := (pbind m (fun _ => k))
  (at level 61, right associativity) : packing_scope.
Local Open Scope packing_scope.

(** [PackingAgent.handle_complete_info] *)
Definition handle_complete_info (complete_info : value) : PM unit :=
  destination <- plift (py_get complete_info k_destination (VStr (u "Unknown"))) ;;
  duration <- plift (py_get complete_info k_duration (VInt 7)) ;;
  travel_type <- plift (py_get complete_info k_travel_type (VStr (u "vacation"))) ;;
  weather_analysis <- plift (py_get complete_info k_weather_analysis (VDict [])) ;;
  weather_info <-
    plift (py_get weather_analysis k_weather_summary
             (VStr (u "Weather data unavailable"))) ;;
  notes <- plift (py_get weather_analysis k_packing_notes (VList [])) ;;
  weather_notes <- plift (str_join s_comma_space notes) ;;
  packing_recommendations <-
    packing_run (PackingPrompt destination duration travel_type
                   weather_info weather_notes) ;;
  line <- plift (weather_line weather_analysis) ;;
  yield_output (final_output destination duration travel_type
                  line packing_recommendations).

End Stage.
End Packing.
Import Packing.

(** ** main.py: the console entry point *)

Module Console.
Section EntryPoint.
Context {F : PyFloat}.

(** What [main] prints and reads itself, with the events of the run in
    between. *)
Inductive console_event : Type :=
| Print (text : str)           (* print(text) *)
| Input (prompt_text : str)    (* input(prompt_text) *)
| Stage (ev : event).

(** Whether a [KeyboardInterrupt] ends [asyncio.run].  It comes from the
    terminal and not from the program, so it is given from outside, with the
    session state and the events the run has reached when it ends. *)
Inductive interruption : Type :=
| Uninterrupted
| Interrupted (s1 : session) (t : list event).

Definition s_title : str :=
  [129504%N] ++ u " AI-Powered Travel Packing Assistant (Azure AI Foundry Required)".
Definition s_subtitle : str :=
  [128221%N] ++ u " Microsoft Agentic Framework with Azure AI Foundry".
Definition s_describe : str :=
  [9992; 65039]%N ++ u "  Describe your travel plans: ".
Definition default_request : str :=
  Eval cbv in u "I'm planning a 5-day vacation to Paris".
Definition s_runtime_error : str :=
  [10; 10060]%N ++ u " Configuration or runtime error: ".
Definition s_goodbye : str := [10; 128075]%N ++ u " Goodbye!".

(** ["=" * 60] *)
Definition separator : str := repeat 61%N 60.

Variable run_workflow : AzureAIConfig -> str -> M str.

(** [main].  [stdin] is what [input] evaluates to: the line typed, or the
    exception it raises (at end of input), which nothing catches.  The three
    ways out of the [try] statement follow: the run returns, a
    [KeyboardInterrupt] ends it, or it raises an [Exception]. *)
Definition main (stdin : outcome str) (sigint : interruption)
  (e : env) (s : session)
  : outcome unit * session * list console_event :=
  let banner := [Print s_title; Print s_subtitle; Print separator;
                 Input s_describe] in
  match stdin with
  | Raised x => (Raised x, s, banner)
  | Returned user_input =>
      let user_input :=
        match strip user_input with
        | [] => default_request
        | _ :: _ => user_input
        end in
      match sigint with
      | Interrupted s1 t =>
          (Returned tt, s1, banner ++ map Stage t ++ [Print s_goodbye])
      | Uninterrupted =>
          match run_multi_agent_workflow run_workflow user_input e s with
          | (Returned result, s1, t) =>
              (Returned tt, s1,
               banner ++ map Stage t
                 ++ [Print ([10%N] ++ separator); Print result])
          | (Raised x, s1, t) =>
              (Returned tt, s1,
               banner ++ map Stage t ++ [Print (s_runtime_error ++ exn_str x)])
          end
      end
  end.

End EntryPoint.
End Console.
Import Console.

(** * Predicates and sample data used to state the properties *)

(** A text that does not start with white space. *)
Definition head_ok (s : str) : Prop :=
  match s with
  | [] => True
  | c :: _ => isspace c = false
  end.

Section Observations.
Context {F : PyFloat}.

(** Every message a computation sends satisfies [Q]. *)
Definition sends_only {A : Type} (Q : value -> Prop) (m : M A) : Prop :=
  forall e s r s1 t msg,
    m e s = (r, s1, t) -> In (SendMessage msg) t -> Q msg.

(** The messages sent, in order. *)
Definition sent (t : list event) : list value :=
  flat_map (fun ev => match ev with SendMessage m => [m] | _ => [] end) t.

(** The number of calls of [WeatherService.close] among some events. *)
Definition closes (t : list event) : nat :=
  List.length (filter (fun ev => match ev with WeatherClose => true | _ => false end) t).

End Observations.

Section Reloading.
Local Open Scope N_scope.

(** What [dec_digits] writes in front of [acc]. *)
Definition numeral (n : N) (ds : str) : Prop :=
  ds <> []
  /\ Forall (fun c => is_digit c = true) ds
  /\ (forall acc, digits_value ds acc = acc * 10 ^ N.of_nat (List.length ds) + n)
  /\ (match ds with c :: _ => c = 48 -> ds = [48] /\ n = 0 | [] => True end).

(** What can follow a value in the text of [json_dumps]: nothing, a comma,
    a closing bracket or a closing brace. *)
Definition delimited (rest : str) : Prop :=
  match rest with
  | [] => True
  | c :: _ => c = 44 \/ c = 93 \/ c = 125
  end.

(** The strings the encoder writes back exactly: code points below
    0x110000, and no high surrogate directly before a low surrogate. *)
Fixpoint str_ok (s : str) : Prop :=
  match s with
  | [] => True
  | c :: s' =>
      c < 1114112
      /\ (is_high_surrogate c = true ->
          match s' with
          | c' :: _ => is_low_surrogate c' = false
          | [] => True
          end)
      /\ str_ok s'
  end.

(** The texts [escape_char] writes for a code point: a short escape, the
    character itself, one [\u] escape, or a surrogate pair of two. *)
Inductive escape_shape (c : N) : str -> Prop :=
| shape_short (e : N) :
    unescape e = Some c -> e <> 117 -> escape_shape c [92; e]
| shape_plain :
    c <> 34 -> c <> 92 -> 32 <= c -> escape_shape c [c]
| shape_single :
    c < 65536 -> escape_shape c (u_escape c)
| shape_pair (hi lo : N) :
    is_high_surrogate hi = true -> is_low_surrogate lo = true ->
    join_surrogates hi lo = c -> hi < 65536 -> lo < 65536 ->
    escape_shape c (u_escape hi ++ u_escape lo).

(** A Unicode scalar value: a code point that is not a surrogate. *)
Definition scalar (c : N) : Prop :=
  c < 1114112 /\ is_high_surrogate c = false /\ is_low_surrogate c = false.

(** How [scanstring] produced its first character. *)
Inductive scan_step (s out rest : str) : Prop :=
| step_quote : s = 34 :: rest -> out = [] -> scan_step s out rest
| step_plain (c : N) (s1 out' : str) :
    s = c :: s1 -> c <> 34 -> c <> 92 -> out = c :: out' ->
    scanstring s1 = Parsed out' rest -> scan_step s out rest
| step_short (e ch : N) (s2 out' : str) :
    s = 92 :: e :: s2 -> unescape e = Some ch -> out = ch :: out' ->
    scanstring s2 = Parsed out' rest -> scan_step s out rest
| step_single (a b c d cp : N) (s3 out' : str) :
    s = 92 :: 117 :: a :: b :: c :: d :: s3 -> hex4 a b c d = Some cp ->
    out = cp :: out' -> scanstring s3 = Parsed out' rest ->
    (is_high_surrogate cp = true ->
     forall a2 b2 c2 d2 s4 lo,
       s3 = 92 :: 117 :: a2 :: b2 :: c2 :: d2 :: s4 ->
       hex4 a2 b2 c2 d2 = Some lo -> is_low_surrogate lo = false) ->
    scan_step s out rest
| step_pair (a b c d a2 b2 c2 d2 hi lo : N) (s4 out' : str) :
    s = 92 :: 117 :: a :: b :: c :: d :: 92 :: 117 :: a2 :: b2 :: c2 :: d2 :: s4 ->
    hex4 a b c d = Some hi -> is_high_surrogate hi = true ->
    hex4 a2 b2 c2 d2 = Some lo -> is_low_surrogate lo = true ->
    out = join_surrogates hi lo :: out' ->
    scanstring s4 = Parsed out' rest -> scan_step s out rest.

(** The first character of a scalar the decoder accepts. *)
Definition scalar_start (c : N) : Prop :=
  c = 110 \/ c = 116 \/ c = 102 \/ c = 45 \/ c = 78 \/ c = 73 \/ 48 <= c <= 57.

(** The first character of a value's text. *)
Definition value_start (c : N) : Prop := c = 34 \/ c = 91 \/ c = 123 \/ scalar_start c.

Context {F : PyFloat}.

(** Induction on values, with the items of a list and the values of a
    mapping covered by the induction hypothesis. *)
Section ValueInduction.
Variable P : value -> Prop.
Hypothesis Hnone : P VNone.
Hypothesis Hbool : forall b, P (VBool b).
Hypothesis Hint : forall z, P (VInt z).
Hypothesis Hfloat : forall f, P (VFloat f).
Hypothesis Hstr : forall s, P (VStr s).
Hypothesis Hlist : forall l, Forall P l -> P (VList l).
Hypothesis Hdict : forall d, Forall (fun kv => P (snd kv)) d -> P (VDict d).

Fixpoint value_induction (v : value) : P v :=
  match v with
  | VNone => Hnone
  | VBool b => Hbool b
  | VInt z => Hint z
  | VFloat f => Hfloat f
  | VStr s => Hstr s
  | VList l =>
      Hlist l ((fix go (l : list value) : Forall P l :=
                  match l with
                  | [] => Forall_nil P
                  | x :: l' => Forall_cons x (value_induction x) (go l')
                  end) l)
  | VDict d =>
      Hdict d ((fix go (d : list (str * value))
                  : Forall (fun kv => P (snd kv)) d :=
                  match d with
                  | [] => Forall_nil _
                  | kv :: d' =>
                      Forall_cons kv (value_induction (snd kv)) (go d')
                  end) d)
  end.
End ValueInduction.

(** Every float of a value satisfies [Pf], every string and key [Ps], and
    the keys of every mapping [Pk]. *)
Fixpoint value_all (Pf : float -> Prop) (Ps : str -> Prop)
  (Pk : list str -> Prop) (v : value) : Prop :=
  match v with
  | VNone | VBool _ | VInt _ => True
  | VFloat f => Pf f
  | VStr s => Ps s
  | VList l =>
      (fix all (l : list value) : Prop :=
         match l with
         | [] => True
         | x :: l' => value_all Pf Ps Pk x /\ all l'
         end) l
  | VDict d =>
      Pk (map fst d)
      /\ (fix all (d : list (str * value)) : Prop :=
            match d with
            | [] => True
            | kv :: d' => Ps (fst kv) /\ value_all Pf Ps Pk (snd kv) /\ all d'
            end) d
  end.

(** The decoder reads the text the encoder writes for [f] back as [f]. *)
Definition float_reloads (f : float) : Prop :=
  forall rest, delimited rest ->
               scan_scalar (float_dumps f ++ rest) = Parsed (VFloat f) rest.

Definition reloadable (v : value) : Prop :=
  value_all float_reloads str_ok (@NoDup str) v.

(** What the decoder produces from a text of scalar values: well-formed
    strings, and mappings without repeated keys. *)
Definition produced (v : value) : Prop :=
  value_all (fun _ => True) str_ok (@NoDup str) v.

Definition entry_ok (kv : str * value) : Prop :=
  str_ok (fst kv) /\ produced (snd kv).

(** Every float of the value is written as a text that decodes to it. *)
Definition floats_reload (v : value) : Prop :=
  value_all float_reloads (fun _ => True) (fun _ => True) v.

(** Fuel that decoding the text of a value takes. *)
Fixpoint need (v : value) : nat :=
  match v with
  | VList l =>
      S ((fix items (l : list value) : nat :=
            match l with
            | [] => O
            | x :: l' => S (need x + items l')
            end) l)
  | VDict d =>
      S ((fix items (d : list (str * value)) : nat :=
            match d with
            | [] => O
            | kv :: d' => S (need (snd kv) + items d')
            end) d)
  | _ => 1%nat
  end.

Definition need_items (l : list value) : nat :=
  fold_right (fun x n => S (need x + n)) O l.

Definition need_pairs (d : list (str * value)) : nat :=
  fold_right (fun kv n => S (need (snd kv) + n)) O d.

Definition pair_text (kv : str * value) : str :=
  encode_basestring_ascii (fst kv) ++ key_sep ++ json_dumps (snd kv).

End Reloading.

(** ** Parts of a text *)

(** A contiguous part of a text. *)
Definition part_of (x s : str) : Prop := exists a b, s = a ++ x ++ b.

(** A text that holds an opening and a closing fence. *)
Definition has_block (s : str) : Prop :=
  exists a b c, s = a ++ fence ++ b ++ fence ++ c.

(** The fallback slicing of [extract_json_text]: from the first opening
    brace to the last closing one. *)
Definition brace_slice (raw : str) : str :=
  if negb (startswith raw [lbrace] && endswith raw [rbrace]) then
    let start := find raw lbrace in
    let end_ := rfind raw rbrace in
    if (negb (start =? -1) && negb (end_ =? -1) && (end_ >? start))%Z
    then slice raw start (end_ + 1)
    else raw
  else raw.

(** The two shapes of reply the extraction is written for: the JSON text
    [j] inside prose that has no brace of its own on the outer sides and no
    fenced block, or inside the first fenced block of the reply, with or
    without the json tag. *)
Definition wraps (raw j : str) : Prop :=
  (exists pre post,
      raw = pre ++ j ++ post
      /\ fence_search (strip raw) = None
      /\ ~ In lbrace pre /\ ~ In rbrace post)
  \/ (exists pre tag body post,
         raw = pre ++ fence ++ tag ++ body ++ fence ++ post
         /\ ~ In 96%N pre /\ ~ In 96%N body
         /\ (tag = [] \/ lower tag = s_json)
         /\ strip body = j).

(** ** Counting events *)

Section Counting.
Context {F : PyFloat}.

(** The number of events of a kind. *)
Definition count (p : event -> bool) (t : list event) : nat :=
  List.length (filter p t).

Definition is_agent_run (ev : event) : bool :=
  match ev with AgentRun _ => true | _ => false end.
Definition is_lookup (ev : event) : bool :=
  match ev with WeatherLookup _ _ => true | _ => false end.
Definition is_http_get (ev : event) : bool :=
  match ev with HttpGet _ _ => true | _ => false end.
Definition is_session_created (ev : event) : bool :=
  match ev with SessionCreated => true | _ => false end.
Definition is_session_closed (ev : event) : bool :=
  match ev with SessionClosed => true | _ => false end.

(** 1 for an open session, 0 otherwise. *)
Definition open_sessions (s : session) : nat :=
  match s with OpenSession => 1 | _ => 0 end.

(** A use of the weather service by its owner. *)
Inductive service_call : Type :=
| CallLookup (latitude longitude : value)
| CallClose.

Local Open Scope py_scope.

(** The calls made one after the other on one [WeatherService]. *)
Fixpoint service_calls (cs : list service_call) : M unit :=
  match cs with
  | [] => ret tt
  | CallLookup latitude longitude :: cs' =>
      get_weather_info_by_coords latitude longitude ;; service_calls cs'
  | CallClose :: cs' => close ;; service_calls cs'
  end.

(** The responses from which a reading is built: status 200 and a body
    that is a mapping whose [current] entry is a mapping or is absent. *)
Definition usable_response (r : http_response) (current : list (str * value))
  : Prop :=
  exists body,
    r = HttpStatus 200 (Returned (VDict body))
    /\ (dict_get body (u "current") = Some (VDict current)
        \/ dict_get body (u "current") = None /\ current = []).

End Counting.

Section Shapes.
Context {F : PyFloat}.

(** A computation that sends exactly one message when it returns and none
    when it raises. *)
Definition sends_on_return {A : Type} (m : M A) : Prop :=
  forall e s r s1 t,
    m e s = (r, s1, t) ->
    match r with
    | Returned _ => exists msg, sent t = [msg]
    | Raised _ => sent t = []
    end.

(** A computation that has at most [n] events of a kind, however it ends. *)
Definition at_most (p : event -> bool) (n : nat) {A : Type} (m : M A) : Prop :=
  forall e s r s1 t, m e s = (r, s1, t) -> (count p t <= n)%nat.

(** A computation that sends no message. *)
Definition silent {A : Type} (m : M A) : Prop :=
  forall e s r s1 t, m e s = (r, s1, t) -> sent t = [].

End Shapes.

(** What the enrichment stage makes of the mapping [d]: a mapping that
    reads [weather] as a reading or [None], [weather_analysis] as a value
    that is true in a condition, and every other key as [d] does. *)
Definition enriched {F : PyFloat} (d : list (str * value)) (msg : value) : Prop :=
  exists (m : list (str * value)) (w a : value),
    msg = VDict m
    /\ dict_get m k_weather = Some w
    /\ (w = VNone \/ exists reading, w = VDict reading /\ reading <> [])
    /\ dict_get m k_weather_analysis = Some a
    /\ truthy a = true
    /\ forall k, k <> k_weather -> k <> k_weather_analysis ->
                 dict_get m k = dict_get d k.

(** ** Collaborators and data used to run the model on examples *)

Definition no_transport : http_response :=
  HttpRaises (mk_exn OtherError (u "Cannot connect to host")).

(** Collaborators that answer every prompt through [reply] and every
    request to the weather endpoint with [http], with no endpoint
    configured. *)
Definition scripted (reply : prompt -> outcome str) (http : http_response)
  : env :=
  {| agent_reply := reply;
     http_reply := fun _ _ => http;
     credential_enter := Returned tt;
     getenv := fun _ => None |}.

(** The model names coordinates for the destination and then answers the
    assessment prompt with plain prose. *)
Definition prose_assessment (p : @prompt literal_float) : outcome str :=
  match p with
  | GeoPrompt _ => Returned (jq "{'latitude': 48.85, 'longitude': 2.35}")
  | _ => Returned (u "It looks mild.")
  end.

(** Open-Meteo answers 200 with a current reading of 18.0 degrees and a
    wind of 3.2 m/s. *)
Definition mild_reading : @http_response literal_float :=
  HttpStatus 200
    (Returned
       (VDict [(u "current",
                VDict [(u "temperature_2m", lit_float "18.0");
                       (u "wind_speed_10m", lit_float "3.2")])])).


(** A stand-in for the framework's run of the workflow that yields an empty
    report at once. *)
Definition idle_workflow : AzureAIConfig -> str -> @M literal_float str :=
  fun _ _ => ret [].

Definition sample_reply : str :=
  jq "Here it is: {'destination': 'Paris', 'duration': 5, 'budget': 2.5, 'tags': ['art', null]}".

Definition sample_mapping : list (str * @value literal_float) :=
  [(u "destination", VStr (u "Paris"));
   (u "duration", VInt 5);
   (u "budget", lit_float "2.5");
   (u "tags", VList [VStr (u "art"); VNone])].

Definition fenced_reply : str :=
  jq "{'a': '\u0060\u0060\u0060x\u0060\u0060\u0060'}".



(** A workflow that looks the weather up once and yields an empty report. *)
Definition lookup_workflow : AzureAIConfig -> str -> @M literal_float str :=
  fun _ _ =>
    bind (get_weather_info_by_coords (lit_float "48.85") (lit_float "2.35"))
         (fun _ => ret []).

Definition configured (reply : @prompt literal_float -> outcome str)
  (http : http_response) : env :=
  {| agent_reply := reply;
     http_reply := fun _ _ => http;
     credential_enter := Returned tt;
     getenv := fun _ => Some (u "https://example.services.ai.azure.com") |}.



(** * Properties *)


(** ** Strings *)

Lemma str_eqb_eq (a b : str) : str_eqb a b = true <-> a = b.
Proof.
  unfold str_eqb. destruct (list_eq_dec N.eq_dec a b); split; congruence.
Qed.

Lemma str_eqb_refl (a : str) : str_eqb a a = true.
Proof. now apply str_eqb_eq. Qed.

Section JsonUtilsFacts.
Context {F : PyFloat}.

(** ** The message of a decoding error is never empty *)

Lemma json_decode_error_str (msg doc : str) (pos : nat) :
  exn_str (json_decode_error msg doc pos) <> [].
Proof.
  unfold json_decode_error. cbn [exn_str].
  destruct msg; cbn; discriminate.
Qed.

Lemma json_loads_error_nonempty (s : str) (e : exn) :
  json_loads s = Raised e -> exn_str e <> [].
Proof.
  unfold json_loads.
  destruct (startswith s [65279%N]).
  - intros H; inversion H; subst. apply json_decode_error_str.
  - destruct (scan_once (decoder_fuel s) (skip_ws s)) as [v rest | m a].
    + destruct (skip_ws rest); intros H; inversion H; subst.
      apply json_decode_error_str.
    + destruct (str_eqb m msg_depth) eqn:E; intros H; inversion H; subst.
      * apply str_eqb_eq in E. subst m. cbn. discriminate.
      * apply json_decode_error_str.
Qed.

(** ** [try_parse_json] and [safe_load_validated], case by case *)

Lemma try_parse_json_returned (raw : str) (v : value) :
  json_loads raw = Returned v ->
  try_parse_json raw = Returned (v, None).
Proof. unfold try_parse_json. now intros ->. Qed.

Lemma try_parse_json_raised (raw : str) (e : exn) :
  json_loads raw = Raised e ->
  try_parse_json raw = Returned (VNone, Some (exn_str e)).
Proof. unfold try_parse_json. now intros ->. Qed.

Lemma safe_load_parse_failure (raw : str) (required : list str) (e : exn) :
  json_loads (extract_json_text raw) = Raised e ->
  safe_load_validated raw required
  = Returned (VDict [], [s_parse_error ++ exn_str e]).
Proof.
  intros H. unfold safe_load_validated.
  rewrite (try_parse_json_raised _ _ H). cbn [obind].
  pose proof (json_loads_error_nonempty _ _ H) as Hne.
  destruct (exn_str e) as [|c s]; [congruence|]. reflexivity.
Qed.

Lemma safe_load_parse_success (raw : str) (required : list str) (v : value) :
  json_loads (extract_json_text raw) = Returned v ->
  safe_load_validated raw required
  = Returned (v, if fst (validate_keys v required) then []
                 else [s_missing_keys
                         ++ join s_comma_space (snd (validate_keys v required))]).
Proof.
  intros H. unfold safe_load_validated.
  rewrite (try_parse_json_returned _ _ H). cbn [obind opt_str_truth].
  destruct (validate_keys v required) as [ok missing]. cbn [fst snd].
  now destruct ok.
Qed.

Lemma validate_keys_not_dict (obj : value) (required : list str) :
  is_dict obj = false -> validate_keys obj required = (false, required).
Proof. destruct obj; cbn; congruence. Qed.


Lemma length_filter_forallb {A : Type} (p : A -> bool) (l : list A) :
  Nat.eqb (List.length (filter (fun x => negb (p x)) l)) 0 = forallb p l.
Proof.
  induction l as [|x l IH]; cbn; [reflexivity|].
  destruct (p x); cbn; [exact IH | reflexivity].
Qed.

(** C6. On a mapping, [validate_keys] answers true exactly when every
    required key is present, and its second component is the required keys
    that are absent, in the order of [required]; on anything that is not a
    mapping it answers false with every required key reported missing. *)
Theorem validate_keys_reports_missing_subset (required : list str) :
  (forall d : list (str * value),
      validate_keys (VDict d) required
      = (forallb (dict_mem d) required,
         filter (fun k => negb (dict_mem d k)) required)
      /\ (fst (validate_keys (VDict d) required) = true
          <-> forall k, In k required -> dict_mem d k = true)
      /\ (forall k, In k (snd (validate_keys (VDict d) required))
                    <-> In k required /\ dict_mem d k = false))
  /\ (forall obj : value,
         is_dict obj = false -> validate_keys obj required = (false, required)).
Proof.
  split.
  - intros d. cbn [validate_keys]. rewrite length_filter_forallb.
    split; [reflexivity|]. cbn [fst snd]. split.
    + rewrite forallb_forall. reflexivity.
    + intros k. rewrite filter_In. rewrite negb_true_iff. reflexivity.
  - intros obj. apply validate_keys_not_dict.
Qed.

(** C10. When the extracted text parses to a JSON value that is not a
    mapping, [safe_load_validated] returns that value itself as its data,
    with exactly one warning, which lists every required key as missing. *)
Theorem safe_load_returns_non_mapping_value
  (raw : str) (required_keys : list str) (v : value) :
  json_loads (extract_json_text raw) = Returned v ->
  is_dict v = false ->
  safe_load_validated raw required_keys
  = Returned (v, [s_missing_keys ++ join s_comma_space required_keys]).
Proof.
  intros Hparse Hnd.
  rewrite (safe_load_parse_success _ _ _ Hparse).
  now rewrite (validate_keys_not_dict _ _ Hnd).
Qed.

(** C7. [safe_load_validated] returns a pair for every input and never
    raises: when [json.loads] raises on the extracted text, the result is the
    empty mapping and one warning that carries the error message. *)
Theorem safe_load_validated_never_raises (raw : str) (required_keys : list str) :
  exists (data : value) (warnings : list str),
    safe_load_validated raw required_keys = Returned (data, warnings)
    /\ (forall e, json_loads (extract_json_text raw) = Raised e ->
                  data = VDict []
                  /\ warnings = [s_parse_error ++ exn_str e]).
Proof.
  destruct (json_loads (extract_json_text raw)) as [v | e] eqn:H.
  - eexists _, _. split.
    + apply (safe_load_parse_success _ _ _ H).
    + intros e' He. discriminate.
  - exists (VDict []), [s_parse_error ++ exn_str e]. split.
    + apply (safe_load_parse_failure _ _ _ H).
    + intros e' He. inversion He; subst. split; reflexivity.
Qed.

End JsonUtilsFacts.

Lemma safe_load_returns_non_mapping_value_witness :
  json_loads (extract_json_text (u "[48.85, 2.35]"))
  = Returned (VList [lit_float "48.85"; lit_float "2.35"])
  /\ safe_load_validated (u "[48.85, 2.35]") [k_latitude; k_longitude]
     = Returned (VList [lit_float "48.85"; lit_float "2.35"],
                 [u "Missing keys: latitude, longitude"]).
Proof.
  split; [reflexivity|].
  apply (@safe_load_returns_non_mapping_value literal_float
           (u "[48.85, 2.35]") [k_latitude; k_longitude]
           (VList [lit_float "48.85"; lit_float "2.35"]));
    reflexivity.
Defined.

(** ** The decoder's fuel *)

Section DecoderFuel.
Local Open Scope N_scope.
Context {F : PyFloat}.

Lemma skip_ws_length (s : str) : (List.length (skip_ws s) <= List.length s)%nat.
Proof.
  induction s as [|c s IH]; cbn; [lia|]. destruct (is_ws c); cbn; lia.
Qed.

(** [scanstring] consumes the closing quote at least, and fails with a
    message of its own. *)
Lemma scanstring_consumes (n : nat) :
  forall s, (List.length s <= n)%nat ->
    match scanstring s with
    | Parsed _ rest => (List.length rest < List.length s)%nat
    | Failed m _ => m <> msg_depth
    end.
Proof.
  induction n as [|n IH]; intros s Hlen.
  { destruct s; [cbn; discriminate | cbn in Hlen; lia]. }
  assert (Hpush : forall c s', (List.length s' < List.length s)%nat ->
            (List.length s' <= n)%nat ->
            match push c (scanstring s') with
            | Parsed _ rest => (List.length rest < List.length s)%nat
            | Failed m _ => m <> msg_depth
            end).
  { intros c s' Hlt Hle. specialize (IH s' Hle).
    destruct (scanstring s') as [x rest | m a]; cbn; [lia | exact IH]. }
  destruct s as [|c s1]; [cbn; discriminate|]. cbn [scanstring].
  cbn [List.length] in *.
  destruct (c =? 34); [cbn; lia|].
  destruct (c =? 92).
  - destruct s1 as [|e s2]; [discriminate|]. cbn [List.length] in *.
    destruct (e =? 117).
    + destruct s2 as [|a [|b [|c' [|d s3]]]]; try discriminate.
      cbn [List.length] in *.
      destruct (hex4 a b c' d) as [cp|]; [|discriminate].
      destruct (is_high_surrogate cp); [|apply Hpush; lia].
      destruct s3 as [|b1 [|b2 [|a2 [|b2' [|c2 [|d2 s4]]]]]];
        try (apply Hpush; cbn [List.length]; lia).
      cbn [List.length] in *.
      destruct ((b1 =? 92) && (b2 =? 117));
        [|apply Hpush; cbn [List.length]; lia].
      destruct (hex4 a2 b2' c2 d2) as [cp2|]; [|discriminate].
      destruct (is_low_surrogate cp2); apply Hpush; cbn [List.length]; lia.
    + destruct (unescape e); [apply Hpush; lia | discriminate].
  - destruct (c <=? 31); [discriminate | apply Hpush; lia].
Qed.

Lemma span_digits_length (s ds r : str) :
  span_digits s = (ds, r) -> (List.length r <= List.length s)%nat.
Proof.
  revert ds r. induction s as [|c s IH]; intros ds r; cbn.
  - intros H. inversion H; subst. cbn. lia.
  - destruct (is_digit c).
    + destruct (span_digits s) as [ds' r'] eqn:E. intros H. inversion H; subst.
      specialize (IH ds' r eq_refl). lia.
    + intros H. inversion H; subst. cbn. lia.
Qed.

Lemma match_integer_length (s i r : str) :
  match_integer s = Some (i, r) -> (List.length r < List.length s)%nat.
Proof.
  unfold match_integer.
  assert (Hgen : forall sign s1,
           match s1 with
           | [] => None
           | c :: t =>
               if c =? 48 then Some (sign ++ [48], t)
               else if is_digit c
                    then let (ds, r0) := span_digits t in Some (sign ++ c :: ds, r0)
                    else None
           end = Some (i, r) -> (List.length r < List.length s1)%nat).
  { intros sign [|c t]; [discriminate|]. cbn [List.length].
    destruct (c =? 48); [intros E; inversion E; subst; lia|].
    destruct (is_digit c); [|discriminate].
    destruct (span_digits t) as [ds r0] eqn:Es. intros E. inversion E; subst.
    apply span_digits_length in Es. lia. }
  destruct s as [|c t]; [discriminate|]. cbn [List.length].
  destruct (c =? 45); intros H.
  - apply (Hgen [45] t) in H. lia.
  - apply (Hgen [] (c :: t)) in H. cbn [List.length] in H. lia.
Qed.

Lemma match_frac_length (s f r : str) :
  match_frac s = (f, r) -> (List.length r <= List.length s)%nat.
Proof.
  unfold match_frac. destruct s as [|c t]; [intros H; inversion H; subst; lia|].
  destruct (c =? 46).
  - destruct (span_digits t) as [[|d ds] r0] eqn:E; intros H;
      inversion H; subst; [lia|].
    apply span_digits_length in E. cbn [List.length]. lia.
  - intros H. inversion H; subst. lia.
Qed.

Lemma match_exp_length (s x r : str) :
  match_exp s = (x, r) -> (List.length r <= List.length s)%nat.
Proof.
  unfold match_exp. destruct s as [|e t]; [intros H; inversion H; subst; lia|].
  destruct ((e =? 101) || (e =? 69)); [|intros H; inversion H; subst; lia].
  assert (Hgen : forall sg t1, (List.length t1 <= List.length t)%nat ->
            (let (ds, r0) := span_digits t1 in
             match ds with
             | [] => ([], e :: t)
             | _ :: _ => (e :: sg ++ ds, r0)
             end) = (x, r) -> (List.length r <= List.length (e :: t))%nat).
  { intros sg t1 Hle. destruct (span_digits t1) as [[|d ds] r0] eqn:E;
      intros E'; inversion E'; subst; [lia|].
    apply span_digits_length in E. cbn [List.length]. lia. }
  destruct t as [|c t']; [apply (Hgen [] []); lia|].
  destruct ((c =? 43) || (c =? 45)).
  - apply (Hgen [c] t'). cbn [List.length]. lia.
  - apply (Hgen [] (c :: t')). lia.
Qed.

Lemma startswith_length (s p : str) :
  startswith s p = true -> (List.length p <= List.length s)%nat.
Proof.
  revert s. induction p as [|a p IH]; intros s; cbn; [lia|].
  destruct s as [|b s]; [discriminate|]. cbn [List.length].
  destruct (a =? b); [|discriminate]. cbn. intros H. apply IH in H. lia.
Qed.

Lemma scan_scalar_consumes (s : str) :
  match scan_scalar s with
  | Parsed _ rest => (List.length rest < List.length s)%nat
  | Failed m _ => m <> msg_depth
  end.
Proof.
  unfold scan_scalar.
  assert (Hskip : forall p n, startswith s p = true -> List.length p = n ->
                              (0 < n)%nat ->
                              (List.length (skipn n s) < List.length s)%nat).
  { intros p n Hp Hn Hpos. apply startswith_length in Hp.
    rewrite length_skipn. lia. }
  destruct (startswith s s_null) eqn:E1; [apply (Hskip s_null 4%nat E1 eq_refl); lia|].
  destruct (startswith s s_true) eqn:E2; [apply (Hskip s_true 4%nat E2 eq_refl); lia|].
  destruct (startswith s s_false) eqn:E3; [apply (Hskip s_false 5%nat E3 eq_refl); lia|].
  unfold match_number.
  destruct (match_integer s) as [[i r1]|] eqn:Ei.
  - destruct (match_frac r1) as [f r2] eqn:Ef.
    destruct (match_exp r2) as [x r3] eqn:Ex.
    apply match_integer_length in Ei. apply match_frac_length in Ef.
    apply match_exp_length in Ex.
    destruct f, x; lia.
  - destruct (startswith s s_NaN) eqn:E5; [apply (Hskip s_NaN 3%nat E5 eq_refl); lia|].
    destruct (startswith s s_Infinity) eqn:E6; [apply (Hskip s_Infinity 8%nat E6 eq_refl); lia|].
    destruct (startswith s s_neg_Infinity) eqn:E7; [apply (Hskip s_neg_Infinity 9%nat E7 eq_refl); lia|].
    discriminate.
Qed.

(** The fuel [json_loads] supplies is never used up: with fuel above twice
    the length of the text, the decoder consumes text when it succeeds and
    fails only with a decoding error of its own. *)
Lemma decoder_fuel_suffices (fuel : nat) :
  (forall s, (2 * List.length s + 1 <= fuel)%nat ->
     match scan_once fuel s with
     | Parsed _ rest => (List.length rest < List.length s)%nat
     | Failed m _ => m <> msg_depth
     end)
  /\ (forall s, (2 * List.length s + 2 <= fuel)%nat ->
        match array_items fuel s with
        | Parsed _ rest => (List.length rest < List.length s)%nat
        | Failed m _ => m <> msg_depth
        end)
  /\ (forall s, (2 * List.length s + 2 <= fuel)%nat ->
        match object_items fuel s with
        | Parsed _ rest => (List.length rest < List.length s)%nat
        | Failed m _ => m <> msg_depth
        end).
Proof.
  induction fuel as [|n (IHv & IHa & IHo)].
  { repeat split; intros s H; lia. }
  split; [|split]; intros s Hf.
  - cbn [scan_once]. destruct s as [|c r]; [discriminate|].
    cbn [List.length] in *.
    destruct (c =? 34).
    { pose proof (scanstring_consumes (List.length r) r (le_n _)) as H.
      destruct (scanstring r); [lia | exact H]. }
    destruct (c =? 123).
    { pose proof (skip_ws_length r) as Hw.
      destruct (skip_ws r) as [|c1 r1]; [discriminate|].
      cbn [List.length] in Hw.
      destruct (c1 =? 125); [lia|].
      specialize (IHo (c1 :: r1)). cbn [List.length] in IHo.
      destruct (object_items n (c1 :: r1)); [|apply IHo; lia].
      assert (H : (List.length rest < S (List.length r1))%nat) by (apply IHo; lia).
      lia. }
    destruct (c =? 91).
    { pose proof (skip_ws_length r) as Hw.
      destruct (skip_ws r) as [|c1 r1]; [discriminate|].
      cbn [List.length] in Hw.
      destruct (c1 =? 93); [lia|].
      specialize (IHa (c1 :: r1)). cbn [List.length] in IHa.
      destruct (array_items n (c1 :: r1)); [|apply IHa; lia].
      assert (H : (List.length rest < S (List.length r1))%nat) by (apply IHa; lia).
      lia. }
    pose proof (scan_scalar_consumes (c :: r)) as H.
    destruct (scan_scalar (c :: r)); [cbn [List.length] in H; lia | exact H].
  - cbn [array_items].
    specialize (IHv s).
    destruct (scan_once n s) as [v r | m a]; [|apply IHv; lia].
    assert (Hr : (List.length r < List.length s)%nat) by (apply IHv; lia).
    pose proof (skip_ws_length r) as Hw.
    destruct (skip_ws r) as [|c r1]; [discriminate|]. cbn [List.length] in Hw.
    destruct (c =? 93); [lia|].
    destruct (c =? 44); [|discriminate].
    pose proof (skip_ws_length r1) as Hw1.
    specialize (IHa (skip_ws r1)).
    destruct (array_items n (skip_ws r1)); [|apply IHa; lia].
    assert (H : (List.length rest < List.length (skip_ws r1))%nat) by (apply IHa; lia).
    lia.
  - cbn [object_items]. destruct s as [|q s1]; [discriminate|].
    cbn [List.length] in *.
    destruct (q =? 34); [|discriminate].
    pose proof (scanstring_consumes (List.length s1) s1 (le_n _)) as Hk.
    destruct (scanstring s1) as [key r | m a]; [|exact Hk].
    pose proof (skip_ws_length r) as Hw.
    destruct (skip_ws r) as [|c r1]; [discriminate|]. cbn [List.length] in Hw.
    destruct (c =? 58); [|discriminate].
    pose proof (skip_ws_length r1) as Hw1.
    specialize (IHv (skip_ws r1)).
    destruct (scan_once n (skip_ws r1)) as [v r2 | m a]; [|apply IHv; lia].
    assert (Hr2 : (List.length r2 < List.length (skip_ws r1))%nat) by (apply IHv; lia).
    pose proof (skip_ws_length r2) as Hw2.
    destruct (skip_ws r2) as [|c2 r3]; [discriminate|]. cbn [List.length] in Hw2.
    destruct (c2 =? 125); [lia|].
    destruct (c2 =? 44); [|discriminate].
    pose proof (skip_ws_length r3) as Hw3.
    specialize (IHo (skip_ws r3)).
    destruct (object_items n (skip_ws r3)); [|apply IHo; lia].
    assert (H : (List.length rest < List.length (skip_ws r3))%nat) by (apply IHo; lia).
    lia.
Qed.

(** [json_loads] never answers with [RecursionError]. *)
Lemma json_loads_never_exhausts (s : str) (e : exn) :
  json_loads s = Raised e -> exn_kind e = JSONDecodeError.
Proof.
  unfold json_loads.
  destruct (startswith s [65279]); [intros H; now inversion H|].
  destruct (decoder_fuel_suffices (decoder_fuel s)) as (Hv & _ & _).
  specialize (Hv (skip_ws s)). pose proof (skip_ws_length s) as Hw.
  destruct (scan_once (decoder_fuel s) (skip_ws s)) as [v rest | m a].
  - destruct (skip_ws rest); intros H; inversion H; subst. reflexivity.
  - assert (Hm : m <> msg_depth) by (apply Hv; unfold decoder_fuel; lia).
    destruct (str_eqb m msg_depth) eqn:E.
    + apply str_eqb_eq in E. contradiction.
    + intros H. inversion H; subst. reflexivity.
Qed.

End DecoderFuel.

(** ** Trimming *)

Lemma lstrip_head_ok (s : str) : head_ok (lstrip s).
Proof.
  induction s as [|c s IH]; cbn; [exact I|].
  destruct (isspace c) eqn:E; [exact IH | exact E].
Qed.

Lemma lstrip_fixed (s : str) : head_ok s -> lstrip s = s.
Proof. destruct s as [|c s]; cbn; [reflexivity|]. now intros ->. Qed.

Lemma lstrip_suffix (s : str) : exists ws, s = ws ++ lstrip s.
Proof.
  induction s as [|c s [ws IH]]; cbn.
  - now exists [].
  - destruct (isspace c).
    + exists (c :: ws). cbn. now f_equal.
    + now exists [].
Qed.

Lemma rstrip_prefix (s : str) : exists ws, s = rstrip s ++ ws.
Proof.
  unfold rstrip. destruct (lstrip_suffix (rev s)) as [ws H].
  exists (rev ws). rewrite <- rev_app_distr, <- H. now rewrite rev_involutive.
Qed.

Lemma rstrip_head_ok (s : str) : head_ok s -> head_ok (rstrip s).
Proof.
  intros H. destruct (rstrip_prefix s) as [ws E].
  destruct (rstrip s) as [|c r]; [exact I|].
  rewrite E in H. exact H.
Qed.

Lemma rstrip_fixed (s : str) : head_ok (rev s) -> rstrip s = s.
Proof.
  intros H. unfold rstrip. rewrite (lstrip_fixed _ H). apply rev_involutive.
Qed.

Lemma rstrip_last_ok (s : str) : head_ok (rev (rstrip s)).
Proof. unfold rstrip. rewrite rev_involutive. apply lstrip_head_ok. Qed.

Lemma strip_head_ok (s : str) : head_ok (strip s).
Proof. apply rstrip_head_ok, lstrip_head_ok. Qed.

Lemma strip_idempotent (s : str) : strip (strip s) = strip s.
Proof.
  unfold strip at 1.
  rewrite (lstrip_fixed _ (strip_head_ok s)).
  apply rstrip_fixed. apply rstrip_last_ok.
Qed.

Lemma strip_fixed (s : str) : head_ok s -> head_ok (rev s) -> strip s = s.
Proof.
  intros H1 H2. unfold strip. rewrite (lstrip_fixed _ H1).
  now apply rstrip_fixed.
Qed.

Lemma In_lstrip (c : N) (s : str) : In c (lstrip s) -> In c s.
Proof.
  destruct (lstrip_suffix s) as [ws E]. intros H. rewrite E.
  apply in_or_app. now right.
Qed.

Lemma In_rstrip (c : N) (s : str) : In c (rstrip s) -> In c s.
Proof.
  destruct (rstrip_prefix s) as [ws E]. intros H. rewrite E.
  apply in_or_app. now left.
Qed.

Lemma In_strip (c : N) (s : str) : In c (strip s) -> In c s.
Proof. intros H. now apply In_lstrip, In_rstrip. Qed.

(** ** Searching for a character *)

Lemma find_absent (s : str) (c : N) : ~ In c s -> find s c = (-1)%Z.
Proof.
  induction s as [|b s IH]; cbn; [reflexivity|]. intros H.
  destruct (N.eqb_spec b c) as [->|_]; [exfalso; apply H; now left|].
  rewrite IH; [reflexivity|]. intros Hin. apply H. now right.
Qed.

Lemma startswith_char_In (s : str) (c : N) :
  startswith s [c] = true -> In c s.
Proof.
  destruct s as [|b s]; cbn; [discriminate|].
  destruct (N.eqb_spec c b) as [->|_]; [now left | discriminate].
Qed.

(** ** Text without braces *)

Lemma extract_without_fence_or_braces (raw : str) :
  fence_search (strip raw) = None ->
  ~ In lbrace raw ->
  extract_json_text raw = strip raw.
Proof.
  intros Hf Hl. unfold extract_json_text. rewrite Hf.
  assert (Hl' : ~ In lbrace (strip raw)) by (intros H; apply Hl; now apply In_strip).
  destruct (startswith (strip raw) [lbrace]) eqn:Es.
  - exfalso. apply Hl'. now apply startswith_char_In.
  - cbn [andb negb]. rewrite (find_absent _ _ Hl'). cbn.
    apply strip_idempotent.
Qed.

(** A text without a backtick has no fenced block. *)
Lemma fence_search_without_backtick (s : str) :
  ~ In 96%N s -> fence_search s = None.
Proof.
  induction s as [|c s IH]; intros H.
  - reflexivity.
  - cbn [fence_search]. unfold fence_match_here. cbn [startswith fence].
    destruct (N.eqb_spec 96 c) as [E|_].
    + exfalso. apply H. now left.
    + cbn [andb]. apply IH. intros Hin. apply H. now right.
Qed.

Lemma fence_search_strip_without_backtick (raw : str) :
  ~ In 96%N raw -> fence_search (strip raw) = None.
Proof.
  intros H. apply fence_search_without_backtick.
  intros Hin. apply H. now apply In_strip.
Qed.

Section DecoderShape.
Context {F : PyFloat}.

Lemma In_skip_ws (c : N) (s : str) : In c (skip_ws s) -> In c s.
Proof.
  induction s as [|b s IH]; cbn; [tauto|].
  destruct (is_ws b); [intros H; right; now apply IH | tauto].
Qed.

Lemma scan_scalar_not_dict (s : str) (v : value) (rest : str) :
  scan_scalar s = Parsed v rest -> is_dict v = false.
Proof.
  unfold scan_scalar, match_number.
  repeat match goal with
         | |- context [if ?b then _ else _] => destruct b
         | |- context [match match_integer ?x with _ => _ end] =>
             destruct (match_integer x) as [[? ?]|]
         | |- context [let (_, _) := ?p in _] => destruct p
         | |- context [match ?l with [] => _ | _ :: _ => _ end] => destruct l
         end;
    intros H; inversion H; reflexivity.
Qed.

(** A mapping can only be decoded from a text that opens with a brace. *)
Lemma scan_once_dict_opens_with_brace
  (fuel : nat) (s : str) (d : list (str * value)) (rest : str) :
  scan_once fuel s = Parsed (VDict d) rest -> exists r, s = lbrace :: r.
Proof.
  destruct fuel as [|n]; cbn [scan_once]; [discriminate|].
  destruct s as [|c r]; [discriminate|].
  destruct (N.eqb_spec c 34).
  { destruct (scanstring r); discriminate. }
  destruct (N.eqb_spec c 123) as [->|_].
  { intros _. now exists r. }
  destruct (N.eqb_spec c 91).
  { destruct (skip_ws r) as [|c1 r1]; [discriminate|].
    destruct (c1 =? 93)%N; [discriminate|].
    destruct (array_items n (c1 :: r1)); discriminate. }
  intros H. apply scan_scalar_not_dict in H. discriminate.
Qed.

Lemma json_loads_dict_has_brace (s : str) (d : list (str * value)) :
  json_loads s = Returned (VDict d) -> In lbrace s.
Proof.
  unfold json_loads. destruct (startswith s [65279%N]); [discriminate|].
  destruct (scan_once (decoder_fuel s) (skip_ws s)) as [v rest | m a] eqn:E.
  - destruct (skip_ws rest); [|discriminate].
    intros H. inversion H; subst.
    apply scan_once_dict_opens_with_brace in E. destruct E as [r E].
    apply In_skip_ws. rewrite E. now left.
  - destruct (str_eqb m msg_depth); discriminate.
Qed.

(** C5, as the code has it.  For a text in which the pattern finds no
    fenced block and which has no brace, [extract_json_text] returns the
    trimmed text; decoding it fails or gives a value that is not a mapping
    (a number, a string, a list, true, false or null); and
    [safe_load_validated] returns exactly one warning, with the empty
    mapping as data when decoding fails and the decoded value otherwise. *)
Theorem no_fence_no_brace_loads_with_one_warning
  (raw : str) (required_keys : list str) :
  fence_search (strip raw) = None ->
  ~ In lbrace raw ->
  ~ In rbrace raw ->
  extract_json_text raw = strip raw
  /\ (forall v, json_loads (extract_json_text raw) = Returned v ->
                is_dict v = false)
  /\ exists (data : value) (warning : str),
       safe_load_validated raw required_keys = Returned (data, [warning])
       /\ (forall e, json_loads (extract_json_text raw) = Raised e ->
                     data = VDict [] /\ warning = s_parse_error ++ exn_str e)
       /\ (forall v, json_loads (extract_json_text raw) = Returned v ->
                     data = v
                     /\ warning = s_missing_keys
                                    ++ join s_comma_space required_keys).
Proof.
  intros Hf Hl _.
  pose proof (extract_without_fence_or_braces raw Hf Hl) as Hx.
  assert (Hnd : forall v, json_loads (extract_json_text raw) = Returned v ->
                          is_dict v = false).
  { intros v Hv. destruct v; try reflexivity.
    exfalso. apply Hl. apply In_strip. rewrite <- Hx.
    now apply json_loads_dict_has_brace in Hv. }
  split; [exact Hx|]. split; [exact Hnd|].
  destruct (json_loads (extract_json_text raw)) as [v | e] eqn:H.
  - exists v, (s_missing_keys ++ join s_comma_space required_keys).
    split; [|split].
    + rewrite (safe_load_parse_success _ _ _ H).
      now rewrite (validate_keys_not_dict _ _ (Hnd v eq_refl)).
    + intros e He. discriminate.
    + intros v' Hv'. inversion Hv'; subst. now split.
  - exists (VDict []), (s_parse_error ++ exn_str e).
    split; [|split].
    + now apply safe_load_parse_failure.
    + intros e' He'. inversion He'; subst. now split.
    + intros v Hv. discriminate.
Qed.

End DecoderShape.

Lemma no_fence_no_brace_loads_with_one_warning_witness :
  extract_json_text (u "  no json here  ") = strip (u "  no json here  ")
  /\ (forall v : @value literal_float,
         json_loads (extract_json_text (u "  no json here  ")) = Returned v ->
         is_dict v = false)
  /\ exists (data : @value literal_float) (warning : str),
       safe_load_validated (u "  no json here  ") [k_destination]
       = Returned (data, [warning])
       /\ (forall e, json_loads (extract_json_text (u "  no json here  ")) = Raised e ->
                     data = VDict [] /\ warning = s_parse_error ++ exn_str e)
       /\ (forall v, json_loads (extract_json_text (u "  no json here  ")) = Returned v ->
                     data = v
                     /\ warning = s_missing_keys
                                    ++ join s_comma_space [k_destination]).
Proof.
  apply (@no_fence_no_brace_loads_with_one_warning literal_float
           (u "  no json here  ") [k_destination]).
  - reflexivity.
  - intros H. vm_compute in H. intuition discriminate.
  - intros H. vm_compute in H. intuition discriminate.
Defined.

(** C5 as stated fails: the text [42] has no fence and no brace, yet it
    decodes (to the number 42), and [safe_load_validated] returns that
    number, not an empty mapping. *)
Lemma bare_number_decodes_without_braces :
  fence_search (strip (u "42")) = None
  /\ ~ In lbrace (u "42")
  /\ ~ In rbrace (u "42")
  /\ @try_parse_json literal_float (extract_json_text (u "42"))
     = Returned (VInt 42, None)
  /\ @safe_load_validated literal_float (u "42") [k_destination]
     = Returned (VInt 42, [u "Missing keys: destination"]).
Proof.
  repeat split; try reflexivity;
    intros H; vm_compute in H; intuition discriminate.
Qed.

(** ** Collaborators used to run the stages on examples *)

(** ** Extraction stage *)

Section ExtractionFacts.
Context {F : PyFloat}.



End ExtractionFacts.



(** ** Enrichment stage *)

Section EnrichmentFacts.
Context {F : PyFloat} {P : PyFormat F}.


(** The weather lookup never raises: every failure inside it becomes
    [None]. *)
(** The weather lookup never raises: every failure inside it becomes
    [None]; a reading is a non-empty mapping; it sends no message. *)
Lemma get_weather_info_by_coords_returns
  (latitude longitude : value) (e : env) (s : session) :
  exists (w : value) (s1 : session) (t : list event),
    get_weather_info_by_coords latitude longitude e s
    = (Returned w, s1, WeatherLookup latitude longitude :: t)
    /\ (w = VNone \/ exists d, w = VDict d /\ d <> [])
    /\ forall msg, ~ In (SendMessage msg) t.
Proof.
  unfold get_weather_info_by_coords, bind, try_catch, emit, get_session,
    http_get, lift, ret.
  destruct s; destruct (http_reply e latitude longitude) as [x | status body];
    cbn;
    repeat match goal with
           | |- context [if ?b then _ else _] => destruct b; cbn
           | |- context [match ?o with Returned _ => _ | Raised _ => _ end] =>
               destruct o; cbn
           end;
    eexists _, _, _; (split; [reflexivity|]);
    (split;
     [ first [now left | right; eexists; split; [reflexivity | discriminate]]
     | intros msg H; cbn in H; intuition discriminate ]).
Qed.

Lemma dict_set_fresh (d : list (str * value)) (k : str) (v : value) :
  ~ In k (dict_keys d) -> dict_set d k v = d ++ [(k, v)].
Proof.
  induction d as [|[k' v'] d IH]; cbn; [reflexivity|]. intros H.
  destruct (str_eqb k' k) eqn:E.
  - apply str_eqb_eq in E. exfalso. apply H. now left.
  - f_equal. apply IH. intros Hin. apply H. now right.
Qed.

Lemma complete_fresh (d : list (str * value)) (w a : value) :
  ~ In k_weather (dict_keys d) ->
  ~ In k_weather_analysis (dict_keys d) ->
  complete (VDict d) w a
  = Returned (VDict (d ++ [(k_weather, w); (k_weather_analysis, a)])).
Proof.
  intros Hw Ha. unfold complete. rewrite (dict_set_fresh d _ _ Hw).
  rewrite dict_set_fresh.
  - now rewrite <- app_assoc.
  - unfold dict_keys. rewrite map_app. intros Hin. apply in_app_or in Hin.
    destruct Hin as [Hin | [Hin | []]]; [now apply Ha | discriminate Hin].
Qed.


Local Arguments py_get : simpl never.
Local Arguments safe_load_validated : simpl never.
Local Arguments get_weather_info_by_coords : simpl never.
Local Arguments complete : simpl never.
Local Arguments is_int_or_float : simpl never.
Local Arguments truthy : simpl never.



Lemma sends_only_lift {A : Type} (Q : value -> Prop) (o : outcome A) :
  sends_only Q (lift o).
Proof. intros e s r s1 t msg H Hin. inversion H; subst. destruct Hin. Qed.

Lemma sends_only_ret {A : Type} (Q : value -> Prop) (a : A) :
  sends_only Q (ret a).
Proof. intros e s r s1 t msg H Hin. inversion H; subst. destruct Hin. Qed.

Lemma sends_only_agent_run (Q : value -> Prop) (p : prompt) :
  sends_only Q (agent_run p).
Proof.
  intros e s r s1 t msg H Hin. inversion H; subst.
  destruct Hin as [Hin | []]. discriminate.
Qed.

Lemma sends_only_send (Q : value -> Prop) (msg : value) :
  Q msg -> sends_only Q (send_message msg).
Proof.
  intros HQ e s r s1 t msg' H Hin. inversion H; subst.
  destruct Hin as [Hin | []]. now inversion Hin; subst.
Qed.

Lemma sends_only_bind {A B : Type} (Q : value -> Prop)
  (m : M A) (k : A -> M B) :
  sends_only Q m -> (forall a, sends_only Q (k a)) -> sends_only Q (bind m k).
Proof.
  intros Hm Hk e s r s1 t msg H Hin. unfold bind in H.
  destruct (m e s) as [[o s'] t1] eqn:Em. destruct o as [a | x].
  - destruct (k a e s') as [[r2 s2] t2] eqn:Ek. inversion H; subst.
    apply in_app_or in Hin. destruct Hin as [Hin | Hin].
    + exact (Hm _ _ _ _ _ _ Em Hin).
    + exact (Hk a _ _ _ _ _ _ Ek Hin).
  - inversion H; subst. exact (Hm _ _ _ _ _ _ Em Hin).
Qed.

Lemma sends_only_bind_lift {A B : Type} (Q : value -> Prop)
  (o : outcome A) (k : A -> M B) :
  (forall a, o = Returned a -> sends_only Q (k a)) ->
  sends_only Q (bind (lift o) k).
Proof.
  intros Hk e s r s1 t msg H Hin. unfold bind, lift in H.
  destruct o as [a | x].
  - destruct (k a e s) as [[r2 s2] t2] eqn:Ek. inversion H; subst.
    exact (Hk a eq_refl _ _ _ _ _ _ Ek Hin).
  - inversion H; subst. destruct Hin.
Qed.

Lemma sends_only_weather (Q : value -> Prop) (latitude longitude : value) :
  sends_only Q (get_weather_info_by_coords latitude longitude).
Proof.
  intros e s r s1 t msg H Hin.
  destruct (get_weather_info_by_coords_returns latitude longitude e s)
    as (w & s' & t' & E & _ & Hno).
  rewrite E in H. inversion H; subst.
  destruct Hin as [Hin | Hin]; [discriminate | now apply Hno in Hin].
Qed.

(** C9. For a travel record without the keys [weather] and
    [weather_analysis], every message the enrichment stage sends is that
    record, entry by entry and in the same order, followed by a [weather]
    entry and a [weather_analysis] entry: nothing is removed or changed. *)
Theorem enrichment_only_appends
  (e : env) (s s1 : session) (d : list (str * value))
  (r : outcome unit) (t : list event) (msg : value) :
  ~ In k_weather (dict_keys d) ->
  ~ In k_weather_analysis (dict_keys d) ->
  handle_travel_info (VDict d) e s = (r, s1, t) ->
  In (SendMessage msg) t ->
  exists w a : value,
    msg = VDict (d ++ [(k_weather, w); (k_weather_analysis, a)]).
Proof.
  intros Hw Ha. revert e s r s1 t msg.
  change (sends_only
            (fun msg => exists w a : value,
                 msg = VDict (d ++ [(k_weather, w); (k_weather_analysis, a)]))
            (handle_travel_info (VDict d))).
  unfold handle_travel_info.
  apply sends_only_bind; [apply sends_only_lift | intros destination].
  apply sends_only_bind; [apply sends_only_agent_run | intros geo_raw].
  apply sends_only_bind; [apply sends_only_lift | intros [geo_data geo_warnings]].
  apply sends_only_bind; [apply sends_only_lift | intros lat].
  apply sends_only_bind; [apply sends_only_lift | intros lon].
  apply sends_only_bind.
  { match goal with |- context [if ?b then _ else _] => destruct b end;
      [apply sends_only_weather | apply sends_only_ret]. }
  intros weather_data.
  destruct (Json.truthy weather_data).
  - apply sends_only_bind; [apply sends_only_lift | intros temperature].
    apply sends_only_bind; [apply sends_only_lift | intros wind_speed].
    apply sends_only_bind; [apply sends_only_lift | intros wlat].
    apply sends_only_bind; [apply sends_only_lift | intros wlon].
    apply sends_only_bind; [apply sends_only_agent_run | intros analysis_raw].
    apply sends_only_bind; [apply sends_only_lift | intros [weather_analysis ws]].
    apply sends_only_bind_lift. intros complete_info Hc.
    apply sends_only_send. rewrite (complete_fresh _ _ _ Hw Ha) in Hc.
    inversion Hc; subst. eauto.
  - apply sends_only_bind_lift. intros complete_info Hc.
    apply sends_only_send. rewrite (complete_fresh _ _ _ Hw Ha) in Hc.
    inversion Hc; subst. eauto.
Qed.

End EnrichmentFacts.

Section EnrichmentTotality.
Context {F : PyFloat} {P : PyFormat F}.

Local Arguments safe_load_validated : simpl never.
Local Arguments get_weather_info_by_coords : simpl never.
Local Arguments is_int_or_float : simpl never.
Local Arguments truthy : simpl never.

Lemma sent_app (t1 t2 : list event) : sent (t1 ++ t2) = sent t1 ++ sent t2.
Proof. apply flat_map_app. Qed.



(** X2. The weather lookup answers [None] or a reading and never raises. *)
Theorem weather_lookup_never_raises
  (latitude longitude : value) (e : env) (s : session) :
  exists (w : value) (s1 : session) (t : list event),
    get_weather_info_by_coords latitude longitude e s
    = (Returned w, s1, WeatherLookup latitude longitude :: t)
    /\ (w = VNone \/ exists d, w = VDict d /\ d <> []).
Proof.
  destruct (get_weather_info_by_coords_returns latitude longitude e s)
    as (w & s1 & t & E & Hw & _).
  eauto 6.
Qed.

End EnrichmentTotality.

(** *** The enrichment stage on examples *)


(** The same stage when the endpoint cannot be reached: the lookup is made
    and returns [None]. *)
Example enrichment_unreachable_endpoint :
  handle_travel_info fallback_travel_info
    (scripted prose_assessment no_transport) NoSession
  = (Returned tt, OpenSession,
     [AgentRun (GeoPrompt (VStr (u "Paris")));
      WeatherLookup (lit_float "48.85") (lit_float "2.35");
      SessionCreated;
      HttpGet (lit_float "48.85") (lit_float "2.35");
      SendMessage
        (VDict
           [(k_destination, VStr (u "Paris"));
            (k_duration, VInt 7);
            (k_travel_type, VStr (u "vacation"));
            (k_weather, VNone);
            (k_weather_analysis, unavailable_analysis)])]).
Proof. reflexivity. Qed.

Lemma enrichment_only_appends_witness :
  exists w a : @value literal_float,
    VDict
      [(k_destination, VStr (u "Paris"));
       (k_duration, VInt 7);
       (k_travel_type, VStr (u "vacation"));
       (k_weather, VNone);
       (k_weather_analysis, unavailable_analysis)]
    = VDict ([(k_destination, VStr (u "Paris"));
              (k_duration, VInt 7);
              (k_travel_type, VStr (u "vacation"))]
               ++ [(k_weather, w); (k_weather_analysis, a)]).
Proof.
  refine (@enrichment_only_appends literal_float literal_format
            (scripted prose_assessment no_transport) NoSession OpenSession
            [(k_destination, VStr (u "Paris")); (k_duration, VInt 7);
             (k_travel_type, VStr (u "vacation"))]
            (Returned tt) _ _ _ _ _ _).
  - intros H. vm_compute in H. intuition discriminate.
  - intros H. vm_compute in H. intuition discriminate.
  - reflexivity.
  - do 4 right. left. reflexivity.
Defined.

(** C3 does not hold of the code, in two ways.  A geocoding reply that is a
    JSON list has no latitude and no longitude, and the stage raises
    [AttributeError] instead of sending the fallback; a reply whose
    coordinates are the JSON booleans is accepted, and the weather lookup is
    called with them. *)
Theorem enrichment_geocoding_defects :
  (exists x,
      exn_kind x = AttributeError
      /\ handle_travel_info fallback_travel_info
           (scripted (fun _ => Returned (u "[48.85, 2.35]")) no_transport)
           NoSession
         = (@Raised unit x, NoSession, [AgentRun (GeoPrompt (VStr (u "Paris")))]))
  /\ handle_travel_info fallback_travel_info
       (scripted (fun _ => Returned (jq "{'latitude': true, 'longitude': false}"))
          no_transport)
       NoSession
     = (Returned tt, OpenSession,
        [AgentRun (GeoPrompt (VStr (u "Paris")));
         WeatherLookup (@VBool literal_float true) (VBool false);
         SessionCreated;
         HttpGet (VBool true) (VBool false);
         SendMessage
           (VDict
              [(k_destination, VStr (u "Paris"));
               (k_duration, VInt 7);
               (k_travel_type, VStr (u "vacation"));
               (k_weather, VNone);
               (k_weather_analysis, unavailable_analysis)])]).
Proof.
  split.
  - eexists. split; [|reflexivity]. reflexivity.
  - reflexivity.
Qed.



(** ** The entry point *)

Section EntryPointFacts.
Context {F : PyFloat}.

Variable run_workflow : AzureAIConfig -> str -> M str.

Local Arguments close : simpl never.

Lemma closes_app (t1 t2 : list event) : closes (t1 ++ t2) = closes t1 + closes t2.
Proof. unfold closes. now rewrite filter_app, length_app. Qed.

Lemma validate_config_endpoint (getenv : str -> option str) :
  validate_config (new_config getenv) = opt_str_truth (getenv s_endpoint_var).
Proof.
  unfold validate_config, new_config. cbn.
  now destruct (opt_str_truth (getenv s_endpoint_var)).
Qed.

(** [close] is one call, whatever the session is. *)
Lemma close_once (e : env) (s : session) :
  exists s1 t, close e s = (Returned tt, s1, t) /\ closes t = 1.
Proof. destruct s; eexists _, _; split; reflexivity. Qed.

(** C2, as the code has it.  When no endpoint is configured (the variable is
    unset or empty), [run_multi_agent_workflow] raises [RuntimeError] before
    anything else happens: no stage runs, the weather service is not
    created, and [close] is not called.  When an endpoint is configured and
    the credential context is entered, [close] is called exactly once,
    whether the workflow returns or raises, provided the workflow does not
    call it itself. *)
Theorem entry_point_closes_weather_service (user_input : str) (e : env) (s : session) :
  (opt_str_truth (getenv e s_endpoint_var) = false ->
   exists x,
     exn_kind x = RuntimeError
     /\ run_multi_agent_workflow run_workflow user_input e s = (Raised x, s, []))
  /\ (opt_str_truth (getenv e s_endpoint_var) = true ->
      credential_enter e = Returned tt ->
      (forall c r s1 t,
          run_workflow c user_input e NoSession = (r, s1, t) -> closes t = 0) ->
      forall r s1 t,
        run_multi_agent_workflow run_workflow user_input e s = (r, s1, t) ->
        closes t = 1
        /\ exists s0 t0,
             run_workflow (new_config (getenv e)) user_input e NoSession
             = (r, s0, t0)).
Proof.
  split.
  - intros Hv. eexists. split; [|].
    2:{ unfold run_multi_agent_workflow, bind. cbn.
        rewrite validate_config_endpoint, Hv. cbn. reflexivity. }
    reflexivity.
  - intros Hv Hc Hw r s1 t H.
    unfold run_multi_agent_workflow, bind in H. cbn in H.
    rewrite validate_config_endpoint, Hv in H. cbn in H.
    unfold with_credential, bind, emit, try_finally in H. rewrite Hc in H.
    cbn in H.
    destruct (run_workflow (new_config (getenv e)) user_input e NoSession)
      as [[r0 s0] t0] eqn:Er.
    pose proof (Hw _ _ _ _ Er) as H0.
    destruct (close_once e s0) as (s2 & t2 & Ec & H1).
    rewrite Ec in H. inversion H; subst.
    split.
    + change (closes ([WeatherServiceCreated; CredentialEntered]
                        ++ (t0 ++ t2) ++ [CredentialExited]) = 1).
      rewrite !closes_app, H0, H1. reflexivity.
    + eauto.
Qed.

End EntryPointFacts.

(** C2 as stated fails: with no endpoint configured the entry point raises
    with no event at all, so [close] is called zero times, not once. *)
Lemma missing_endpoint_never_closes :
  exists x,
    run_multi_agent_workflow idle_workflow (u "5 days in Paris")
      (scripted prose_assessment no_transport) NoSession
    = (Raised x, NoSession, [])
    /\ exn_kind x = RuntimeError
    /\ closes (@nil (@event literal_float)) = 0
    /\ closes (@nil (@event literal_float)) <> 1.
Proof.
  eexists. split; [reflexivity|]. split; [reflexivity|].
  split; [reflexivity | discriminate].
Qed.

Example configured_endpoint_closes_once :
  run_multi_agent_workflow idle_workflow (u "5 days in Paris")
    {| agent_reply := prose_assessment;
       http_reply := fun _ _ => no_transport;
       credential_enter := Returned tt;
       getenv := fun _ => Some (u "https://example.services.ai.azure.com") |}
    NoSession
  = (Returned [], NoSession,
     [WeatherServiceCreated; CredentialEntered; WeatherClose; CredentialExited]).
Proof. reflexivity. Qed.

(** ** Re-serialising a loaded mapping *)

Section ReloadFacts.
Local Open Scope N_scope.

Lemma digits_value_app (a b : str) (acc : N) :
  digits_value (a ++ b) acc = digits_value b (digits_value a acc).
Proof. revert acc. induction a as [|c a IH]; intros acc; cbn; [reflexivity | apply IH]. Qed.

Lemma is_digit_digit (n : N) : n < 10 -> is_digit (48 + n) = true.
Proof.
  intros H. unfold is_digit. apply andb_true_intro. split; apply N.leb_le; lia.
Qed.

Lemma numeral_small (n : N) : n < 10 -> numeral n [48 + n].
Proof.
  intros H. repeat split.
  - discriminate.
  - constructor; [now apply is_digit_digit | constructor].
  - intros acc. cbn [digits_value List.length]. change (N.of_nat 1) with 1.
    rewrite N.pow_1_r. lia.
  - f_equal. lia.
  - lia.
Qed.

Lemma numeral_snoc (n : N) (ds : str) :
  10 <= n -> numeral (n / 10) ds -> numeral n (ds ++ [48 + n mod 10]).
Proof.
  intros Hn (Hne & Hd & Hv & Hz).
  assert (Hm : n mod 10 < 10) by (apply N.mod_lt; discriminate).
  assert (Hq : n = 10 * (n / 10) + n mod 10) by (apply N.div_mod; discriminate).
  assert (Hpos : 0 < n / 10) by (apply N.div_str_pos; lia).
  repeat split.
  - destruct ds; discriminate.
  - apply Forall_app. split; [exact Hd|].
    constructor; [now apply is_digit_digit | constructor].
  - intros acc. rewrite digits_value_app, Hv. cbn [digits_value].
    rewrite length_app. cbn [List.length]. rewrite Nat.add_1_r, Nat2N.inj_succ, N.pow_succ_r'.
    generalize (10 ^ N.of_nat (List.length ds)). intros p.
    revert Hq. generalize (n / 10) (n mod 10). intros q r Hq. nia.
  - destruct ds as [|c ds]; [congruence|]. cbn. intros Hc. exfalso.
    destruct (Hz Hc) as [_ H0]. lia.
Qed.

Lemma dec_digits_numeral (f : nat) (n : N) (acc : str) :
  n < 2 ^ N.of_nat (S f) ->
  exists ds, dec_digits (S f) n acc = ds ++ acc /\ numeral n ds.
Proof.
  revert n acc. induction f as [|f IH]; intros n acc Hn.
  - cbn in Hn. cbn [dec_digits].
    assert (H10 : n < 10) by lia.
    apply N.ltb_lt in H10 as H10'. rewrite H10'.
    rewrite (N.mod_small n 10 H10).
    exists [48 + n]. split; [reflexivity | now apply numeral_small].
  - cbn [dec_digits]. destruct (N.ltb_spec n 10) as [H10 | H10].
    + rewrite (N.mod_small n 10 H10).
      exists [48 + n]. split; [reflexivity | now apply numeral_small].
    + assert (Hq : n / 10 < 2 ^ N.of_nat (S f)).
      { rewrite Nat2N.inj_succ, N.pow_succ_r' in Hn.
        apply N.Div0.div_lt_upper_bound. lia. }
      destruct (IH (n / 10) ((48 + n mod 10) :: acc) Hq) as (ds & E & Hnum).
      change (dec_digits (S f) (n / 10) ((48 + n mod 10) :: acc)
              = ds ++ (48 + n mod 10) :: acc) in E.
      exists (ds ++ [48 + n mod 10]). split.
      * rewrite <- app_assoc. exact E.
      * now apply numeral_snoc.
Qed.

Lemma dec_numeral (n : N) : numeral n (dec n).
Proof.
  unfold dec.
  destruct (dec_digits_numeral (N.to_nat (N.log2 n)) n []) as (ds & E & H).
  - rewrite Nat2N.inj_succ, N2Nat.id.
    destruct n as [|p]; [reflexivity|].
    apply N.log2_spec. reflexivity.
  - rewrite E, app_nil_r. exact H.
Qed.

(** ** Lexing what the encoder writes *)

Lemma span_digits_app (ds rest : str) :
  Forall (fun c => is_digit c = true) ds ->
  match rest with c :: _ => is_digit c = false | [] => True end ->
  span_digits (ds ++ rest) = (ds, rest).
Proof.
  intros Hd Hr. induction Hd as [|c ds Hc _ IH]; cbn [app span_digits].
  - destruct rest as [|c rest]; [reflexivity|]. cbn [span_digits]. now rewrite Hr.
  - now rewrite Hc, IH.
Qed.

Lemma delimited_not_digit (rest : str) :
  delimited rest ->
  match rest with c :: _ => is_digit c = false | [] => True end.
Proof.
  destruct rest as [|c rest]; [trivial|]. cbn.
  intros [-> | [-> | ->]]; reflexivity.
Qed.

Lemma match_frac_delimited (rest : str) :
  delimited rest -> match_frac rest = ([], rest).
Proof.
  destruct rest as [|c rest]; [reflexivity|]. cbn.
  intros [-> | [-> | ->]]; reflexivity.
Qed.

Lemma match_exp_delimited (rest : str) :
  delimited rest -> match_exp rest = ([], rest).
Proof.
  destruct rest as [|c rest]; [reflexivity|]. cbn.
  intros [-> | [-> | ->]]; reflexivity.
Qed.

Lemma is_digit_range (c : N) : is_digit c = true <-> 48 <= c <= 57.
Proof.
  unfold is_digit. rewrite andb_true_iff, !N.leb_le. reflexivity.
Qed.

Lemma match_integer_dec (n : N) (rest : str) :
  delimited rest -> match_integer (dec n ++ rest) = Some (dec n, rest).
Proof.
  intros Hr. destruct (dec_numeral n) as (Hne & Hd & _ & Hz).
  destruct (dec n) as [|c ds]; [congruence|].
  inversion Hd as [|? ? Hc Hds]; subst.
  apply is_digit_range in Hc as Hc'.
  unfold match_integer. cbn [app].
  destruct (N.eqb_spec c 45) as [E|_]; [lia|].
  destruct (N.eqb_spec c 48) as [E|_].
  - destruct (Hz E) as [E' _]. inversion E'; subst. reflexivity.
  - rewrite Hc.
    rewrite (span_digits_app ds rest Hds (delimited_not_digit rest Hr)).
    reflexivity.
Qed.

Lemma match_integer_dec_Z (z : Z) (rest : str) :
  delimited rest -> match_integer (dec_Z z ++ rest) = Some (dec_Z z, rest).
Proof.
  intros Hr. destruct z as [|p|p]; cbn [dec_Z].
  - now apply match_integer_dec.
  - now apply match_integer_dec.
  - pose proof (match_integer_dec (Npos p) rest Hr) as H.
    destruct (dec_numeral (Npos p)) as (Hne & Hd & _ & Hz).
    destruct (dec (Npos p)) as [|c ds]; [congruence|].
    inversion Hd as [|? ? Hc Hds]; subst.
    apply is_digit_range in Hc as Hc'.
    unfold match_integer in *. cbn [app] in *.
    rewrite N.eqb_refl.
    destruct (N.eqb_spec c 45) as [E|_]; [lia|].
    destruct (c =? 48); [|rewrite Hc in *];
      destruct (span_digits (ds ++ rest)); inversion H; subst; reflexivity.
Qed.

Lemma int_of_literal_dec_Z (z : Z) : int_of_literal (dec_Z z) = z.
Proof.
  assert (Hv : forall n, digits_value (dec n) 0 = n).
  { intros n. destruct (dec_numeral n) as (_ & _ & Hv & _). rewrite Hv. lia. }
  destruct z as [|p|p]; cbn [dec_Z].
  - reflexivity.
  - unfold int_of_literal.
    destruct (dec_numeral (Z.to_N (Z.pos p))) as (Hne & Hd & _ & _).
    specialize (Hv (Z.to_N (Z.pos p))).
    destruct (dec (Z.to_N (Z.pos p))) as [|c ds]; [congruence|].
    inversion Hd as [|? ? Hc _]; subst. apply is_digit_range in Hc.
    destruct (N.eqb_spec c 45) as [E|_]; [lia|]. rewrite Hv. reflexivity.
  - unfold int_of_literal. rewrite N.eqb_refl, Hv. reflexivity.
Qed.

Lemma dec_Z_head (z : Z) :
  exists c ds, dec_Z z = c :: ds /\ (c = 45 \/ 48 <= c <= 57).
Proof.
  destruct z as [|p|p]; cbn [dec_Z].
  - exists 48, []. split; [reflexivity | lia].
  - destruct (dec_numeral (Z.to_N (Z.pos p))) as (Hne & Hd & _ & _).
    destruct (dec (Z.to_N (Z.pos p))) as [|c ds]; [congruence|].
    inversion Hd as [|? ? Hc _]; subst. apply is_digit_range in Hc. eauto.
  - eauto.
Qed.

Lemma hex_val_hex_digit (n : N) : n < 16 -> hex_val (hex_digit n) = Some n.
Proof.
  intros H. unfold hex_digit, hex_val.
  destruct (N.ltb_spec n 10).
  - replace ((48 <=? 48 + n) && (48 + n <=? 57)) with true
      by (symmetry; apply andb_true_intro; split; apply N.leb_le; lia).
    f_equal. lia.
  - replace ((48 <=? 87 + n) && (87 + n <=? 57)) with false
      by (symmetry; apply andb_false_iff; right; apply N.leb_gt; lia).
    replace ((97 <=? 87 + n) && (87 + n <=? 102)) with true
      by (symmetry; apply andb_true_intro; split; apply N.leb_le; lia).
    f_equal. lia.
Qed.

Lemma hex4_u_escape (c : N) :
  c < 65536 ->
  hex4 (hex_digit ((c / 4096) mod 16)) (hex_digit ((c / 256) mod 16))
       (hex_digit ((c / 16) mod 16)) (hex_digit (c mod 16)) = Some c.
Proof.
  intros H. unfold hex4.
  rewrite !hex_val_hex_digit by (apply N.mod_lt; discriminate).
  f_equal.
  replace (c / 4096) with (c / 16 / 16 / 16)
    by (rewrite !N.Div0.div_div; reflexivity).
  replace (c / 256) with (c / 16 / 16)
    by (rewrite !N.Div0.div_div; reflexivity).
  pose proof (N.div_mod c 16) as H1.
  pose proof (N.div_mod (c / 16) 16) as H2.
  pose proof (N.div_mod (c / 16 / 16) 16) as H3.
  pose proof (N.div_mod (c / 16 / 16 / 16) 16) as H4.
  pose proof (N.mod_lt c 16) as L1.
  pose proof (N.mod_lt (c / 16) 16) as L2.
  pose proof (N.mod_lt (c / 16 / 16) 16) as L3.
  pose proof (N.mod_lt (c / 16 / 16 / 16) 16) as L4.
  revert H1 H2 H3 H4 L1 L2 L3 L4.
  generalize (c mod 16) ((c / 16) mod 16) ((c / 16 / 16) mod 16)
    ((c / 16 / 16 / 16) mod 16).
  generalize (c / 16 / 16 / 16 / 16).
  generalize (c / 16 / 16 / 16).
  generalize (c / 16 / 16).
  generalize (c / 16).
  intros. lia.
Qed.

Lemma scanstring_plain (c : N) (s : str) :
  c <> 34 -> c <> 92 -> 32 <= c ->
  scanstring (c :: s) = push c (scanstring s).
Proof.
  intros H1 H2 H3. cbn [scanstring].
  destruct (N.eqb_spec c 34); [contradiction|].
  destruct (N.eqb_spec c 92); [contradiction|].
  destruct (N.leb_spec c 31); [lia | reflexivity].
Qed.

Lemma scanstring_short_escape (e ch : N) (s : str) :
  unescape e = Some ch ->
  scanstring (92 :: e :: s) = push ch (scanstring s).
Proof.
  intros H. cbn [scanstring]. change (92 =? 34) with false.
  change (92 =? 92) with true. cbn match.
  destruct (N.eqb_spec e 117) as [->|_]; [discriminate H|].
  now rewrite H.
Qed.

(** A [\u] escape that is not the first half of a pair. *)
Lemma scanstring_u_single (a b c d cp : N) (s3 : str) :
  hex4 a b c d = Some cp ->
  (is_high_surrogate cp = true ->
   forall a2 b2 c2 d2 s4,
     s3 = 92 :: 117 :: a2 :: b2 :: c2 :: d2 :: s4 ->
     exists cp2, hex4 a2 b2 c2 d2 = Some cp2 /\ is_low_surrogate cp2 = false) ->
  scanstring (92 :: 117 :: a :: b :: c :: d :: s3) = push cp (scanstring s3).
Proof.
  intros H Hn. cbn [scanstring]. change (92 =? 34) with false.
  change (92 =? 92) with true. change (117 =? 117) with true. cbn match.
  rewrite H. destruct (is_high_surrogate cp); [|reflexivity].
  specialize (Hn eq_refl).
  destruct s3 as [|b1 [|b2 [|a2 [|b2' [|c2 [|d2 s4]]]]]]; try reflexivity.
  destruct (N.eqb_spec b1 92) as [->|_]; [|reflexivity].
  destruct (N.eqb_spec b2 117) as [->|_]; [|reflexivity].
  cbn [andb].
  destruct (Hn _ _ _ _ _ eq_refl) as (cp2 & -> & ->). reflexivity.
Qed.

(** A surrogate pair written as two [\u] escapes. *)
Lemma scanstring_u_pair (a b c d a2 b2 c2 d2 hi lo : N) (s4 : str) :
  hex4 a b c d = Some hi -> is_high_surrogate hi = true ->
  hex4 a2 b2 c2 d2 = Some lo -> is_low_surrogate lo = true ->
  scanstring (92 :: 117 :: a :: b :: c :: d :: 92 :: 117 :: a2 :: b2 :: c2 :: d2 :: s4)
  = push (join_surrogates hi lo) (scanstring s4).
Proof.
  intros H1 H2 H3 H4. cbn [scanstring]. change (92 =? 34) with false.
  change (92 =? 92) with true. change (117 =? 117) with true. cbn match.
  rewrite H1, H2. cbn [andb]. now rewrite H3, H4.
Qed.


Lemma surrogate_halves (c : N) :
  65536 <= c -> c < 1114112 ->
  let n := c - 65536 in
  let hi := 55296 + (n / 1024) mod 1024 in
  let lo := 56320 + n mod 1024 in
  is_high_surrogate hi = true /\ is_low_surrogate lo = true
  /\ join_surrogates hi lo = c /\ hi < 65536 /\ lo < 65536.
Proof.
  intros H1 H2. cbv zeta. remember (c - 65536) as n eqn:Hdef.
  assert (Hn : n < 1048576) by lia.
  assert (Hq : n / 1024 < 1024) by (apply N.Div0.div_lt_upper_bound; lia).
  assert (Hm : n mod 1024 < 1024) by (apply N.mod_lt; discriminate).
  rewrite (N.mod_small _ _ Hq).
  pose proof (N.div_mod n 1024) as Hd.
  unfold is_high_surrogate, is_low_surrogate, join_surrogates.
  revert Hd Hq Hm. generalize (n / 1024) (n mod 1024). intros q m Hd Hq Hm.
  repeat split.
  - apply andb_true_intro. split; apply N.leb_le; lia.
  - apply andb_true_intro. split; apply N.leb_le; lia.
  - lia.
  - lia.
  - lia.
Qed.

Lemma escape_char_shape (c : N) : c < 1114112 -> escape_shape c (escape_char c).
Proof.
  intros Hc. unfold escape_char.
  destruct (N.eqb_spec c 34) as [->|H34]; [now apply shape_short|].
  destruct (N.eqb_spec c 92) as [->|H92]; [now apply shape_short|].
  destruct (N.eqb_spec c 10) as [->|?]; [now apply shape_short|].
  destruct (N.eqb_spec c 13) as [->|?]; [now apply shape_short|].
  destruct (N.eqb_spec c 9) as [->|?]; [now apply shape_short|].
  destruct (N.eqb_spec c 12) as [->|?]; [now apply shape_short|].
  destruct (N.eqb_spec c 8) as [->|?]; [now apply shape_short|].
  destruct ((32 <=? c) && (c <=? 126)) eqn:E.
  - apply andb_true_iff in E. destruct E as [E _]. apply N.leb_le in E.
    now apply shape_plain.
  - destruct (N.ltb_spec c 65536) as [Hlt | Hge].
    + now apply shape_single.
    + destruct (surrogate_halves c Hge Hc) as (A & B & C & D & E').
      now apply (shape_pair c _ _ A B C D E').
Qed.

Lemma high_is_not_low (c : N) :
  is_high_surrogate c = true -> is_low_surrogate c = false.
Proof.
  unfold is_high_surrogate, is_low_surrogate. rewrite andb_true_iff, !N.leb_le.
  intros [_ H]. apply andb_false_iff. left. apply N.leb_gt. lia.
Qed.

(** After a lone high surrogate the encoder never writes the escape of a low
    surrogate. *)
Lemma no_low_escape_follows (s rest : str) :
  str_ok s ->
  match s with c' :: _ => is_low_surrogate c' = false | [] => True end ->
  forall a2 b2 c2 d2 s4,
    flat_map escape_char s ++ 34 :: rest
    = 92 :: 117 :: a2 :: b2 :: c2 :: d2 :: s4 ->
    exists cp2, hex4 a2 b2 c2 d2 = Some cp2 /\ is_low_surrogate cp2 = false.
Proof.
  intros Hok Hlow a2 b2 c2 d2 s4 E.
  destruct s as [|c' s']; [discriminate E|].
  destruct Hok as (Hc & _ & _). cbn [flat_map] in E.
  destruct (escape_char_shape c' Hc) as [e He Hne | H1 H2 H3 | Hlt | hi lo Hh Hl Hj Hhi Hlo].
  - inversion E; subst. congruence.
  - inversion E; subst. congruence.
  - unfold u_escape in E. inversion E; subst.
    exists c'. split; [now apply hex4_u_escape | exact Hlow].
  - unfold u_escape in E. inversion E; subst.
    exists hi. split; [now apply hex4_u_escape | now apply high_is_not_low].
Qed.

Lemma scanstring_encoded (s rest : str) :
  str_ok s ->
  scanstring (flat_map escape_char s ++ 34 :: rest) = Parsed s rest.
Proof.
  induction s as [|c s IH]; intros Hok.
  - reflexivity.
  - destruct Hok as (Hc & Hnext & Hok). cbn [flat_map]. rewrite <- app_assoc.
    destruct (escape_char_shape c Hc) as [e He Hne | H1 H2 H3 | Hlt | hi lo Hh Hl Hj Hhi Hlo].
    + cbn [app]. rewrite (scanstring_short_escape e c _ He), (IH Hok). reflexivity.
    + cbn [app]. rewrite (scanstring_plain c _ H1 H2 H3), (IH Hok). reflexivity.
    + unfold u_escape. cbn [app].
      rewrite (scanstring_u_single _ _ _ _ c _ (hex4_u_escape c Hlt)).
      * rewrite (IH Hok). reflexivity.
      * intros Hhigh. apply no_low_escape_follows; [exact Hok | now apply Hnext].
    + unfold u_escape. cbn [app].
      rewrite (scanstring_u_pair _ _ _ _ _ _ _ _ hi lo _
                 (hex4_u_escape hi Hhi) Hh (hex4_u_escape lo Hlo) Hl).
      rewrite (IH Hok), Hj. reflexivity.
Qed.

(** A Unicode scalar value: a code point that is not a surrogate. *)
Lemma push_parsed (c : N) (r : parsed str) (out rest : str) :
  push c r = Parsed out rest ->
  exists out', out = c :: out' /\ r = Parsed out' rest.
Proof.
  destruct r as [x rest' | m a]; cbn; intros H; inversion H; subst; eauto.
Qed.

Lemma scanstring_step (s out rest : str) :
  scanstring s = Parsed out rest -> scan_step s out rest.
Proof.
  destruct s as [|c s1]; [discriminate|]. cbn [scanstring].
  destruct (N.eqb_spec c 34) as [->|H34].
  { intros H. inversion H; subst. now apply step_quote. }
  destruct (N.eqb_spec c 92) as [->|H92].
  - destruct s1 as [|e s2]; [discriminate|].
    destruct (N.eqb_spec e 117) as [->|H117].
    + destruct s2 as [|a [|b [|c [|d s3]]]]; try discriminate.
      destruct (hex4 a b c d) as [cp|] eqn:Hcp; [|discriminate].
      destruct (is_high_surrogate cp) eqn:Hhi.
      * destruct s3 as [|b1 [|b2 [|a2 [|b2' [|c2 [|d2 s4]]]]]];
          try (intros H; apply push_parsed in H; destruct H as (out' & -> & H);
               apply (step_single _ _ _ a b c d cp _ out' eq_refl Hcp eq_refl H);
               intros _ ? ? ? ? ? ? E; discriminate E).
        destruct (N.eqb_spec b1 92) as [->|Hb1].
        2:{ intros H; apply push_parsed in H; destruct H as (out' & -> & H).
            apply (step_single _ _ _ a b c d cp _ out' eq_refl Hcp eq_refl H).
            intros _ ? ? ? ? ? ? E. inversion E; subst. congruence. }
        destruct (N.eqb_spec b2 117) as [->|Hb2].
        2:{ intros H; apply push_parsed in H; destruct H as (out' & -> & H).
            apply (step_single _ _ _ a b c d cp _ out' eq_refl Hcp eq_refl H).
            intros _ ? ? ? ? ? ? E. inversion E; subst. congruence. }
        cbn [andb].
        destruct (hex4 a2 b2' c2 d2) as [cp2|] eqn:Hcp2; [|discriminate].
        destruct (is_low_surrogate cp2) eqn:Hlo.
        -- intros H; apply push_parsed in H; destruct H as (out' & -> & H).
           now apply (step_pair _ _ _ a b c d a2 b2' c2 d2 cp cp2 s4 out' eq_refl).
        -- intros H; apply push_parsed in H; destruct H as (out' & -> & H).
           apply (step_single _ _ _ a b c d cp _ out' eq_refl Hcp eq_refl H).
           intros _ ? ? ? ? ? ? E Hx. inversion E; subst. congruence.
      * intros H; apply push_parsed in H; destruct H as (out' & -> & H).
        apply (step_single _ _ _ a b c d cp _ out' eq_refl Hcp eq_refl H).
        intros Hx. congruence.
    + destruct (unescape e) as [ch|] eqn:He; [|discriminate].
      intros H; apply push_parsed in H; destruct H as (out' & -> & H).
      now apply (step_short _ _ _ e ch s2 out' eq_refl).
  - destruct (c <=? 31); [discriminate|].
    intros H; apply push_parsed in H; destruct H as (out' & -> & H).
    now apply (step_plain _ _ _ c s1 out' eq_refl).
Qed.

Lemma hex_val_bound (c n : N) : hex_val c = Some n -> n < 16.
Proof.
  unfold hex_val.
  destruct ((48 <=? c) && (c <=? 57)) eqn:E1.
  { apply andb_true_iff in E1. rewrite !N.leb_le in E1.
    intros H. inversion H; subst. lia. }
  destruct ((97 <=? c) && (c <=? 102)) eqn:E2.
  { apply andb_true_iff in E2. rewrite !N.leb_le in E2.
    intros H. inversion H; subst. lia. }
  destruct ((65 <=? c) && (c <=? 70)) eqn:E3; [|discriminate].
  apply andb_true_iff in E3. rewrite !N.leb_le in E3.
  intros H. inversion H; subst. lia.
Qed.

Lemma hex4_bound (a b c d cp : N) : hex4 a b c d = Some cp -> cp < 65536.
Proof.
  unfold hex4.
  destruct (hex_val a) as [x|] eqn:Ha; [|discriminate].
  destruct (hex_val b) as [y|] eqn:Hb; [|discriminate].
  destruct (hex_val c) as [z|] eqn:Hc; [|discriminate].
  destruct (hex_val d) as [w|] eqn:Hd; [|discriminate].
  apply hex_val_bound in Ha, Hb, Hc, Hd.
  intros H. inversion H; subst. lia.
Qed.

Lemma unescape_bound (e ch : N) : unescape e = Some ch -> ch < 128.
Proof.
  unfold unescape.
  repeat match goal with
         | |- context [if ?b then _ else _] => destruct b
         end; intros H; inversion H; subst; lia.
Qed.

Lemma surrogate_ranges (c : N) :
  (is_high_surrogate c = true <-> 55296 <= c <= 56319)
  /\ (is_low_surrogate c = true <-> 56320 <= c <= 57343).
Proof.
  unfold is_high_surrogate, is_low_surrogate.
  rewrite !andb_true_iff, !N.leb_le. tauto.
Qed.

Lemma not_low (c : N) : c < 56320 \/ 57343 < c -> is_low_surrogate c = false.
Proof.
  intros H. destruct (is_low_surrogate c) eqn:E; [|reflexivity].
  apply surrogate_ranges in E. lia.
Qed.

Lemma not_high (c : N) : c < 55296 \/ 56319 < c -> is_high_surrogate c = false.
Proof.
  intros H. destruct (is_high_surrogate c) eqn:E; [|reflexivity].
  apply surrogate_ranges in E. lia.
Qed.

Lemma join_surrogates_bound (hi lo : N) :
  is_high_surrogate hi = true -> is_low_surrogate lo = true ->
  65536 <= join_surrogates hi lo < 1114112.
Proof.
  intros H1 H2. apply surrogate_ranges in H1, H2. unfold join_surrogates. lia.
Qed.

(** In a text of scalar values, a decoded string starts with a low
    surrogate only when the text starts with its escape. *)
Lemma scanstring_low_head (s out' rest : str) (c' : N) :
  Forall scalar s ->
  scanstring s = Parsed (c' :: out') rest ->
  is_low_surrogate c' = true ->
  exists a b c d s4,
    s = 92 :: 117 :: a :: b :: c :: d :: s4 /\ hex4 a b c d = Some c'.
Proof.
  intros Hs H Hlow. apply scanstring_step in H.
  destruct H as [E Eo | c s1 o E H1 H2 Eo H | e ch s2 o E He Eo H
                | a b c d cp s3 o E Hcp Eo H Hn
                | a b c d a2 b2 c2 d2 hi lo s4 o E Hh Hhi Hl Hlo Eo H].
  - discriminate.
  - inversion Eo; subst. inversion Hs as [|? ? (_ & _ & Hc) _]; subst. congruence.
  - inversion Eo; subst. apply unescape_bound in He.
    rewrite not_low in Hlow; [discriminate | lia].
  - inversion Eo; subst. eauto 10.
  - inversion Eo; subst. pose proof (join_surrogates_bound _ _ Hhi Hlo).
    rewrite not_low in Hlow; [discriminate | lia].
Qed.

Lemma Forall_skipn {A : Type} (P : A -> Prop) (n : nat) (l : list A) :
  Forall P l -> Forall P (skipn n l).
Proof.
  revert l. induction n as [|n IH]; intros l H; cbn; [exact H|].
  destruct l as [|x l]; [constructor|]. inversion H; subst. now apply IH.
Qed.

Lemma scanstring_scalar (n : nat) :
  forall s out rest,
    (List.length s <= n)%nat -> Forall scalar s ->
    scanstring s = Parsed out rest ->
    str_ok out /\ Forall scalar rest.
Proof.
  induction n as [|n IH]; intros s out rest Hlen Hs H.
  { destruct s; [discriminate | cbn in Hlen; lia]. }
  pose proof H as Hstep. apply scanstring_step in Hstep.
  destruct Hstep as [E Eo | c s1 o E H1 H2 Eo H' | e ch s2 o E He Eo H'
                | a b c d cp s3 o E Hcp Eo H' Hn
                | a b c d a2 b2 c2 d2 hi lo s4 o E Hh Hhi Hl Hlo Eo H']; subst.
  - split; [exact I|]. now inversion Hs.
  - inversion Hs as [|? ? (Hc1 & Hc2 & Hc3) Hs1]; subst.
    destruct (IH s1 o rest) as [Ho Hr]; [cbn in Hlen; lia | exact Hs1 | exact H'|].
    split; [|exact Hr]. cbn [str_ok]. split; [exact Hc1|]. split; [|exact Ho].
    intros Hx. congruence.
  - assert (Hs2 : Forall scalar s2) by (now apply (Forall_skipn scalar 2) in Hs).
    destruct (IH s2 o rest) as [Ho Hr]; [cbn in Hlen; lia | exact Hs2 | exact H'|].
    split; [|exact Hr]. apply unescape_bound in He.
    cbn [str_ok]. split; [lia|]. split; [|exact Ho].
    intros Hx. rewrite not_high in Hx; [discriminate | lia].
  - assert (Hs3 : Forall scalar s3) by (now apply (Forall_skipn scalar 6) in Hs).
    destruct (IH s3 o rest) as [Ho Hr]; [cbn in Hlen; lia | exact Hs3 | exact H'|].
    split; [|exact Hr]. pose proof (hex4_bound _ _ _ _ _ Hcp) as Hb.
    cbn [str_ok]. split; [lia|]. split; [|exact Ho].
    intros Hx. destruct o as [|c' o']; [exact I|].
    destruct (is_low_surrogate c') eqn:Hlow; [|reflexivity].
    destruct (scanstring_low_head s3 o' rest c' Hs3 H' Hlow)
      as (a2 & b2 & c2 & d2 & s4 & E & Hc').
    rewrite (Hn Hx _ _ _ _ _ _ E Hc') in Hlow. discriminate.
  - assert (Hs4 : Forall scalar s4) by (now apply (Forall_skipn scalar 12) in Hs).
    destruct (IH s4 o rest) as [Ho Hr]; [cbn in Hlen; lia | exact Hs4 | exact H'|].
    split; [|exact Hr]. pose proof (join_surrogates_bound _ _ Hhi Hlo) as Hb.
    cbn [str_ok]. split; [lia|]. split; [|exact Ho].
    intros Hx. rewrite not_high in Hx; [discriminate | lia].
Qed.

Lemma scanstring_scalar_ok (s out rest : str) :
  Forall scalar s -> scanstring s = Parsed out rest ->
  str_ok out /\ Forall scalar rest.
Proof. intros Hs H. exact (scanstring_scalar (List.length s) s out rest (le_n _) Hs H). Qed.

Lemma Forall_skip_ws {P : N -> Prop} (s : str) :
  Forall P s -> Forall P (skip_ws s).
Proof.
  induction 1 as [|c s Hc Hs IH]; cbn; [constructor|].
  destruct (is_ws c); [exact IH | now constructor].
Qed.

Lemma span_digits_rest {P : N -> Prop} (s ds r : str) :
  span_digits s = (ds, r) -> Forall P s -> Forall P r.
Proof.
  revert ds r. induction s as [|c s IH]; intros ds r; cbn.
  - intros H _. inversion H; subst. constructor.
  - destruct (is_digit c).
    + destruct (span_digits s) as [ds' r'] eqn:E. intros H Hs.
      inversion H; subst. inversion Hs; subst. now apply (IH ds' r).
    + intros H Hs. now inversion H; subst.
Qed.

Lemma match_integer_rest {P : N -> Prop} (s i r : str) :
  match_integer s = Some (i, r) -> Forall P s -> Forall P r.
Proof.
  unfold match_integer. intros H Hs.
  assert (Hgen : forall sign s1, Forall P s1 ->
           match s1 with
           | [] => None
           | c :: t =>
               if c =? 48 then Some (sign ++ [48], t)
               else if is_digit c
                    then let (ds, r0) := span_digits t in Some (sign ++ c :: ds, r0)
                    else None
           end = Some (i, r) -> Forall P r).
  { intros sign [|c t] Hs1; [discriminate|]. inversion Hs1; subst.
    destruct (c =? 48); [intros E; now inversion E; subst|].
    destruct (is_digit c); [|discriminate].
    destruct (span_digits t) as [ds r0] eqn:Es. intros E. inversion E; subst.
    now apply (span_digits_rest t ds r). }
  destruct s as [|c t]; [discriminate|].
  destruct (c =? 45).
  - apply (Hgen [45] t); [now inversion Hs | exact H].
  - apply (Hgen [] (c :: t)); [exact Hs | exact H].
Qed.

Lemma match_frac_rest {P : N -> Prop} (s f r : str) :
  match_frac s = (f, r) -> Forall P s -> Forall P r.
Proof.
  unfold match_frac. destruct s as [|c t]; [intros H; now inversion H|].
  destruct (c =? 46).
  - destruct (span_digits t) as [[|d ds] r0] eqn:E; intros H Hs;
      inversion H; subst; [exact Hs|].
    inversion Hs; subst. now apply (span_digits_rest t (d :: ds) r).
  - intros H Hs. now inversion H; subst.
Qed.

Lemma match_exp_rest {P : N -> Prop} (s x r : str) :
  match_exp s = (x, r) -> Forall P s -> Forall P r.
Proof.
  unfold match_exp. destruct s as [|e t]; [intros H; now inversion H|].
  destruct ((e =? 101) || (e =? 69)); [|intros H Hs; now inversion H; subst].
  intros H Hs. inversion Hs as [|? ? _ Ht]; subst.
  assert (Hgen : forall sg t1, Forall P t1 ->
            (let (ds, r0) := span_digits t1 in
             match ds with
             | [] => ([], e :: t)
             | _ :: _ => (e :: sg ++ ds, r0)
             end) = (x, r) -> Forall P r).
  { intros sg t1 Ht1. destruct (span_digits t1) as [[|d ds] r0] eqn:E;
      intros E'; inversion E'; subst; [exact Hs|].
    now apply (span_digits_rest t1 (d :: ds) r). }
  destruct t as [|c t']; [apply (Hgen [] []); [constructor | exact H]|].
  destruct ((c =? 43) || (c =? 45)).
  - apply (Hgen [c] t'); [now inversion Ht | exact H].
  - apply (Hgen [] (c :: t')); [exact Ht | exact H].
Qed.

(** ** [extract_json_text] returns a part of its input *)

Section Parts.
Variable P : N -> Prop.

Lemma Forall_lstrip (s : str) : Forall P s -> Forall P (lstrip s).
Proof.
  induction 1 as [|c s Hc Hs IH]; cbn; [constructor|].
  destruct (isspace c); [exact IH | now constructor].
Qed.

Lemma Forall_rstrip (s : str) : Forall P s -> Forall P (rstrip s).
Proof.
  intros H. unfold rstrip. apply Forall_rev, Forall_lstrip, Forall_rev, H.
Qed.

Lemma Forall_strip (s : str) : Forall P s -> Forall P (strip s).
Proof. intros H. now apply Forall_rstrip, Forall_lstrip. Qed.

Lemma Forall_firstn (n : nat) (s : str) : Forall P s -> Forall P (firstn n s).
Proof.
  revert s. induction n as [|n IH]; intros s H; cbn; [constructor|].
  destruct s as [|c s]; [constructor|]. inversion H; subst.
  constructor; [assumption | now apply IH].
Qed.

Lemma Forall_slice (s : str) (a b : Z) : Forall P s -> Forall P (slice s a b).
Proof. intros H. unfold slice. now apply Forall_firstn, Forall_skipn. Qed.

Lemma Forall_lazy_group (s g : str) :
  lazy_group s = Some g -> Forall P s -> Forall P g.
Proof.
  revert g. induction s as [|c s IH]; intros g; cbn [lazy_group].
  - destruct (startswith [] fence); intros H; inversion H; subst. constructor.
  - destruct (startswith (c :: s) fence).
    + intros H _. inversion H; subst. constructor.
    + destruct (lazy_group s) as [g'|]; [|discriminate].
      cbn. intros H Hs. inversion H; subst. inversion Hs; subst.
      constructor; [assumption | now apply IH].
Qed.

Lemma Forall_tag_json (s r : str) :
  tag_json s = Some r -> Forall P s -> Forall P r.
Proof.
  unfold tag_json. destruct s as [|a [|b [|c [|d rest]]]]; try discriminate.
  destruct (ci_match 106 a && ci_match 115 b && ci_match 111 c && ci_match 110 d);
    [|discriminate].
  intros H Hs. inversion H; subst. now apply (Forall_skipn P 4) in Hs.
Qed.

Lemma Forall_fence_match_here (s g : str) :
  fence_match_here s = Some g -> Forall P s -> Forall P g.
Proof.
  unfold fence_match_here. destruct (startswith s fence); [|discriminate].
  intros H Hs. pose proof (Forall_skipn P 3 s Hs) as Hr.
  destruct (tag_json (skipn 3 s)) as [r'|] eqn:Et.
  - pose proof (Forall_tag_json _ _ Et Hr) as Hr'.
    destruct (lazy_group r') as [g'|] eqn:El.
    + inversion H; subst. now apply (Forall_lazy_group r').
    + now apply (Forall_lazy_group (skipn 3 s)).
  - now apply (Forall_lazy_group (skipn 3 s)).
Qed.

Lemma Forall_fence_search (s g : str) :
  fence_search s = Some g -> Forall P s -> Forall P g.
Proof.
  induction s as [|c s IH]; cbn [fence_search].
  - destruct (fence_match_here []) as [g'|] eqn:E; [|discriminate].
    intros H Hs. inversion H; subst. now apply (Forall_fence_match_here []).
  - destruct (fence_match_here (c :: s)) as [g'|] eqn:E.
    + intros H Hs. inversion H; subst. now apply (Forall_fence_match_here (c :: s)).
    + intros H Hs. inversion Hs; subst. now apply IH.
Qed.

Lemma Forall_extract_json_text (raw : str) :
  Forall P raw -> Forall P (extract_json_text raw).
Proof.
  intros H. unfold extract_json_text.
  pose proof (Forall_strip raw H) as H1.
  apply Forall_strip.
  set (r := match fence_search (strip raw) with
            | Some g =>
                if startswith (lower (strip g)) s_json
                then strip (skipn 4 (strip g)) else strip g
            | None => strip raw
            end).
  assert (Hr : Forall P r).
  { unfold r. destruct (fence_search (strip raw)) as [g|] eqn:E; [|exact H1].
    pose proof (Forall_strip g (Forall_fence_search _ _ E H1)) as Hg.
    destruct (startswith (lower (strip g)) s_json); [|exact Hg].
    now apply Forall_strip, Forall_skipn. }
  destruct (negb (startswith r [lbrace] && endswith r [rbrace])); [|exact Hr].
  match goal with |- context [if ?b then _ else _] => destruct b end;
    [now apply Forall_slice | exact Hr].
Qed.

End Parts.

Context {F : PyFloat}.

Lemma scan_scalar_int (z : Z) (rest : str) :
  delimited rest -> scan_scalar (dec_Z z ++ rest) = Parsed (VInt z) rest.
Proof.
  intros Hr. unfold scan_scalar, match_number.
  rewrite (match_integer_dec_Z z rest Hr).
  rewrite (match_frac_delimited rest Hr), (match_exp_delimited rest Hr).
  rewrite int_of_literal_dec_Z.
  destruct (dec_Z_head z) as (c & ds & E & Hc). rewrite E. cbn [app startswith s_null s_true s_false].
  replace (110 =? c) with false by (symmetry; apply N.eqb_neq; lia).
  replace (116 =? c) with false by (symmetry; apply N.eqb_neq; lia).
  replace (102 =? c) with false by (symmetry; apply N.eqb_neq; lia).
  reflexivity.
Qed.

Lemma value_all_list Pf Ps Pk (l : list value) :
  value_all Pf Ps Pk (VList l) <-> Forall (value_all Pf Ps Pk) l.
Proof.
  cbn. induction l as [|x l IH]; split; intros H.
  - constructor.
  - exact I.
  - destruct H as [Hx Hl]. constructor; [exact Hx | now apply IH].
  - inversion H; subst. split; [assumption | now apply IH].
Qed.

Lemma value_all_dict Pf Ps Pk (d : list (str * value)) :
  value_all Pf Ps Pk (VDict d)
  <-> Pk (map fst d)
      /\ Forall (fun kv => Ps (fst kv) /\ value_all Pf Ps Pk (snd kv)) d.
Proof.
  cbn. apply and_iff_compat_l.
  induction d as [|kv d IH]; split; intros H.
  - constructor.
  - exact I.
  - destruct H as (Hk & Hx & Hd). constructor; [now split | now apply IH].
  - inversion H as [|? ? [Hk Hx] Hd]; subst. split; [|split]; try assumption.
    now apply IH.
Qed.

Lemma startswith_cons_head (c a : N) (s p : str) :
  startswith (c :: s) (a :: p) = true -> c = a.
Proof.
  cbn. destruct (N.eqb_spec a c); [congruence | discriminate].
Qed.

Lemma match_integer_head (c : N) (s : str) (r : str * str) :
  match_integer (c :: s) = Some r -> c = 45 \/ 48 <= c <= 57.
Proof.
  unfold match_integer. destruct (N.eqb_spec c 45) as [->|_]; [now left|].
  destruct (N.eqb_spec c 48) as [->|_]; [right; lia|].
  destruct (is_digit c) eqn:E; [|discriminate].
  apply is_digit_range in E. now right.
Qed.

Lemma scan_scalar_head (s : str) (v : value) (r : str) :
  scan_scalar s = Parsed v r -> exists c s', s = c :: s' /\ scalar_start c.
Proof.
  destruct s as [|c s]; [discriminate|]. intros H. exists c, s. split; [reflexivity|].
  unfold scan_scalar in H. unfold scalar_start.
  destruct (startswith (c :: s) s_null) eqn:E1;
    [apply startswith_cons_head in E1; tauto|].
  destruct (startswith (c :: s) s_true) eqn:E2;
    [apply startswith_cons_head in E2; tauto|].
  destruct (startswith (c :: s) s_false) eqn:E3;
    [apply startswith_cons_head in E3; tauto|].
  unfold match_number in H.
  destruct (match_integer (c :: s)) as [[i r1]|] eqn:E4.
  { apply match_integer_head in E4. tauto. }
  destruct (startswith (c :: s) s_NaN) eqn:E5;
    [apply startswith_cons_head in E5; tauto|].
  destruct (startswith (c :: s) s_Infinity) eqn:E6;
    [apply startswith_cons_head in E6; tauto|].
  destruct (startswith (c :: s) s_neg_Infinity) eqn:E7;
    [apply startswith_cons_head in E7; tauto|].
  discriminate.
Qed.

Lemma json_dumps_head (v : value) :
  reloadable v -> exists c s, json_dumps v = c :: s /\ value_start c.
Proof.
  unfold value_start, scalar_start.
  destruct v as [| [|] | z | f | s | l | d]; intros H; cbn [json_dumps].
  - eexists _, _. split; [reflexivity | tauto].
  - eexists _, _. split; [reflexivity | tauto].
  - eexists _, _. split; [reflexivity | tauto].
  - destruct (dec_Z_head z) as (c & ds & E & Hc). exists c, ds. split; [exact E | tauto].
  - pose proof (H [] I) as Hs. rewrite app_nil_r in Hs.
    destruct (scan_scalar_head _ _ _ Hs) as (c & s' & E & Hc).
    exists c, s'. split; [exact E | unfold scalar_start in Hc; tauto].
  - eexists _, _. split; [reflexivity | tauto].
  - eexists _, _. split; [reflexivity | tauto].
  - eexists _, _. split; [reflexivity | tauto].
Qed.

Lemma value_start_skip_ws (c : N) (s : str) :
  value_start c -> skip_ws (c :: s) = c :: s.
Proof.
  intros H. cbn [skip_ws].
  replace (is_ws c) with false; [reflexivity|].
  symmetry. unfold is_ws. unfold value_start, scalar_start in H.
  repeat (apply orb_false_intro); apply N.eqb_neq; lia.
Qed.

Lemma need_list (l : list value) : need (VList l) = S (need_items l).
Proof. reflexivity. Qed.

Lemma need_dict (d : list (str * value)) : need (VDict d) = S (need_pairs d).
Proof. reflexivity. Qed.

Lemma json_dumps_list (l : list value) :
  json_dumps (VList l) = 91 :: join item_sep (map json_dumps l) ++ [93].
Proof. reflexivity. Qed.

Lemma json_dumps_dict (d : list (str * value)) :
  json_dumps (VDict d) = 123 :: join item_sep (map pair_text d) ++ [125].
Proof. reflexivity. Qed.

Lemma join_cons2 (sep a b : str) (l : list str) :
  join sep (a :: b :: l) = a ++ sep ++ join sep (b :: l).
Proof. reflexivity. Qed.

Lemma delimited_comma (s : str) : delimited (44 :: s).
Proof. cbn. tauto. Qed.
Lemma delimited_bracket (s : str) : delimited (93 :: s).
Proof. cbn. tauto. Qed.
Lemma delimited_brace (s : str) : delimited (125 :: s).
Proof. cbn. tauto. Qed.

(** What the decoder does at the start of a value, scalar case. *)
Lemma scan_once_scalar (n : nat) (c : N) (s : str) :
  scalar_start c -> scan_once (S n) (c :: s) = scan_scalar (c :: s).
Proof.
  intros H. unfold scalar_start in H. cbn [scan_once].
  destruct (N.eqb_spec c 34); [lia|].
  destruct (N.eqb_spec c 123); [lia|].
  destruct (N.eqb_spec c 91); [lia|]. reflexivity.
Qed.

(** The items of a non-empty list, from the text between the brackets. *)
Lemma array_items_dumps (l : list value) :
  Forall (fun v => reloadable v /\
                   forall fuel rest, (need v <= fuel)%nat -> delimited rest ->
                     scan_once fuel (json_dumps v ++ rest) = Parsed v rest) l ->
  l <> [] ->
  forall fuel rest,
    (need_items l <= fuel)%nat ->
    array_items fuel (join item_sep (map json_dumps l) ++ 93 :: rest)
    = Parsed l rest.
Proof.
  induction 1 as [|v l [Hv IHv] Hl IH]; [congruence|]. intros _ fuel rest Hf.
  cbn [need_items fold_right] in Hf. fold (need_items l) in Hf.
  destruct fuel as [|n]; [lia|].
  destruct l as [|v' l'].
  - cbn [map join array_items].
    rewrite (IHv n (93 :: rest)) by (first [lia | apply delimited_bracket]).
    reflexivity.
  - cbn [map]. rewrite join_cons2. rewrite <- !app_assoc.
    cbn [array_items].
    rewrite (IHv n _) by (first [lia | apply delimited_comma]).
    change (item_sep ++ ?x) with (44 :: 32 :: x).
    cbn [skip_ws is_ws N.eqb Pos.eqb orb]. 
    change (skip_ws (32 :: ?x)) with (skip_ws x).
    inversion Hl as [|? ? [Hv' _] _]; subst.
    destruct (json_dumps_head v' Hv') as (c & s & E & Hc).
    change (map json_dumps (v' :: l')) with (json_dumps v' :: map json_dumps l') in *.
    assert (Hs : forall x, skip_ws (join item_sep (json_dumps v' :: map json_dumps l') ++ x)
                 = join item_sep (json_dumps v' :: map json_dumps l') ++ x).
    { intros x. destruct (map json_dumps l'); cbn [join]; rewrite E; cbn [app];
        now apply value_start_skip_ws. }
    rewrite Hs. rewrite IH by (first [discriminate | cbn [need_items fold_right] in *; lia]).
    reflexivity.
Qed.


Lemma pair_text_app (k : str) (v : value) (x : str) :
  pair_text (k, v) ++ x
  = 34 :: flat_map escape_char k ++ 34 :: 58 :: 32 :: json_dumps v ++ x.
Proof.
  unfold pair_text, encode_basestring_ascii, key_sep. cbn [fst snd app].
  now rewrite <- !app_assoc.
Qed.

Lemma pair_text_skip_ws (kv : str * value) (x : str) :
  skip_ws (pair_text kv ++ x) = pair_text kv ++ x.
Proof. destruct kv as [k v]. rewrite pair_text_app. reflexivity. Qed.

Lemma join_pairs_skip_ws (d : list (str * value)) (x : str) :
  d <> [] ->
  skip_ws (join item_sep (map pair_text d) ++ x)
  = join item_sep (map pair_text d) ++ x.
Proof.
  destruct d as [|kv [|kv' d]]; [congruence | |]; intros _.
  - cbn [map join]. apply pair_text_skip_ws.
  - cbn [map]. rewrite join_cons2, <- app_assoc. apply pair_text_skip_ws.
Qed.

(** The pairs of a non-empty mapping, from the text between the braces. *)
Lemma object_items_dumps (d : list (str * value)) :
  Forall (fun kv => str_ok (fst kv) /\ reloadable (snd kv) /\
                    forall fuel rest, (need (snd kv) <= fuel)%nat -> delimited rest ->
                      scan_once fuel (json_dumps (snd kv) ++ rest)
                      = Parsed (snd kv) rest) d ->
  d <> [] ->
  forall fuel rest,
    (need_pairs d <= fuel)%nat ->
    object_items fuel (join item_sep (map pair_text d) ++ 125 :: rest)
    = Parsed d rest.
Proof.
  induction 1 as [|[k v] d (Hk & Hv & IHv) Hd IH]; [congruence|].
  intros _ fuel rest Hf. cbn [fst snd] in *.
  cbn [need_pairs fold_right snd] in Hf. fold (need_pairs d) in Hf.
  destruct fuel as [|n]; [lia|].
  destruct (json_dumps_head v Hv) as (c & s & E & Hc).
  destruct d as [|kv' d'].
  - cbn [map join]. rewrite pair_text_app. cbn [object_items].
    change (34 =? 34) with true. cbn match.
    rewrite (scanstring_encoded k _ Hk).
    cbn [skip_ws is_ws N.eqb Pos.eqb orb].
    change (skip_ws (32 :: ?x)) with (skip_ws x).
    rewrite E. cbn [app]. rewrite (value_start_skip_ws c _ Hc).
    change (c :: s ++ ?x) with ((c :: s) ++ x). rewrite <- E.
    rewrite (IHv n (125 :: rest)) by (first [lia | apply delimited_brace]).
    reflexivity.
  - cbn [map]. rewrite join_cons2, <- !app_assoc. rewrite pair_text_app.
    cbn [object_items].
    change (34 =? 34) with true. cbn match.
    rewrite (scanstring_encoded k _ Hk).
    cbn [skip_ws is_ws N.eqb Pos.eqb orb].
    change (skip_ws (32 :: ?x)) with (skip_ws x).
    rewrite E. cbn [app]. rewrite (value_start_skip_ws c _ Hc).
    change (c :: s ++ ?x) with ((c :: s) ++ x). rewrite <- E.
    rewrite (IHv n _) by (first [lia | apply delimited_comma]).
    change (item_sep ++ ?x) with (44 :: 32 :: x).
    cbn [skip_ws is_ws N.eqb Pos.eqb orb].
    change (skip_ws (32 :: ?x)) with (skip_ws x).
    change (pair_text kv' :: map pair_text d') with (map pair_text (kv' :: d')).
    rewrite join_pairs_skip_ws by discriminate.
    rewrite IH by (first [discriminate | cbn [need_pairs fold_right] in *; lia]).
    reflexivity.
Qed.

Lemma dict_of_pairs_acc (d acc : list (str * value)) :
  NoDup (map fst (acc ++ d)) ->
  fold_left (fun a kv => dict_set a (fst kv) (snd kv)) d acc = acc ++ d.
Proof.
  revert acc. induction d as [|[k v] d IH]; intros acc H; cbn [fold_left fst snd].
  - now rewrite app_nil_r.
  - rewrite dict_set_fresh.
    + rewrite IH; rewrite <- app_assoc; [reflexivity | exact H].
    + rewrite map_app in H. cbn [map fst] in H.
      apply NoDup_remove_2 in H. intros Hin. apply H.
      apply in_or_app. now left.
Qed.

Lemma dict_of_pairs_unique (d : list (str * value)) :
  NoDup (map fst d) -> dict_of_pairs d = d.
Proof. intros H. apply (dict_of_pairs_acc d [] H). Qed.

(** The decoder reads the text of a value back. *)
Lemma scan_once_dumps (v : value) :
  reloadable v ->
  forall fuel rest, (need v <= fuel)%nat -> delimited rest ->
    scan_once fuel (json_dumps v ++ rest) = Parsed v rest.
Proof.
  induction v as [| b | z | f | s | l IH | d IH] using value_induction;
    intros Hr fuel rest Hf Hd.
  - destruct fuel; [cbn in Hf; lia | reflexivity].
  - destruct fuel; [cbn in Hf; lia | destruct b; reflexivity].
  - destruct fuel as [|n]; [cbn in Hf; lia|]. cbn [json_dumps].
    destruct (dec_Z_head z) as (c & ds & E & Hc). rewrite E. cbn [app].
    rewrite scan_once_scalar by (unfold scalar_start; tauto).
    change (c :: ds ++ rest) with ((c :: ds) ++ rest). rewrite <- E.
    now apply scan_scalar_int.
  - destruct fuel as [|n]; [cbn in Hf; lia|]. cbn [json_dumps].
    pose proof (Hr rest Hd) as Hs.
    destruct (scan_scalar_head _ _ _ Hs) as (c & s' & E & Hc).
    rewrite E. rewrite scan_once_scalar by exact Hc. rewrite <- E. exact Hs.
  - destruct fuel as [|n]; [cbn in Hf; lia|]. cbn [json_dumps].
    unfold encode_basestring_ascii. cbn [app scan_once].
    change (34 =? 34) with true. cbn match. rewrite <- app_assoc. cbn [app].
    now rewrite (scanstring_encoded s rest Hr).
  - rewrite need_list in Hf. destruct fuel as [|n]; [lia|].
    apply value_all_list in Hr. rewrite json_dumps_list.
    cbn [app scan_once]. change (91 =? 34) with false. change (91 =? 123) with false.
    change (91 =? 91) with true. cbn match. rewrite <- app_assoc. cbn [app].
    destruct l as [|v l].
    + reflexivity.
    + assert (Hall : Forall (fun v => reloadable v /\
                   forall fuel rest, (need v <= fuel)%nat -> delimited rest ->
                     scan_once fuel (json_dumps v ++ rest) = Parsed v rest) (v :: l)).
      { rewrite Forall_forall in *. intros x Hx. split; [now apply Hr|].
        apply IH; [exact Hx | now apply Hr]. }
      inversion Hr as [|? ? Hv _]; subst.
      destruct (json_dumps_head v Hv) as (c & s & E & Hc).
      assert (Hj : exists s', join item_sep (map json_dumps (v :: l)) = c :: s').
      { cbn [map]. destruct (map json_dumps l); cbn [join]; rewrite E; cbn [app]; eauto. }
      destruct Hj as (s' & Hj).
      assert (Hne : v :: l <> []) by discriminate.
      assert (Hn : (need_items (v :: l) <= n)%nat) by lia.
      pose proof (array_items_dumps (v :: l) Hall Hne n rest Hn) as Ha.
      rewrite Hj in *. cbn [app] in *. rewrite (value_start_skip_ws c _ Hc).
      destruct (N.eqb_spec c 93) as [->|_].
      { unfold value_start, scalar_start in Hc. lia. }
      now rewrite Ha.
  - rewrite need_dict in Hf. destruct fuel as [|n]; [lia|].
    apply value_all_dict in Hr. destruct Hr as [Hnd Hr]. rewrite json_dumps_dict.
    cbn [app scan_once]. change (123 =? 34) with false. change (123 =? 123) with true.
    cbn match. rewrite <- app_assoc. cbn [app].
    destruct d as [|kv d].
    + reflexivity.
    + assert (Hall : Forall (fun kv => str_ok (fst kv) /\ reloadable (snd kv) /\
                    forall fuel rest, (need (snd kv) <= fuel)%nat -> delimited rest ->
                      scan_once fuel (json_dumps (snd kv) ++ rest)
                      = Parsed (snd kv) rest) (kv :: d)).
      { rewrite Forall_forall in *. intros x Hx.
        destruct (Hr x Hx) as [Hk Hv]. split; [exact Hk|]. split; [exact Hv|].
        now apply IH. }
      assert (Hne : kv :: d <> []) by discriminate.
      assert (Hn : (need_pairs (kv :: d) <= n)%nat) by lia.
      pose proof (object_items_dumps (kv :: d) Hall Hne n rest Hn) as Ha.
      rewrite join_pairs_skip_ws by discriminate.
      assert (Hj : exists s', join item_sep (map pair_text (kv :: d)) = 34 :: s').
      { cbn [map]. destruct kv as [k v].
        destruct (map pair_text d); cbn [join].
        - rewrite <- (app_nil_r (pair_text (k, v))), pair_text_app. eauto.
        - rewrite pair_text_app. eauto. }
      destruct Hj as (s' & Hj). rewrite Hj in *. cbn [app] in *.
      change (34 =? 125) with false. cbn match.
      rewrite Ha. now rewrite (dict_of_pairs_unique _ Hnd).
Qed.

Lemma items_bound {A : Type} (needf : A -> nat) (text : A -> str) (l : list A) :
  Forall (fun x => (needf x <= 2 * List.length (text x) + 1)%nat) l ->
  (fold_right (fun x n => S (needf x + n)) O l
   <= 2 * List.length (join item_sep (map text l)) + 2)%nat.
Proof.
  induction 1 as [|x l Hx Hl IH]; cbn [fold_right map]; [lia|].
  destruct l as [|y l].
  - cbn [fold_right map join] in *. lia.
  - change (map text (y :: l)) with (text y :: map text l) in *.
    rewrite join_cons2, !length_app. cbn [item_sep List.length]. lia.
Qed.

Lemma need_bound (v : value) :
  (need v <= 2 * List.length (json_dumps v) + 1)%nat.
Proof.
  induction v as [| b | z | f | s | l IH | d IH] using value_induction;
    try (cbn [need]; lia).
  - rewrite need_list, json_dumps_list. cbn [List.length]. rewrite length_app.
    pose proof (items_bound need json_dumps l IH) as H.
    unfold need_items. cbn [List.length]. lia.
  - rewrite need_dict, json_dumps_dict. cbn [List.length]. rewrite length_app.
    assert (IH' : Forall (fun kv => (need (snd kv)
                                     <= 2 * List.length (pair_text kv) + 1)%nat) d).
    { apply (Forall_impl _ (P := fun kv => (need (snd kv) <= 2 * List.length (json_dumps (snd kv)) + 1)%nat)); [|exact IH].
      intros kv H. unfold pair_text. rewrite !length_app. lia. }
    pose proof (items_bound (fun kv => need (snd kv)) pair_text d IH') as H.
    unfold need_pairs. cbn [List.length]. lia.
Qed.

(** Decoding the text the encoder writes for a value gives the value
    back. *)
Lemma json_loads_dumps (v : value) :
  reloadable v -> json_loads (json_dumps v) = Returned v.
Proof.
  intros Hr. unfold json_loads.
  destruct (json_dumps_head v Hr) as (c & s & E & Hc).
  assert (Hb : startswith (json_dumps v) [65279] = false).
  { rewrite E. cbn [startswith]. apply andb_false_iff. left.
    apply N.eqb_neq. unfold value_start, scalar_start in Hc. lia. }
  rewrite Hb.
  assert (Hw : skip_ws (json_dumps v) = json_dumps v)
    by (rewrite E; now apply value_start_skip_ws).
  rewrite Hw.
  pose proof (scan_once_dumps v Hr (decoder_fuel (json_dumps v)) []) as H.
  rewrite app_nil_r in H. rewrite H.
  - reflexivity.
  - unfold decoder_fuel. pose proof (need_bound v). lia.
  - exact I.
Qed.

(** The text of a mapping is what [extract_json_text] returns for it,
    unless the pattern finds a fenced block in it. *)
Lemma extract_dumps_dict (d : list (str * value)) :
  fence_search (json_dumps (VDict d)) = None ->
  extract_json_text (json_dumps (VDict d)) = json_dumps (VDict d).
Proof.
  intros Hf.
  assert (Hs : strip (json_dumps (VDict d)) = json_dumps (VDict d)).
  { apply strip_fixed.
    - reflexivity.
    - rewrite json_dumps_dict.
      change (123 :: ?x ++ [125]) with ((123 :: x) ++ [125]).
      rewrite rev_app_distr. reflexivity. }
  unfold extract_json_text. rewrite Hs, Hf.
  assert (Hb : startswith (json_dumps (VDict d)) [lbrace]
               && endswith (json_dumps (VDict d)) [rbrace] = true).
  { rewrite json_dumps_dict. unfold endswith.
    change (123 :: ?x ++ [125]) with ((123 :: x) ++ [125]).
    rewrite rev_app_distr. reflexivity. }
  rewrite Hb. cbn [negb]. exact Hs.
Qed.

Lemma match_number_rest {P : N -> Prop} (s r : str) (v : value) :
  match_number s = Some (v, r) -> Forall P s ->
  Forall P r /\ produced v.
Proof.
  unfold match_number.
  destruct (match_integer s) as [[i r1]|] eqn:Ei; [|discriminate].
  destruct (match_frac r1) as [f r2] eqn:Ef.
  destruct (match_exp r2) as [x r3] eqn:Ex.
  intros H Hs.
  assert (Hr3 : Forall P r3).
  { apply (match_exp_rest r2 x r3 Ex). apply (match_frac_rest r1 f r2 Ef).
    now apply (match_integer_rest s i r1 Ei). }
  destruct f, x; inversion H; subst; split; try exact Hr3; exact I.
Qed.

Lemma scan_scalar_produced {P : N -> Prop} (s rest : str) (v : value) :
  scan_scalar s = Parsed v rest -> Forall P s ->
  Forall P rest /\ produced v.
Proof.
  unfold scan_scalar. intros H Hs.
  pose proof (fun n => Forall_skipn P n s Hs) as Hk.
  destruct (startswith s s_null);
    [inversion H; subst; split; [exact (Hk 4%nat) | exact I]|].
  destruct (startswith s s_true);
    [inversion H; subst; split; [exact (Hk 4%nat) | exact I]|].
  destruct (startswith s s_false);
    [inversion H; subst; split; [exact (Hk 5%nat) | exact I]|].
  destruct (match_number s) as [[v' r]|] eqn:En.
  { inversion H; subst. now apply (match_number_rest s rest v). }
  destruct (startswith s s_NaN);
    [inversion H; subst; split; [exact (Hk 3%nat) | exact I]|].
  destruct (startswith s s_Infinity);
    [inversion H; subst; split; [exact (Hk 8%nat) | exact I]|].
  destruct (startswith s s_neg_Infinity);
    [inversion H; subst; split; [exact (Hk 9%nat) | exact I]|].
  discriminate.
Qed.

Lemma dict_set_entries (d : list (str * value)) (k : str) (v : value) :
  Forall entry_ok d -> str_ok k -> produced v ->
  Forall entry_ok (dict_set d k v).
Proof.
  intros Hd Hk Hv. induction Hd as [|[k' v'] d [Hk' Hv'] Hd IH]; cbn [dict_set].
  - constructor; [now split | constructor].
  - destruct (str_eqb k' k); constructor; try assumption; now split.
Qed.

Lemma dict_set_keys_in (d : list (str * value)) (k k0 : str) (v : value) :
  In k0 (map fst (dict_set d k v)) -> k0 = k \/ In k0 (map fst d).
Proof.
  induction d as [|[k' v'] d IH]; cbn [dict_set map fst In].
  - intros [H | []]. now left.
  - destruct (str_eqb k' k); cbn [map fst In]; [tauto|].
    intros [H | H]; [tauto|]. destruct (IH H); tauto.
Qed.

Lemma dict_set_nodup (d : list (str * value)) (k : str) (v : value) :
  NoDup (map fst d) -> NoDup (map fst (dict_set d k v)).
Proof.
  induction d as [|[k' v'] d IH]; cbn [dict_set map fst]; intros H.
  - constructor; [intros [] | constructor].
  - destruct (str_eqb k' k) eqn:E; cbn [map fst]; [exact H|].
    inversion H as [|? ? Hn Hd]; subst. constructor; [|now apply IH].
    intros Hin. apply dict_set_keys_in in Hin. destruct Hin as [-> | Hin].
    + rewrite str_eqb_refl in E. discriminate.
    + contradiction.
Qed.

Lemma dict_of_pairs_produced (pairs : list (str * value)) :
  Forall entry_ok pairs ->
  NoDup (map fst (dict_of_pairs pairs)) /\ Forall entry_ok (dict_of_pairs pairs).
Proof.
  unfold dict_of_pairs.
  assert (Hgen : forall acc,
             NoDup (map fst acc) -> Forall entry_ok acc -> Forall entry_ok pairs ->
             NoDup (map fst (fold_left (fun d kv => dict_set d (fst kv) (snd kv)) pairs acc))
             /\ Forall entry_ok
                  (fold_left (fun d kv => dict_set d (fst kv) (snd kv)) pairs acc)).
  { induction pairs as [|[k v] pairs IH]; intros acc Hn Ha Hp; cbn [fold_left].
    - now split.
    - inversion Hp as [|? ? [Hk Hv] Hp']; subst. apply IH.
      + now apply dict_set_nodup.
      + now apply dict_set_entries.
      + exact Hp'. }
  intros H. apply Hgen; [constructor | constructor | exact H].
Qed.

Lemma produced_dict (d : list (str * value)) :
  NoDup (map fst d) -> Forall entry_ok d -> produced (VDict d).
Proof. intros Hn Hd. apply value_all_dict. now split. Qed.

(** The decoder, on a text of scalar values. *)
Lemma decoder_produced (fuel : nat) :
  (forall s v rest,
      Forall scalar s -> scan_once fuel s = Parsed v rest ->
      produced v /\ Forall scalar rest)
  /\ (forall s l rest,
         Forall scalar s -> array_items fuel s = Parsed l rest ->
         Forall produced l /\ Forall scalar rest)
  /\ (forall s d rest,
         Forall scalar s -> object_items fuel s = Parsed d rest ->
         Forall entry_ok d /\ Forall scalar rest).
Proof.
  induction fuel as [|n (IHv & IHa & IHo)].
  { repeat split; intros; discriminate. }
  split; [|split].
  - intros s v rest Hs. cbn [scan_once].
    destruct s as [|c r]; [discriminate|].
    inversion Hs as [|? ? Hc Hr]; subst.
    destruct (c =? 34).
    { destruct (scanstring r) as [x rest'|] eqn:E; [|discriminate].
      intros H. inversion H; subst.
      now apply (scanstring_scalar_ok r x rest). }
    destruct (c =? 123).
    { pose proof (Forall_skip_ws r Hr) as Hw.
      destruct (skip_ws r) as [|c1 r1]; [discriminate|].
      destruct (c1 =? 125).
      - intros H. inversion H; subst. split; [|now inversion Hw].
        apply produced_dict; constructor.
      - destruct (object_items n (c1 :: r1)) as [pairs rest'|] eqn:E; [|discriminate].
        intros H. inversion H; subst.
        destruct (IHo _ _ _ Hw E) as [Hp Hrest]. split; [|exact Hrest].
        destruct (dict_of_pairs_produced pairs Hp). now apply produced_dict. }
    destruct (c =? 91).
    { pose proof (Forall_skip_ws r Hr) as Hw.
      destruct (skip_ws r) as [|c1 r1]; [discriminate|].
      destruct (c1 =? 93).
      - intros H. inversion H; subst. split; [exact I | now inversion Hw].
      - destruct (array_items n (c1 :: r1)) as [items rest'|] eqn:E; [|discriminate].
        intros H. inversion H; subst.
        destruct (IHa _ _ _ Hw E) as [Hp Hrest]. split; [|exact Hrest].
        now apply value_all_list. }
    intros H. destruct (scan_scalar_produced _ _ _ H Hs). now split.
  - intros s l rest Hs. cbn [array_items].
    destruct (scan_once n s) as [v r|] eqn:E; [|discriminate].
    destruct (IHv _ _ _ Hs E) as [Hv Hr].
    pose proof (Forall_skip_ws r Hr) as Hw.
    destruct (skip_ws r) as [|c r1]; [discriminate|].
    inversion Hw as [|? ? _ Hr1]; subst.
    destruct (c =? 93).
    { intros H. inversion H; subst. split; [now constructor | exact Hr1]. }
    destruct (c =? 44); [|discriminate].
    destruct (array_items n (skip_ws r1)) as [vs rest'|] eqn:Ea; [|discriminate].
    intros H. inversion H; subst.
    destruct (IHa _ _ _ (Forall_skip_ws r1 Hr1) Ea) as [Hvs Hrest].
    split; [now constructor | exact Hrest].
  - intros s d rest Hs. cbn [object_items].
    destruct s as [|q s1]; [discriminate|].
    inversion Hs as [|? ? _ Hs1]; subst.
    destruct (q =? 34); [|discriminate].
    destruct (scanstring s1) as [key r|] eqn:Ek; [|discriminate].
    destruct (scanstring_scalar_ok s1 key r Hs1 Ek) as [Hkey Hr].
    pose proof (Forall_skip_ws r Hr) as Hw.
    destruct (skip_ws r) as [|c r1]; [discriminate|].
    inversion Hw as [|? ? _ Hr1]; subst.
    destruct (c =? 58); [|discriminate].
    destruct (scan_once n (skip_ws r1)) as [v r2|] eqn:Ev; [|discriminate].
    destruct (IHv _ _ _ (Forall_skip_ws r1 Hr1) Ev) as [Hv Hr2].
    pose proof (Forall_skip_ws r2 Hr2) as Hw2.
    destruct (skip_ws r2) as [|c2 r3]; [discriminate|].
    inversion Hw2 as [|? ? _ Hr3]; subst.
    destruct (c2 =? 125).
    { intros H. inversion H; subst.
      split; [constructor; [now split | constructor] | exact Hr3]. }
    destruct (c2 =? 44); [|discriminate].
    destruct (object_items n (skip_ws r3)) as [kvs rest'|] eqn:Eo; [|discriminate].
    intros H. inversion H; subst.
    destruct (IHo _ _ _ (Forall_skip_ws r3 Hr3) Eo) as [Hkvs Hrest].
    split; [constructor; [now split | exact Hkvs] | exact Hrest].
Qed.

Lemma json_loads_produced (s : str) (v : value) :
  Forall scalar s -> json_loads s = Returned v -> produced v.
Proof.
  intros Hs. unfold json_loads.
  destruct (startswith s [65279]); [discriminate|].
  destruct (scan_once (decoder_fuel s) (skip_ws s)) as [v' rest|m a] eqn:E.
  - destruct (skip_ws rest); [|discriminate]. intros H. inversion H; subst.
    destruct (decoder_produced (decoder_fuel s)) as (Hv & _ & _).
    now destruct (Hv _ _ _ (Forall_skip_ws s Hs) E).
  - destruct (str_eqb m msg_depth); discriminate.
Qed.

Lemma value_all_combine
  (Pf1 Pf2 Pf : float -> Prop) (Ps1 Ps2 Ps : str -> Prop)
  (Pk1 Pk2 Pk : list str -> Prop) :
  (forall f, Pf1 f -> Pf2 f -> Pf f) ->
  (forall s, Ps1 s -> Ps2 s -> Ps s) ->
  (forall k, Pk1 k -> Pk2 k -> Pk k) ->
  forall v, value_all Pf1 Ps1 Pk1 v -> value_all Pf2 Ps2 Pk2 v ->
            value_all Pf Ps Pk v.
Proof.
  intros Hf Hs Hk v.
  induction v as [| b | z | f | s | l IH | d IH] using value_induction;
    intros H1 H2; try exact I.
  - now apply Hf.
  - now apply Hs.
  - apply value_all_list in H1, H2. apply value_all_list.
    rewrite Forall_forall in *. intros x Hx. apply IH; auto.
  - apply value_all_dict in H1, H2. apply value_all_dict.
    destruct H1 as [K1 E1], H2 as [K2 E2]. split; [now apply Hk|].
    rewrite Forall_forall in *. intros x Hx.
    destruct (E1 x Hx), (E2 x Hx). split; [now apply Hs | apply IH; auto].
Qed.

Lemma produced_reloadable (v : value) :
  produced v -> floats_reload v -> reloadable v.
Proof.
  intros H1 H2.
  apply (value_all_combine _ _ _ _ _ _ _ _ _
           (fun f _ H => H) (fun s H _ => H) (fun k H _ => H) v H1 H2).
Qed.

(** C8, as the code has it.  Take a text made of Unicode scalar values on
    which [safe_load_validated] succeeds with a mapping.  If every float of
    the mapping is written by the encoder as a text that decodes to it, and
    the pattern finds no fenced block in the text [json.dumps] writes for the
    mapping, then [extract_json_text] followed by [try_parse_json] on that
    text gives the same mapping back, with no error. *)
Theorem reload_reproduces_mapping
  (raw : str) (required_keys : list str)
  (d : list (str * value)) (warnings : list str) :
  Forall scalar raw ->
  safe_load_validated raw required_keys = Returned (VDict d, warnings) ->
  (forall x, json_loads (extract_json_text raw) <> Raised x) ->
  floats_reload (VDict d) ->
  fence_search (json_dumps (VDict d)) = None ->
  try_parse_json (extract_json_text (json_dumps (VDict d)))
  = Returned (VDict d, None).
Proof.
  intros Hraw Hload Hok Hfl Hfence.
  destruct (json_loads (extract_json_text raw)) as [v | x] eqn:Hp;
    [|now destruct (Hok x)].
  rewrite (safe_load_parse_success _ required_keys _ Hp) in Hload.
  inversion Hload; subst v.
  assert (Hprod : produced (VDict d)).
  { apply (json_loads_produced (extract_json_text raw)); [|exact Hp].
    now apply Forall_extract_json_text. }
  rewrite (extract_dumps_dict d Hfence).
  apply try_parse_json_returned.
  apply json_loads_dumps. now apply produced_reloadable.
Qed.

End ReloadFacts.

Section ReloadExamples.
Local Open Scope N_scope.

Lemma literal_float_reloads :
  @float_reloads literal_float (u "2.5").
Proof.
  intros rest Hd. destruct rest as [|c rest]; [reflexivity|].
  destruct Hd as [-> | [-> | ->]]; reflexivity.
Qed.

Lemma reload_reproduces_mapping_witness :
  try_parse_json (extract_json_text (json_dumps (VDict sample_mapping)))
  = Returned (VDict sample_mapping, None).
Proof.
  apply (@reload_reproduces_mapping literal_float sample_reply
           [k_destination; k_duration] sample_mapping []).
  - repeat (constructor; [repeat split; reflexivity|]). constructor.
  - reflexivity.
  - intros x H. vm_compute in H. discriminate H.
  - cbn. repeat split; try exact I. exact literal_float_reloads.
  - reflexivity.
Defined.

Lemma backticks_break_reload :
  Forall scalar fenced_reply
  /\ @safe_load_validated literal_float fenced_reply [u "a"]
     = Returned (VDict [(u "a", VStr (u "```x```"))], [])
  /\ @json_loads literal_float (extract_json_text fenced_reply)
     = Returned (VDict [(u "a", VStr (u "```x```"))])
  /\ @json_dumps literal_float (VDict [(u "a", VStr (u "```x```"))])
     = jq "{'a': '```x```'}"
  /\ extract_json_text (jq "{'a': '```x```'}") = u "x"
  /\ exists msg,
       @try_parse_json literal_float
         (extract_json_text
            (@json_dumps literal_float (VDict [(u "a", VStr (u "```x```"))])))
       = Returned (VNone, Some msg).
Proof.
  split.
  { repeat (constructor; [repeat split; reflexivity|]). constructor. }
  repeat split; try reflexivity.
  eexists. reflexivity.
Qed.

(** A text that holds the two halves of a surrogate pair as separate code
    points decodes to a string of two code points; the encoder writes them
    as two escapes, which decode to one code point. *)
Example surrogate_halves_merge_on_reload :
  @json_loads literal_float [34; 55357; 56832; 34]
  = Returned (VStr [55357; 56832])
  /\ @json_loads literal_float
       (@json_dumps literal_float (VStr [55357; 56832]))
     = Returned (VStr [128512]).
Proof. split; reflexivity. Qed.

End ReloadExamples.

(** ** Extraction: what [extract_json_text] returns *)

Lemma part_of_refl (s : str) : part_of s s.
Proof. exists [], []. now rewrite app_nil_r. Qed.

Lemma part_of_trans (x y z : str) : part_of x y -> part_of y z -> part_of x z.
Proof.
  intros (a & b & ->) (c & d & ->). exists (c ++ a), (b ++ d).
  now rewrite <- !app_assoc.
Qed.

Lemma part_of_suffix (a x : str) : part_of x (a ++ x).
Proof. exists a, []. now rewrite app_nil_r. Qed.

Lemma part_of_prefix (x b : str) : part_of x (x ++ b).
Proof. now exists [], b. Qed.

Lemma part_of_strip (s : str) : part_of (strip s) s.
Proof.
  unfold strip.
  destruct (lstrip_suffix s) as [ws E].
  destruct (rstrip_prefix (lstrip s)) as [ws' E'].
  exists ws, ws'. rewrite <- E'. exact E.
Qed.

Lemma part_of_skipn (n : nat) (s : str) : part_of (skipn n s) s.
Proof. rewrite <- (firstn_skipn n s) at 2. apply part_of_suffix. Qed.

Lemma part_of_firstn (n : nat) (s : str) : part_of (firstn n s) s.
Proof. rewrite <- (firstn_skipn n s) at 2. apply part_of_prefix. Qed.

Lemma part_of_slice (s : str) (a b : Z) : part_of (slice s a b) s.
Proof.
  unfold slice. eapply part_of_trans; [apply part_of_firstn | apply part_of_skipn].
Qed.

Lemma lazy_group_prefix (s g : str) :
  lazy_group s = Some g -> exists b, s = g ++ b.
Proof.
  revert g. induction s as [|c s IH]; intros g; cbn [lazy_group].
  - destruct (startswith [] fence); [|discriminate].
    intros H. inversion H. now exists [].
  - destruct (startswith (c :: s) fence).
    + intros H. inversion H. now exists (c :: s).
    + destruct (lazy_group s) as [g'|]; [|discriminate].
      intros H. inversion H; subst. destruct (IH g' eq_refl) as [b ->].
      now exists b.
Qed.

Lemma tag_json_suffix (s r : str) : tag_json s = Some r -> exists a, s = a ++ r.
Proof.
  unfold tag_json. destruct s as [|a [|b [|c [|d rest]]]]; try discriminate.
  destruct (_ && _); [|discriminate]. intros H. inversion H; subst.
  now exists [a; b; c; d].
Qed.

Lemma part_of_fence_match_here (s g : str) :
  fence_match_here s = Some g -> part_of g s.
Proof.
  unfold fence_match_here. destruct (startswith s fence); [|discriminate].
  assert (Hp : forall r, lazy_group r = Some g -> part_of g r).
  { intros r H. destruct (lazy_group_prefix _ _ H) as [b ->]. apply part_of_prefix. }
  assert (Hr : lazy_group (skipn 3 s) = Some g -> part_of g s).
  { intros H. eapply part_of_trans; [apply (Hp _ H) | apply part_of_skipn]. }
  destruct (tag_json (skipn 3 s)) as [r'|] eqn:Et; [|exact Hr].
  destruct (lazy_group r') as [g'|] eqn:Eg; [|exact Hr].
  intros H. inversion H; subst.
  destruct (tag_json_suffix _ _ Et) as [a Ea].
  eapply part_of_trans; [apply (Hp _ Eg)|].
  eapply part_of_trans; [|apply (part_of_skipn 3)].
  rewrite Ea. apply part_of_suffix.
Qed.

Lemma part_of_fence_search (s g : str) :
  fence_search s = Some g -> part_of g s.
Proof.
  induction s as [|c s IH]; cbn [fence_search].
  - destruct (fence_match_here []) eqn:E; [|discriminate].
    intros H. inversion H; subst. now apply part_of_fence_match_here.
  - destruct (fence_match_here (c :: s)) eqn:E.
    + intros H. inversion H; subst. now apply part_of_fence_match_here.
    + intros H. eapply part_of_trans; [apply (IH H)|].
      apply (part_of_suffix [c]).
Qed.

Lemma lstrip_app_solid (a b : str) (c : N) :
  isspace c = false -> lstrip (a ++ c :: b) = lstrip a ++ c :: b.
Proof.
  intros Hc. induction a as [|x a IH]; cbn [lstrip app].
  - now rewrite Hc.
  - destruct (isspace x); [exact IH | reflexivity].
Qed.

Lemma rstrip_app_solid (a b : str) (c : N) :
  isspace c = false -> rstrip (a ++ c :: b) = a ++ c :: rstrip b.
Proof.
  intros Hc. unfold rstrip.
  replace (rev (a ++ c :: b)) with (rev b ++ c :: rev a)
    by (rewrite rev_app_distr; cbn [rev]; now rewrite <- app_assoc).
  rewrite (lstrip_app_solid (rev b) (rev a) c Hc).
  rewrite rev_app_distr. cbn [rev]. rewrite rev_involutive.
  now rewrite <- app_assoc.
Qed.

(** Trimming a text that holds a character that is not white space keeps
    everything between the first and the last such character. *)
Lemma strip_app_solid (a m b : str) (c c' : N) :
  isspace c = false -> isspace c' = false ->
  strip (a ++ c :: m ++ c' :: b) = lstrip a ++ c :: m ++ c' :: rstrip b.
Proof.
  intros Hc Hc'. unfold strip. rewrite (lstrip_app_solid _ _ _ Hc).
  change (lstrip a ++ c :: m ++ c' :: b) with (lstrip a ++ (c :: m) ++ c' :: b).
  rewrite app_assoc. rewrite (rstrip_app_solid _ _ _ Hc').
  now rewrite <- app_assoc.
Qed.

Lemma find_app_first (a b : str) (c : N) :
  ~ In c a -> find (a ++ c :: b) c = Z.of_nat (List.length a).
Proof.
  induction a as [|x a IH]; intros Hn; cbn [find app List.length].
  - now rewrite N.eqb_refl.
  - destruct (N.eqb_spec x c) as [->|_]; [exfalso; apply Hn; now left|].
    rewrite IH by (intros H; apply Hn; now right).
    destruct (Z.eqb_spec (Z.of_nat (List.length a)) (-1)); lia.
Qed.

Lemma rfind_absent (s : str) (c : N) : ~ In c s -> rfind s c = (-1)%Z.
Proof.
  induction s as [|x s IH]; intros Hn; cbn [rfind]; [reflexivity|].
  rewrite IH by (intros H; apply Hn; now right). cbn.
  destruct (N.eqb_spec x c) as [->|_]; [exfalso; apply Hn; now left|reflexivity].
Qed.

Lemma rfind_app_last (a b : str) (c : N) :
  ~ In c b -> rfind (a ++ c :: b) c = Z.of_nat (List.length a).
Proof.
  intros Hn. induction a as [|x a IH]; cbn [rfind app List.length].
  - rewrite (rfind_absent _ _ Hn). cbn. now rewrite N.eqb_refl.
  - rewrite IH.
    destruct (Z.eqb_spec (Z.of_nat (List.length a)) (-1)); lia.
Qed.

Lemma slice_middle (a m b : str) :
  slice (a ++ m ++ b) (Z.of_nat (List.length a))
        (Z.of_nat (List.length a) + Z.of_nat (List.length m)) = m.
Proof.
  unfold slice. rewrite Nat2Z.id.
  replace (Z.to_nat (_ + _ - _)) with (List.length m) by lia.
  rewrite skipn_app, skipn_all, Nat.sub_diag. cbn [skipn app].
  rewrite firstn_app, firstn_all, Nat.sub_diag. cbn [firstn]. apply app_nil_r.
Qed.

Lemma endswith_last (s : str) (c c' : N) :
  endswith (s ++ [c]) [c'] = N.eqb c' c.
Proof.
  unfold endswith. rewrite rev_app_distr. cbn. apply andb_true_r.
Qed.

Lemma isspace_lbrace : isspace lbrace = false. Proof. reflexivity. Qed.
Lemma isspace_rbrace : isspace rbrace = false. Proof. reflexivity. Qed.
Lemma isspace_backtick : isspace 96%N = false. Proof. reflexivity. Qed.

Lemma strip_braced (mid : str) :
  strip (lbrace :: mid ++ [rbrace]) = lbrace :: mid ++ [rbrace].
Proof.
  apply strip_fixed; [reflexivity|].
  change (lbrace :: mid ++ [rbrace]) with ((lbrace :: mid) ++ [rbrace]).
  rewrite rev_app_distr. reflexivity.
Qed.

Lemma brace_slice_between (x mid y : str) :
  ~ In lbrace x -> ~ In rbrace y ->
  brace_slice (x ++ lbrace :: mid ++ rbrace :: y) = lbrace :: mid ++ [rbrace].
Proof.
  intros Hx Hy. unfold brace_slice.
  destruct (negb _) eqn:Hc.
  - rewrite (find_app_first _ _ _ Hx).
    change (x ++ lbrace :: mid ++ rbrace :: y)
      with (x ++ (lbrace :: mid) ++ rbrace :: y).
    rewrite app_assoc. rewrite (rfind_app_last _ _ _ Hy).
    rewrite <- app_assoc. rewrite length_app. cbn [List.length].
    set (n := List.length x). set (k := List.length mid).
    assert (E1 : (Z.of_nat n =? -1)%Z = false) by (apply Z.eqb_neq; lia).
    assert (E2 : (Z.of_nat (n + S k) =? -1)%Z = false) by (apply Z.eqb_neq; lia).
    assert (E3 : (Z.of_nat (n + S k) >? Z.of_nat n)%Z = true)
      by (apply Z.gtb_lt; lia).
    rewrite E1, E2, E3. cbn [andb negb].
    replace (Z.of_nat (n + S k) + 1)%Z
      with (Z.of_nat n + Z.of_nat (List.length (lbrace :: mid ++ [rbrace])))%Z.
    + change ((lbrace :: mid) ++ rbrace :: y)
        with (lbrace :: mid ++ rbrace :: y).
      replace (x ++ lbrace :: mid ++ rbrace :: y)
        with (x ++ (lbrace :: mid ++ [rbrace]) ++ y)
        by (cbn [app]; rewrite <- app_assoc; reflexivity).
      apply slice_middle.
    + cbn [List.length]. rewrite length_app. cbn [List.length]. subst n k. lia.
  - apply negb_false_iff, andb_true_iff in Hc. destruct Hc as [H1 H2].
    destruct x as [|c x].
    + destruct y as [|c' y]; [reflexivity|].
      exfalso.
      destruct (exists_last (l := c' :: y) ltac:(discriminate)) as (y' & z & Ey).
      rewrite Ey in H2, Hy.
      replace (([] ++ lbrace :: mid ++ rbrace :: y' ++ [z]))
        with ((lbrace :: mid ++ rbrace :: y') ++ [z]) in H2
        by (cbn [app]; f_equal; rewrite <- app_assoc; reflexivity).
      rewrite endswith_last in H2. apply N.eqb_eq in H2.
      apply Hy. rewrite in_app_iff. right. left. now symmetry.
    + exfalso. cbn [startswith app] in H1.
      apply andb_true_iff in H1. destruct H1 as [H1 _].
      apply N.eqb_eq in H1. apply Hx. left. now symmetry.
Qed.

Lemma extract_json_text_unfold (raw : str) :
  extract_json_text raw
  = strip (brace_slice
             (match fence_search (strip raw) with
              | Some g =>
                  let inner := strip g in
                  if startswith (lower inner) s_json
                  then strip (skipn 4 inner) else inner
              | None => strip raw
              end)).
Proof. reflexivity. Qed.

Lemma part_of_brace_slice (x : str) : part_of (brace_slice x) x.
Proof.
  unfold brace_slice. destruct (negb _); [|apply part_of_refl].
  destruct (_ && _); [apply part_of_slice | apply part_of_refl].
Qed.

Lemma part_of_fenced_text (raw : str) :
  part_of
    (match fence_search (strip raw) with
     | Some g =>
         let inner := strip g in
         if startswith (lower inner) s_json
         then strip (skipn 4 inner) else inner
     | None => strip raw
     end)
    raw.
Proof.
  destruct (fence_search (strip raw)) as [g|] eqn:E; [|apply part_of_strip].
  apply part_of_fence_search in E.
  eapply part_of_trans; [|apply part_of_strip].
  eapply part_of_trans; [|exact E].
  cbv zeta. destruct (startswith _ _); [|apply part_of_strip].
  eapply part_of_trans; [apply part_of_strip|].
  eapply part_of_trans; [apply part_of_skipn | apply part_of_strip].
Qed.

(** X4. The extracted text is a contiguous part of the raw reply, and it
    has no white space at either end. *)
Theorem extract_json_text_is_trimmed_part (raw : str) :
  part_of (extract_json_text raw) raw
  /\ strip (extract_json_text raw) = extract_json_text raw.
Proof.
  rewrite extract_json_text_unfold. split.
  - eapply part_of_trans; [apply part_of_strip|].
    eapply part_of_trans; [apply part_of_brace_slice | apply part_of_fenced_text].
  - apply strip_idempotent.
Qed.

(** X5. With no fenced block, the text from the first opening brace to the last
    closing brace is extracted, whatever prose surrounds it. *)
Theorem extract_slices_first_to_last_brace (pre mid post : str) :
  fence_search (strip (pre ++ lbrace :: mid ++ rbrace :: post)) = None ->
  ~ In lbrace pre ->
  ~ In rbrace post ->
  extract_json_text (pre ++ lbrace :: mid ++ rbrace :: post)
  = lbrace :: mid ++ [rbrace].
Proof.
  intros Hf Hpre Hpost.
  rewrite extract_json_text_unfold, Hf.
  rewrite (strip_app_solid _ _ _ _ _ isspace_lbrace isspace_rbrace).
  rewrite brace_slice_between.
  - apply strip_braced.
  - intros H. apply Hpre. now apply In_lstrip.
  - intros H. apply Hpost. now apply In_rstrip.
Qed.

Lemma extract_slices_first_to_last_brace_witness :
  extract_json_text (jq "Here it is: {'destination': 'Paris'} Enjoy!")
  = jq "{'destination': 'Paris'}".
Proof.
  apply (extract_slices_first_to_last_brace
           (u "Here it is: ") (jq "'destination': 'Paris'") (u " Enjoy!")).
  - reflexivity.
  - intros H. vm_compute in H. intuition discriminate.
  - intros H. vm_compute in H. intuition discriminate.
Defined.

Lemma startswith_app (p r : str) : startswith (p ++ r) p = true.
Proof.
  induction p as [|a p IH]; [reflexivity|].
  cbn [startswith app]. now rewrite N.eqb_refl.
Qed.

Lemma startswith_fence_head (c : N) (s : str) :
  c <> 96%N -> startswith (c :: s) fence = false.
Proof.
  intros Hc. unfold fence. cbn [startswith].
  destruct (N.eqb_spec 96 c) as [E|_]; [now symmetry in E|reflexivity].
Qed.

Lemma fence_match_here_head (c : N) (s : str) :
  c <> 96%N -> fence_match_here (c :: s) = None.
Proof.
  intros Hc. unfold fence_match_here. now rewrite startswith_fence_head.
Qed.

(** The search passes over a prefix that has no backtick. *)
Lemma fence_search_skip (x s : str) :
  ~ In 96%N x -> fence_search (x ++ s) = fence_search s.
Proof.
  induction x as [|c x IH]; intros Hn; [reflexivity|].
  cbn [app fence_search].
  rewrite fence_match_here_head by (intros ->; apply Hn; now left).
  apply IH. intros H. apply Hn. now right.
Qed.

(** The lazy group stops at the first fence. *)
Lemma lazy_group_to_fence (g r : str) :
  ~ In 96%N g -> lazy_group (g ++ fence ++ r) = Some g.
Proof.
  induction g as [|c g IH]; intros Hn.
  - cbn [app]. destruct r; reflexivity.
  - cbn [app lazy_group].
    rewrite startswith_fence_head by (intros ->; apply Hn; now left).
    rewrite IH by (intros H; apply Hn; now right). reflexivity.
Qed.

Lemma tag_json_lower (tag r : str) :
  lower tag = s_json -> tag_json (tag ++ r) = Some r.
Proof.
  destruct tag as [|a [|b [|c [|d [|x tag]]]]]; try discriminate.
  cbn [lower map]. intros H. injection H as Ha Hb Hc Hd.
  cbn [app tag_json]. unfold ci_match. rewrite Ha, Hb, Hc, Hd. reflexivity.
Qed.

Lemma tag_json_head (c : N) (s : str) :
  to_lower c <> 106%N -> tag_json (c :: s) = None.
Proof.
  intros Hc. unfold tag_json. destruct s as [|b [|c' [|d rest]]]; try reflexivity.
  unfold ci_match at 1.
  destruct (N.eqb_spec (to_lower c) 106) as [E|_]; [contradiction|].
  reflexivity.
Qed.

(** A fenced block, with or without the json tag, whose content has no
    backtick: the pattern's group 1 is the content. *)
Lemma fence_match_here_block (tag body post : str) (c : N) (mid : str) :
  ~ In 96%N body ->
  tag = [] \/ lower tag = s_json ->
  lstrip body = c :: mid -> to_lower c <> 106%N ->
  fence_match_here (fence ++ tag ++ body ++ fence ++ post) = Some body.
Proof.
  intros Hb Htag Hbody Hc.
  unfold fence_match_here. rewrite startswith_app.
  change (skipn 3 (fence ++ tag ++ body ++ fence ++ post))
    with (tag ++ body ++ fence ++ post).
  destruct Htag as [-> | Htag].
  - cbn [app].
    assert (Hhead : exists c' s', body = c' :: s' /\ to_lower c' <> 106%N).
    { destruct body as [|c' s']; [discriminate|].
      exists c', s'. split; [reflexivity|].
      cbn [lstrip] in Hbody. destruct (isspace c') eqn:Es.
      - intros E. unfold to_lower in E.
        destruct ((65 <=? c') && (c' <=? 90))%N eqn:Er.
        + assert (c' = 74%N) by lia. subst. discriminate.
        + subst. discriminate.
      - now inversion Hbody; subst. }
    destruct Hhead as (c' & s' & -> & Hc').
    cbn [app]. rewrite (tag_json_head _ _ Hc').
    apply (lazy_group_to_fence (c' :: s') post Hb).
  - rewrite (tag_json_lower _ _ Htag).
    now rewrite (lazy_group_to_fence body post Hb).
Qed.

Lemma strip_fenced (pre x post : str) :
  strip (pre ++ fence ++ x ++ fence ++ post)
  = lstrip pre ++ fence ++ x ++ fence ++ rstrip post.
Proof.
  transitivity
    (strip (pre ++ 96%N :: (96%N :: 96%N :: x ++ [96%N; 96%N]) ++ 96%N :: post)).
  { f_equal. unfold fence. cbn [app]. now rewrite <- app_assoc. }
  rewrite (strip_app_solid _ _ _ _ _ isspace_backtick isspace_backtick).
  unfold fence. cbn [app]. now rewrite <- app_assoc.
Qed.

Lemma fence_search_here (s g : str) :
  fence_match_here s = Some g -> fence_search s = Some g.
Proof. intros H. destruct s; cbn [fence_search]; now rewrite H. Qed.

(** In a reply whose first backtick opens a fenced block, the pattern's
    group 1 is the content of that block. *)
Lemma fence_search_block (pre tag body post m : str) :
  ~ In 96%N pre ->
  ~ In 96%N body ->
  tag = [] \/ lower tag = s_json ->
  lstrip body = lbrace :: m ->
  fence_search (strip (pre ++ fence ++ tag ++ body ++ fence ++ post)) = Some body.
Proof.
  intros Hpre Hb Htag Hl.
  replace (pre ++ fence ++ tag ++ body ++ fence ++ post)
    with (pre ++ fence ++ (tag ++ body) ++ fence ++ post)
    by now rewrite <- app_assoc.
  rewrite strip_fenced.
  rewrite fence_search_skip by (intros H; apply Hpre; now apply In_lstrip).
  rewrite <- app_assoc.
  apply fence_search_here.
  apply (fence_match_here_block tag body (rstrip post) lbrace m Hb Htag Hl).
  discriminate.
Qed.

Lemma lstrip_of_strip (body x : str) (c : N) :
  strip body = c :: x -> exists m, lstrip body = c :: m.
Proof.
  unfold strip. intros H.
  destruct (rstrip_prefix (lstrip body)) as [ws E]. rewrite H in E.
  cbn [app] in E. eexists. exact E.
Qed.

Lemma brace_slice_braced (mid : str) :
  brace_slice (lbrace :: mid ++ [rbrace]) = lbrace :: mid ++ [rbrace].
Proof. exact (brace_slice_between [] mid [] (fun H => H) (fun H => H)). Qed.

(** X6. Prose, then a fenced block holding a brace-delimited text: the block's
    content is extracted, whatever follows the closing fence. *)
Theorem extract_takes_fenced_block (pre tag body post mid : str) :
  ~ In 96%N pre ->
  ~ In 96%N body ->
  tag = [] \/ lower tag = s_json ->
  strip body = lbrace :: mid ++ [rbrace] ->
  extract_json_text (pre ++ fence ++ tag ++ body ++ fence ++ post)
  = lbrace :: mid ++ [rbrace].
Proof.
  intros Hpre Hb Htag Hbody.
  destruct (lstrip_of_strip _ _ _ Hbody) as [m Hl].
  rewrite extract_json_text_unfold.
  rewrite (fence_search_block pre tag body post m Hpre Hb Htag Hl).
  cbv zeta. rewrite Hbody.
  change (startswith (lower (lbrace :: mid ++ [rbrace])) s_json) with false.
  cbv iota. rewrite brace_slice_braced.
  apply strip_braced.
Qed.

Lemma extract_takes_fenced_block_witness :
  extract_json_text
    (jq "Sure! ```JSON
{'destination': 'Paris'}
``` Anything else?")
  = jq "{'destination': 'Paris'}".
Proof.
  apply (extract_takes_fenced_block
           (u "Sure! ") (u "JSON")
           (10%N :: jq "{'destination': 'Paris'}" ++ [10%N])
           (u " Anything else?") (jq "'destination': 'Paris'")).
  - intros H. vm_compute in H. intuition discriminate.
  - intros H. vm_compute in H. intuition discriminate.
  - right. reflexivity.
  - reflexivity.
Defined.

Lemma startswith_split (s p : str) :
  startswith s p = true -> exists r, s = p ++ r.
Proof.
  revert s. induction p as [|a p IH]; intros s; [now exists s|].
  destruct s as [|b s]; [discriminate|]. cbn [startswith].
  intros H. apply andb_true_iff in H. destruct H as [E H].
  apply N.eqb_eq in E. subst. destruct (IH _ H) as [r ->]. now exists r.
Qed.

Lemma lazy_group_closes (s g : str) :
  lazy_group s = Some g -> exists rest, s = g ++ fence ++ rest.
Proof.
  revert g. induction s as [|c s IH]; intros g; cbn [lazy_group].
  - discriminate.
  - destruct (startswith (c :: s) fence) eqn:E.
    + intros H. inversion H; subst. now apply startswith_split.
    + destruct (lazy_group s) as [g'|]; [|discriminate].
      intros H. inversion H; subst. destruct (IH g' eq_refl) as [rest ->].
      now exists rest.
Qed.

Lemma lazy_group_finds (b c : str) : lazy_group (b ++ fence ++ c) <> None.
Proof.
  induction b as [|x b IH].
  - cbn [app]. destruct c; discriminate.
  - cbn [app lazy_group]. destruct (startswith _ fence); [discriminate|].
    destruct (lazy_group (b ++ fence ++ c)); [discriminate | contradiction].
Qed.

Lemma fence_match_here_block_exists (g s : str) :
  fence_match_here s = Some g -> has_block s.
Proof.
  unfold fence_match_here. destruct (startswith s fence) eqn:Es; [|discriminate].
  destruct (startswith_split _ _ Es) as [r ->].
  change (skipn 3 (fence ++ r)) with r.
  assert (Hr : lazy_group r = Some g -> has_block (fence ++ r)).
  { intros H. destruct (lazy_group_closes _ _ H) as [rest ->].
    now exists [], g, rest. }
  destruct (tag_json r) as [r'|] eqn:Et; [|exact Hr].
  destruct (lazy_group r') as [g'|] eqn:Eg; [|exact Hr].
  intros H. inversion H; subst.
  destruct (tag_json_suffix _ _ Et) as [a ->].
  destruct (lazy_group_closes _ _ Eg) as [rest ->].
  exists [], (a ++ g), rest. cbn [app]. now rewrite <- app_assoc.
Qed.

Lemma has_block_cons (c : N) (s : str) : has_block s -> has_block (c :: s).
Proof. intros (a & b & d & ->). now exists (c :: a), b, d. Qed.

Lemma fence_search_block_exists (s g : str) :
  fence_search s = Some g -> has_block s.
Proof.
  induction s as [|c s IH]; cbn [fence_search].
  - destruct (fence_match_here []) eqn:E; [|discriminate].
    intros _. now apply fence_match_here_block_exists in E.
  - destruct (fence_match_here (c :: s)) eqn:E.
    + intros _. now apply fence_match_here_block_exists in E.
    + intros H. apply has_block_cons. now apply IH.
Qed.

Lemma fence_match_here_finds (b c : str) :
  fence_match_here (fence ++ b ++ fence ++ c) <> None.
Proof.
  unfold fence_match_here. rewrite startswith_app.
  change (skipn 3 (fence ++ b ++ fence ++ c)) with (b ++ fence ++ c).
  destruct (tag_json _); [destruct (lazy_group s); [discriminate|]|];
    apply lazy_group_finds.
Qed.

Lemma fence_search_finds (s : str) : has_block s -> fence_search s <> None.
Proof.
  intros (a & b & c & ->). induction a as [|x a IH].
  - cbn [app].
    pose proof (fence_match_here_finds b c) as H.
    destruct (fence_match_here (fence ++ b ++ fence ++ c)) eqn:E; [|contradiction].
    change (fence ++ b ++ fence ++ c) with (96%N :: [96%N; 96%N] ++ b ++ fence ++ c) in *.
    cbn [fence_search]. rewrite E. discriminate.
  - cbn [app fence_search]. destruct (fence_match_here _); [discriminate | exact IH].
Qed.

Lemma has_block_part (r s : str) : part_of r s -> has_block r -> has_block s.
Proof.
  intros (x & y & ->) (a & b & c & ->).
  exists (x ++ a), b, (c ++ y). now rewrite <- !app_assoc.
Qed.

(** No match in a text, no match in any part of it. *)
Lemma fence_search_part_none (r s : str) :
  part_of r s -> fence_search s = None -> fence_search r = None.
Proof.
  intros Hp Hs. destruct (fence_search r) as [g|] eqn:E; [|reflexivity].
  exfalso. apply (fence_search_finds s); [|exact Hs].
  apply (has_block_part r s Hp). now apply fence_search_block_exists in E.
Qed.

(** Group 1 of a match holds no fence. *)
Lemma lazy_group_no_fence (s g : str) :
  lazy_group s = Some g -> forall a b, g <> a ++ fence ++ b.
Proof.
  revert g. induction s as [|c s IH]; intros g; cbn [lazy_group].
  - discriminate.
  - destruct (startswith (c :: s) fence) eqn:E.
    + intros H. inversion H; subst. intros a b Hab.
      destruct a; discriminate.
    + destruct (lazy_group s) as [g'|] eqn:Eg; [|discriminate].
      intros H. inversion H; subst. intros a b Hab.
      destruct a as [|x a].
      * cbn [app] in Hab.
        destruct (lazy_group_prefix _ _ Eg) as [tl Etl].
        assert (startswith (c :: s) fence = true).
        { rewrite Etl. replace (c :: g' ++ tl) with ((c :: g') ++ tl) by reflexivity.
          rewrite Hab. rewrite <- app_assoc. apply startswith_app. }
        congruence.
      * inversion Hab; subst. now apply (IH _ eq_refl a b).
Qed.

Lemma fence_match_here_no_fence (s g : str) :
  fence_match_here s = Some g -> forall a b, g <> a ++ fence ++ b.
Proof.
  unfold fence_match_here. destruct (startswith s fence); [|discriminate].
  destruct (tag_json (skipn 3 s)) as [r'|]; [|apply lazy_group_no_fence].
  destruct (lazy_group r') as [g'|] eqn:Eg; [|apply lazy_group_no_fence].
  intros H. inversion H; subst. now apply (lazy_group_no_fence r').
Qed.

Lemma fence_search_no_fence (s g : str) :
  fence_search s = Some g -> forall a b, g <> a ++ fence ++ b.
Proof.
  induction s as [|c s IH]; cbn [fence_search].
  - destruct (fence_match_here []) eqn:E; [|discriminate].
    intros H. inversion H; subst. now apply (fence_match_here_no_fence []).
  - destruct (fence_match_here (c :: s)) eqn:E.
    + intros H. inversion H; subst. now apply (fence_match_here_no_fence (c :: s)).
    + exact IH.
Qed.

Lemma fence_search_in_group (s g r : str) :
  fence_search s = Some g -> part_of r g -> fence_search r = None.
Proof.
  intros Hs (x & y & Hg).
  destruct (fence_search r) as [g'|] eqn:E; [|reflexivity].
  exfalso. apply fence_search_block_exists in E. destruct E as (a & b & c & ->).
  apply (fence_search_no_fence _ _ Hs (x ++ a) (b ++ fence ++ c ++ y)).
  rewrite Hg. now rewrite <- !app_assoc.
Qed.

Lemma find_split (s : str) (c : N) :
  find s c <> (-1)%Z ->
  exists a b, s = a ++ c :: b /\ find s c = Z.of_nat (List.length a).
Proof.
  induction s as [|x s IH]; cbn [find]; [congruence|].
  destruct (N.eqb_spec x c) as [->|Hx].
  - intros _. now exists [], s.
  - destruct (Z.eqb_spec (find s c) (-1)) as [E|E]; [congruence|].
    intros _. destruct (IH E) as (a & b & -> & Hf).
    exists (x :: a), b. split; [reflexivity|]. rewrite Hf. cbn [List.length]. lia.
Qed.

Lemma rfind_split (s : str) (c : N) :
  rfind s c <> (-1)%Z ->
  exists a b, s = a ++ c :: b /\ rfind s c = Z.of_nat (List.length a).
Proof.
  induction s as [|x s IH]; cbn [rfind]; [congruence|].
  destruct (Z.eqb_spec (rfind s c) (-1)) as [E|E].
  - destruct (N.eqb_spec x c) as [->|Hx]; [|congruence].
    intros _. now exists [], s.
  - intros _. destruct (IH E) as (a & b & -> & Hf).
    exists (x :: a), b. split; [reflexivity|]. rewrite Hf. cbn [List.length]. lia.
Qed.

(** The slicing leaves the text as it is, or cuts a brace-delimited part
    out of it. *)
Lemma brace_slice_cases (x : str) :
  brace_slice x = x
  \/ exists m, brace_slice x = lbrace :: m ++ [rbrace]
               /\ part_of (lbrace :: m ++ [rbrace]) x.
Proof.
  unfold brace_slice. destruct (negb _); [|now left].
  destruct (Z.eqb_spec (find x lbrace) (-1)) as [|Hf]; [now left|].
  destruct (Z.eqb_spec (rfind x rbrace) (-1)) as [|Hr]; [now left|].
  cbn [negb andb].
  destruct (Z.gtb_spec (rfind x rbrace) (find x lbrace)) as [Hlt|]; [|now left].
  right.
  destruct (find_split _ _ Hf) as (a & b & Ea & Efa).
  destruct (rfind_split _ _ Hr) as (a' & b' & Ea' & Efa').
  rewrite Efa, Efa' in *.
  assert (Hm : exists m, a' = a ++ lbrace :: m).
  { rewrite Ea in Ea'. apply app_eq_app in Ea'.
    destruct Ea' as [l [[E1 E2] | [E1 E2]]].
    - exfalso. subst a. rewrite length_app in Hlt. lia.
    - destruct l as [|y l].
      + exfalso. subst a'. rewrite app_nil_r in Hlt. lia.
      + cbn [app] in E2. inversion E2; subst. now exists l. }
  destruct Hm as [m ->].
  exists m.
  assert (Ex : x = a ++ (lbrace :: m ++ [rbrace]) ++ b').
  { rewrite Ea'. rewrite <- !app_assoc. cbn [app]. now rewrite <- app_assoc. }
  split.
  - rewrite Ex at 1.
    replace (Z.of_nat (List.length (a ++ lbrace :: m)) + 1)%Z
      with (Z.of_nat (List.length a)
            + Z.of_nat (List.length (lbrace :: m ++ [rbrace])))%Z.
    + apply slice_middle.
    + cbn [List.length]. rewrite !length_app. cbn [List.length]. lia.
  - now exists a, b'.
Qed.

(** X7. Extracting from an extracted text changes nothing:
    [extract_json_text] is idempotent. *)
Theorem extract_json_text_idempotent (raw : str) :
  extract_json_text (extract_json_text raw) = extract_json_text raw.
Proof.
  rewrite (extract_json_text_unfold raw).
  set (x := match fence_search (strip raw) with
            | Some g =>
                let inner := strip g in
                if startswith (lower inner) s_json
                then strip (skipn 4 inner) else inner
            | None => strip raw
            end).
  assert (Hx : strip x = x).
  { subst x. destruct (fence_search (strip raw)); cbv zeta;
      [destruct (startswith _ _)|]; apply strip_idempotent. }
  assert (Hnf : forall r, part_of r x -> fence_search r = None).
  { intros r Hr. subst x. destruct (fence_search (strip raw)) as [g|] eqn:E.
    - apply (fence_search_in_group _ _ _ E).
      eapply part_of_trans; [exact Hr|]. cbv zeta.
      destruct (startswith _ _).
      + eapply part_of_trans; [apply part_of_strip|].
        eapply part_of_trans; [apply part_of_skipn | apply part_of_strip].
      + apply part_of_strip.
    - now apply (fence_search_part_none r (strip raw)). }
  clearbody x.
  destruct (brace_slice_cases x) as [E | (m & E & Hp)]; rewrite E.
  - rewrite Hx. rewrite extract_json_text_unfold, Hx.
    rewrite (Hnf x (part_of_refl x)). rewrite E. exact Hx.
  - rewrite strip_braced. rewrite extract_json_text_unfold, strip_braced.
    rewrite (Hnf _ Hp). rewrite brace_slice_braced. apply strip_braced.
Qed.

(** ** Loading: [try_parse_json] and [safe_load_validated] *)

Section LoadingFacts.
Context {F : PyFloat}.

(** X8. [try_parse_json] never raises, and its second component tells the two
    cases apart: it is [None] exactly when [json.loads] returned, and a
    message that is not empty, hence true in [if err:], when it raised. *)
Theorem try_parse_json_flags_failure (raw : str) :
  exists (data : value) (err : option str),
    try_parse_json raw = Returned (data, err)
    /\ (opt_str_truth err = false <-> json_loads raw = Returned data /\ err = None)
    /\ (opt_str_truth err = true
        <-> exists x, json_loads raw = Raised x
                      /\ data = VNone /\ err = Some (exn_str x)).
Proof.
  destruct (json_loads raw) as [v | x] eqn:H.
  - exists v, None. rewrite (try_parse_json_returned _ _ H).
    split; [reflexivity|]. split.
    + split; [now split | reflexivity].
    + split; [discriminate | intros (y & Hy & _); discriminate].
  - exists VNone, (Some (exn_str x)). rewrite (try_parse_json_raised _ _ H).
    split; [reflexivity|].
    pose proof (json_loads_error_nonempty _ _ H) as Hne.
    assert (Ht : opt_str_truth (Some (exn_str x)) = true).
    { cbn. destruct (exn_str x); [contradiction | reflexivity]. }
    rewrite Ht. split.
    + split; [discriminate | intros [Hy _]; discriminate].
    + split; [|reflexivity]. intros _. now exists x.
Qed.

(** X9. [safe_load_validated] gives at most one warning, and none exactly when
    the extracted text decoded to a mapping that holds every required key. *)
Theorem safe_load_warns_unless_valid_mapping
  (raw : str) (required_keys : list str) (data : value) (warnings : list str) :
  safe_load_validated raw required_keys = Returned (data, warnings) ->
  (List.length warnings <= 1)%nat
  /\ (warnings = []
      <-> exists d, json_loads (extract_json_text raw) = Returned (VDict d)
                    /\ data = VDict d
                    /\ forall k, In k required_keys -> dict_mem d k = true).
Proof.
  destruct (json_loads (extract_json_text raw)) as [v | x] eqn:H.
  - rewrite (safe_load_parse_success _ _ _ H). intros E.
    injection E as <- <-.
    destruct (is_dict v) eqn:Hd.
    + destruct v as [| | | | | |d]; try discriminate Hd.
      cbn [validate_keys fst snd]. rewrite length_filter_forallb.
      destruct (forallb (dict_mem d) required_keys) eqn:Ha.
      * split; [cbn; lia|]. split; [|reflexivity]. intros _.
        exists d. split; [reflexivity|]. split; [reflexivity|].
        now apply forallb_forall.
      * split; [cbn; lia|]. split; [discriminate|].
        intros (d' & Hd' & _ & Hall). inversion Hd'; subst.
        apply forallb_forall in Hall. congruence.
    + rewrite (validate_keys_not_dict _ _ Hd). cbn [fst snd].
      split; [cbn; lia|]. split; [discriminate|].
      intros (d & Hv & _). inversion Hv; subst. discriminate.
  - rewrite (safe_load_parse_failure _ _ _ H). intros E.
    injection E as <- <-.
    split; [cbn; lia|]. split; [discriminate | intros (d & Hd & _); discriminate].
Qed.

Lemma lstrip_blank (s : str) : Forall (fun c => isspace c = true) s -> lstrip s = [].
Proof.
  induction 1 as [|c s Hc _ IH]; [reflexivity|]. cbn [lstrip]. now rewrite Hc.
Qed.

Lemma strip_blank (s : str) : Forall (fun c => isspace c = true) s -> strip s = [].
Proof. intros H. unfold strip. now rewrite (lstrip_blank _ H). Qed.

(** X10. An empty reply, or one of white space only, loads as the empty mapping
    with the decoder's complaint about a missing value as the one warning. *)
Theorem blank_reply_loads_empty_mapping (raw : str) (required_keys : list str) :
  Forall (fun c => isspace c = true) raw ->
  safe_load_validated raw required_keys
  = Returned
      (VDict [],
       [u "JSON parse error: Expecting value: line 1 column 1 (char 0)"]).
Proof.
  intros Hb.
  assert (Hx : extract_json_text raw = []).
  { rewrite extract_json_text_unfold, (strip_blank _ Hb). reflexivity. }
  rewrite (safe_load_parse_failure raw required_keys
             (json_decode_error msg_value [] 0)).
  - reflexivity.
  - rewrite Hx. reflexivity.
Qed.

End LoadingFacts.

Lemma safe_load_warns_unless_valid_mapping_witness :
  (List.length (@nil str) <= 1)%nat
  /\ (@nil str = []
      <-> exists d : list (str * @value literal_float),
            json_loads (extract_json_text (jq "{'destination': 'Rome'}"))
            = Returned (VDict d)
            /\ VDict [(k_destination, VStr (u "Rome"))] = VDict d
            /\ forall k, In k [k_destination] -> dict_mem d k = true).
Proof.
  apply (@safe_load_warns_unless_valid_mapping literal_float
           (jq "{'destination': 'Rome'}") [k_destination]
           (VDict [(k_destination, VStr (u "Rome"))]) []).
  reflexivity.
Defined.

Lemma blank_reply_loads_empty_mapping_witness :
  @safe_load_validated literal_float [32; 10; 9]%N [k_destination]
  = Returned
      (VDict [],
       [u "JSON parse error: Expecting value: line 1 column 1 (char 0)"]).
Proof.
  apply (@blank_reply_loads_empty_mapping literal_float [32; 10; 9]%N [k_destination]).
  repeat constructor.
Defined.

Section WrappedFacts.
Context {F : PyFloat}.

Lemma extract_wrapped (raw mid : str) :
  wraps raw (lbrace :: mid ++ [rbrace]) ->
  extract_json_text raw = lbrace :: mid ++ [rbrace].
Proof.
  intros [(pre & post & -> & Hf & Hpre & Hpost)
         | (pre & tag & body & post & -> & Hpre & Hb & Htag & Hbody)];
    rewrite extract_json_text_unfold.
  - rewrite Hf.
    replace (pre ++ (lbrace :: mid ++ [rbrace]) ++ post)
      with (pre ++ lbrace :: mid ++ rbrace :: post)
      by (cbn [app]; now rewrite <- app_assoc).
    rewrite (strip_app_solid _ _ _ _ _ isspace_lbrace isspace_rbrace).
    rewrite brace_slice_between.
    + apply strip_braced.
    + intros H. apply Hpre. now apply In_lstrip.
    + intros H. apply Hpost. now apply In_rstrip.
  - destruct (lstrip_of_strip _ _ _ Hbody) as [m Hl].
    rewrite (fence_search_block pre tag body post m Hpre Hb Htag Hl).
    cbv zeta. rewrite Hbody.
    change (startswith (lower (lbrace :: mid ++ [rbrace])) s_json) with false.
    cbv iota. rewrite brace_slice_braced.
    apply strip_braced.
Qed.

(** X11. A reply that wraps the JSON text of a mapping in prose or in a fenced
    block loads as that mapping; the only warning possible lists the
    required keys the mapping lacks. *)
Theorem wrapped_mapping_loads
  (raw : str) (d : list (str * value)) (required_keys : list str) :
  reloadable (VDict d) ->
  wraps raw (json_dumps (VDict d)) ->
  safe_load_validated raw required_keys
  = Returned
      (VDict d,
       if forallb (dict_mem d) required_keys then []
       else [s_missing_keys
               ++ join s_comma_space
                    (filter (fun k => negb (dict_mem d k)) required_keys)]).
Proof.
  intros Hd Hw.
  assert (Hx : extract_json_text raw = json_dumps (VDict d)).
  { rewrite json_dumps_dict in *. now apply extract_wrapped. }
  rewrite (safe_load_parse_success raw required_keys (VDict d)).
  - cbn [validate_keys fst snd]. now rewrite length_filter_forallb.
  - rewrite Hx. now apply json_loads_dumps.
Qed.

End WrappedFacts.

Lemma wrapped_mapping_loads_witness :
  @safe_load_validated literal_float
    (jq "Sure! ```json
{'destination': 'Paris', 'duration': 5}
```")
    [k_destination; k_duration; k_travel_type]
  = Returned
      (VDict [(k_destination, VStr (u "Paris")); (k_duration, VInt 5)],
       [u "Missing keys: travel_type"]).
Proof.
  apply (@wrapped_mapping_loads literal_float
           (jq "Sure! ```json
{'destination': 'Paris', 'duration': 5}
```")
           [(k_destination, VStr (u "Paris")); (k_duration, VInt 5)]
           [k_destination; k_duration; k_travel_type]).
  - cbn. split.
    + repeat constructor; intros H; vm_compute in H; intuition discriminate.
    + repeat split; vm_compute; try reflexivity; intros; discriminate.
  - right.
    exists (u "Sure! "), (u "json"),
      (10%N :: jq "{'destination': 'Paris', 'duration': 5}" ++ [10%N]), [].
    split; [reflexivity|].
    split; [intros H; vm_compute in H; intuition discriminate|].
    split; [intros H; vm_compute in H; intuition discriminate|].
    split; [now right | reflexivity].
Defined.

(** ** The weather service *)

Section ServiceFacts.
Context {F : PyFloat}.

Lemma count_app (p : event -> bool) (t1 t2 : list event) :
  count p (t1 ++ t2) = count p t1 + count p t2.
Proof. unfold count. now rewrite filter_app, length_app. Qed.

(** X12. The lookup answers with a reading exactly for a usable response, and
    the reading holds the two values of the response's [current] section,
    the coordinates it was called with and the name of the source. *)
Theorem weather_lookup_reads_current
  (latitude longitude : value) (e : env) (s : session) :
  exists (w : value) (s1 : session) (t : list event),
    get_weather_info_by_coords latitude longitude e s = (Returned w, s1, t)
    /\ ((exists current,
            usable_response (http_reply e latitude longitude) current
            /\ w = VDict [(u "temperature",
                           match dict_get current (u "temperature_2m") with
                           | Some v => v
                           | None => VNone
                           end);
                          (u "wind_speed",
                           match dict_get current (u "wind_speed_10m") with
                           | Some v => v
                           | None => VNone
                           end);
                          (u "latitude", latitude);
                          (u "longitude", longitude);
                          (u "source", VStr (u "open-meteo"))])
        \/ (w = VNone
            /\ forall current,
                 ~ usable_response (http_reply e latitude longitude) current)).
Proof.
  unfold get_weather_info_by_coords, bind, try_catch, emit, get_session,
    http_get, lift, ret, usable_response.
  destruct (http_reply e latitude longitude) as [x | status body] eqn:Eh.
  - destruct s; eexists _, _, _; (split; [reflexivity|]); right;
      (split; [reflexivity|]); intros c0 (bd & Hb & _); discriminate.
  - destruct (Z.eqb_spec status 200) as [-> | Hs].
    + destruct body as [data | x].
      * destruct data as [| | | | | |body];
          try (destruct s; eexists _, _, _; (split; [reflexivity|]); right;
               (split; [reflexivity|]); intros c0 (bd & Hb & _); discriminate).
        cbn [py_get].
        destruct (dict_get body (u "current")) as [cur|] eqn:Ec.
        -- destruct cur as [| | | | | |current];
             try (destruct s; eexists _, _, _; (split; [reflexivity|]); right;
                  (split; [reflexivity|]);
                  intros c0 (bd & Hb & [Hc | [Hc _]]);
                  inversion Hb; subst; congruence).
           cbn [py_get].
           destruct s; eexists _, _, _; (split; [reflexivity|]); left;
             exists current; (split; [|reflexivity]);
             exists body; (split; [reflexivity|]); now left.
        -- cbn [py_get dict_get].
           destruct s; eexists _, _, _; (split; [reflexivity|]); left;
             exists []; (split; [|reflexivity]);
             exists body; (split; [reflexivity|]); now right.
      * destruct s; eexists _, _, _; (split; [reflexivity|]); right;
          (split; [reflexivity|]); intros c0 (bd & Hb & _); discriminate.
    + destruct s; eexists _, _, _; (split; [reflexivity|]); right;
        (split; [reflexivity|]); intros c0 (bd & Hb & _);
        inversion Hb; subst; contradiction.
Qed.

Local Arguments get_weather_info_by_coords : simpl never.
Local Arguments close : simpl never.

(** The events of one lookup: the call, a session created unless one is
    open, and one request. *)
Lemma lookup_trace (latitude longitude : value) (e : env) (s : session) :
  exists w : value,
    get_weather_info_by_coords latitude longitude e s
    = (Returned w, OpenSession,
       WeatherLookup latitude longitude
       :: match s with OpenSession => [] | _ => [SessionCreated] end
       ++ [HttpGet latitude longitude]).
Proof.
  unfold get_weather_info_by_coords, bind, try_catch, emit, get_session,
    http_get, lift, ret.
  destruct (http_reply e latitude longitude) as [x | status body].
  - destruct s; eexists; reflexivity.
  - destruct (status =? 200)%Z.
    + destruct body as [data | x].
      * destruct (py_get data (u "current") (VDict [])) as [cur | x].
        -- destruct (py_get cur (u "temperature_2m") VNone) as [tmp | x].
           ++ destruct (py_get cur (u "wind_speed_10m") VNone) as [wnd | x];
                destruct s; eexists; reflexivity.
           ++ destruct s; eexists; reflexivity.
        -- destruct s; eexists; reflexivity.
      * destruct s; eexists; reflexivity.
    + destruct s; eexists; reflexivity.
Qed.

Lemma lookup_session (latitude longitude : value) (e : env) (s : session) :
  exists (w : value) (t : list event),
    get_weather_info_by_coords latitude longitude e s = (Returned w, OpenSession, t)
    /\ count is_session_created t + open_sessions s = 1
    /\ count is_session_closed t = 0.
Proof.
  destruct (lookup_trace latitude longitude e s) as [w E].
  eexists _, _. split; [exact E|]. destruct s; split; reflexivity.
Qed.

Lemma close_session (e : env) (s : session) :
  exists (s1 : session) (t : list event),
    close e s = (Returned tt, s1, t)
    /\ count is_session_created t = 0
    /\ count is_session_closed t = open_sessions s
    /\ open_sessions s1 = 0.
Proof.
  unfold close, bind, emit.
  destruct s; eexists _, _; (split; [reflexivity|]); repeat split.
Qed.

Lemma service_calls_balance (cs : list service_call) (e : env) :
  forall s, exists (s1 : session) (t : list event),
    service_calls cs e s = (Returned tt, s1, t)
    /\ count is_session_created t + open_sessions s
       = count is_session_closed t + open_sessions s1
    /\ (match cs with
        | [] => True
        | _ :: _ => match last cs CallClose with
                    | CallClose => open_sessions s1 = 0
                    | CallLookup _ _ => s1 = OpenSession
                    end
        end).
Proof.
  induction cs as [|c cs IH]; intros s.
  - exists s, []. repeat split.
  - destruct c as [la lo|]; cbn [service_calls]; unfold bind.
    + destruct (lookup_session la lo e s) as (w & t & E & Hc & Hd).
      rewrite E. destruct (IH OpenSession) as (s1 & t' & E' & Hb & Hlast).
      rewrite E'. exists s1, (t ++ t'). split; [reflexivity|].
      rewrite !count_app. split.
      * cbn [open_sessions] in Hb. lia.
      * destruct cs as [|c' cs'].
        -- cbn [last]. cbn [service_calls] in E'. unfold ret in E'.
           now inversion E'.
        -- exact Hlast.
    + destruct (close_session e s) as (s0 & t & E & Hc & Hd & Ho).
      rewrite E. destruct (IH s0) as (s1 & t' & E' & Hb & Hlast).
      rewrite E'. exists s1, (t ++ t'). split; [reflexivity|].
      rewrite !count_app. split.
      * lia.
      * destruct cs as [|c' cs'].
        -- cbn [last]. cbn [service_calls] in E'. unfold ret in E'.
           inversion E'; subst. exact Ho.
        -- exact Hlast.
Qed.

(** X13. One weather service, used any number of times from its construction
    on: no call raises; at most one HTTP session is open at any time, so the
    sessions created exceed the sessions closed by one when a session is open
    at the end and by none otherwise; and after a final [close] none is
    open. *)
Theorem weather_service_session_lifecycle (cs : list service_call) (e : env) :
  exists (s1 : session) (t : list event),
    service_calls cs e NoSession = (Returned tt, s1, t)
    /\ count is_session_created t = count is_session_closed t + open_sessions s1
    /\ (forall cs', cs = cs' ++ [CallClose] ->
                    s1 <> OpenSession
                    /\ count is_session_created t = count is_session_closed t).
Proof.
  destruct (service_calls_balance cs e NoSession) as (s1 & t & E & Hb & Hlast).
  exists s1, t. split; [exact E|]. cbn [open_sessions] in Hb.
  split; [lia|].
  intros cs' ->.
  destruct (cs' ++ [CallClose]) eqn:Ecs; [destruct cs'; discriminate|].
  rewrite <- Ecs in Hlast. rewrite last_last in Hlast.
  split; [|lia]. intros ->. discriminate.
Qed.

End ServiceFacts.

(** ** The stages: effects, failures and what is passed on *)

Section StageShapes.
Context {F : PyFloat} {P : PyFormat F}.

Local Arguments safe_load_validated : simpl never.
Local Arguments get_weather_info_by_coords : simpl never.
Local Arguments py_get : simpl never.
Local Arguments complete : simpl never.

(** *** Rules for [at_most] *)

Lemma at_most_weaken {A : Type} (p : event -> bool) (n n' : nat) (m : M A) :
  (n <= n')%nat -> at_most p n m -> at_most p n' m.
Proof. intros Hn H e s r s1 t E. specialize (H e s r s1 t E). lia. Qed.

Lemma at_most_lift {A : Type} (p : event -> bool) (o : outcome A) :
  at_most p 0 (lift o).
Proof. intros e s r s1 t E. inversion E; subst. reflexivity. Qed.

Lemma at_most_ret {A : Type} (p : event -> bool) (a : A) : at_most p 0 (ret a).
Proof. intros e s r s1 t E. inversion E; subst. reflexivity. Qed.

Lemma at_most_agent_run (p : event -> bool) (q : prompt) :
  at_most p 1 (agent_run q).
Proof.
  intros e s r s1 t E. inversion E; subst. unfold count. cbn [filter].
  destruct (p _); cbn; lia.
Qed.

Lemma at_most_send (p : event -> bool) (msg : value) :
  p (SendMessage msg) = false -> at_most p 0 (send_message msg).
Proof.
  intros Hp e s r s1 t E. inversion E; subst. unfold count. cbn [filter].
  now rewrite Hp.
Qed.

Lemma at_most_bind {A B : Type} (p : event -> bool) (n1 n2 : nat)
  (m : M A) (k : A -> M B) :
  at_most p n1 m -> (forall a, at_most p n2 (k a)) ->
  at_most p (n1 + n2) (bind m k).
Proof.
  intros Hm Hk e s r s1 t. unfold bind.
  destruct (m e s) as [[[a | x] s0] t0] eqn:Em.
  - destruct (k a e s0) as [[r' s'] t'] eqn:Ek. intros E. inversion E; subst.
    rewrite count_app. specialize (Hm _ _ _ _ _ Em). specialize (Hk _ _ _ _ _ _ Ek).
    lia.
  - intros E. inversion E; subst. specialize (Hm _ _ _ _ _ Em). lia.
Qed.

Lemma at_most_bind_lift {A B : Type} (p : event -> bool) (n : nat)
  (o : outcome A) (k : A -> M B) :
  (forall a, at_most p n (k a)) -> at_most p n (bind (lift o) k).
Proof. intros Hk. apply (at_most_bind p 0 n); [apply at_most_lift | exact Hk]. Qed.

Lemma at_most_weather (p : event -> bool) (latitude longitude : value) :
  at_most p
    (count p [WeatherLookup latitude longitude; SessionCreated;
              HttpGet latitude longitude])
    (get_weather_info_by_coords latitude longitude).
Proof.
  intros e s r s1 t E.
  destruct (lookup_trace latitude longitude e s) as [w E'].
  rewrite E' in E. inversion E; subst. unfold count.
  destruct s; cbn [filter app];
    destruct (p (WeatherLookup latitude longitude)), (p SessionCreated),
      (p (HttpGet latitude longitude)); cbn; lia.
Qed.

Lemma at_most_agent_run_other (p : event -> bool) (q : prompt) :
  p (AgentRun q) = false -> at_most p 0 (agent_run q).
Proof.
  intros Hp e s r s1 t E. inversion E; subst. unfold count. cbn [filter].
  now rewrite Hp.
Qed.

Lemma at_most_if {A : Type} (p : event -> bool) (n : nat) (c : bool)
  (m1 m2 : M A) :
  at_most p n m1 -> at_most p n m2 -> at_most p n (if c then m1 else m2).
Proof. now destruct c. Qed.

(** *** Rules for [silent] and [sends_on_return] *)

Lemma silent_lift {A : Type} (o : outcome A) : silent (lift o).
Proof. intros e s r s1 t E. now inversion E. Qed.

Lemma silent_ret {A : Type} (a : A) : silent (ret a).
Proof. intros e s r s1 t E. now inversion E. Qed.

Lemma silent_agent_run (q : prompt) : silent (agent_run q).
Proof. intros e s r s1 t E. now inversion E. Qed.

Lemma silent_weather (latitude longitude : value) :
  silent (get_weather_info_by_coords latitude longitude).
Proof.
  intros e s r s1 t E.
  destruct (lookup_trace latitude longitude e s) as [w E'].
  rewrite E' in E. inversion E; subst. now destruct s.
Qed.

Lemma sends_on_return_send (msg : value) : sends_on_return (send_message msg).
Proof. intros e s r s1 t E. inversion E; subst. now exists msg. Qed.

Lemma sends_on_return_bind {A B : Type} (m : M A) (k : A -> M B) :
  silent m -> (forall a, sends_on_return (k a)) -> sends_on_return (bind m k).
Proof.
  intros Hm Hk e s r s1 t. unfold bind.
  destruct (m e s) as [[[a | x] s0] t0] eqn:Em.
  - destruct (k a e s0) as [[r' s'] t'] eqn:Ek. intros E. inversion E; subst.
    rewrite sent_app, (Hm _ _ _ _ _ Em). exact (Hk _ _ _ _ _ _ Ek).
  - intros E. inversion E; subst. exact (Hm _ _ _ _ _ Em).
Qed.

Lemma travel_info_shape (travel_info : value) :
  sends_on_return (handle_travel_info travel_info).
Proof.
  unfold handle_travel_info.
  apply sends_on_return_bind; [apply silent_lift | intros destination].
  apply sends_on_return_bind; [apply silent_agent_run | intros geo_raw].
  apply sends_on_return_bind; [apply silent_lift | intros [geo_data geo_warnings]].
  apply sends_on_return_bind; [apply silent_lift | intros lat].
  apply sends_on_return_bind; [apply silent_lift | intros lon].
  apply sends_on_return_bind.
  { destruct (_ && _); [apply silent_weather | apply silent_ret]. }
  intros weather_data. destruct (truthy weather_data).
  - do 4 (apply sends_on_return_bind; [apply silent_lift | intros ?]).
    apply sends_on_return_bind; [apply silent_agent_run | intros analysis_raw].
    apply sends_on_return_bind; [apply silent_lift | intros [wa ws]].
    apply sends_on_return_bind; [apply silent_lift | intros complete_info].
    apply sends_on_return_send.
  - apply sends_on_return_bind; [apply silent_lift | intros complete_info].
    apply sends_on_return_send.
Qed.

Lemma travel_info_bound (p : event -> bool) (n_run n_weather : nat)
  (travel_info : value) :
  (forall q, at_most p n_run (agent_run q)) ->
  (forall la lo, at_most p n_weather (get_weather_info_by_coords la lo)) ->
  (forall msg, p (SendMessage msg) = false) ->
  at_most p (n_run + (n_weather + n_run)) (handle_travel_info travel_info).
Proof.
  intros Hrun Hweather Hsend.
  unfold handle_travel_info.
  apply at_most_bind_lift; intros destination.
  apply at_most_bind; [apply Hrun | intros geo_raw].
  apply at_most_bind_lift; intros [geo_data geo_warnings].
  apply at_most_bind_lift; intros lat.
  apply at_most_bind_lift; intros lon.
  apply at_most_bind.
  { apply at_most_if; [apply Hweather|].
    apply (at_most_weaken p 0); [lia | apply at_most_ret]. }
  intros weather_data. apply at_most_if.
  - do 4 (apply at_most_bind_lift; intros ?).
    replace n_run with (n_run + 0) by lia.
    apply at_most_bind; [apply Hrun | intros analysis_raw].
    apply at_most_bind_lift; intros [wa ws].
    apply at_most_bind_lift; intros complete_info.
    now apply at_most_send.
  - apply at_most_bind_lift; intros complete_info.
    apply (at_most_weaken p 0); [lia | now apply at_most_send].
Qed.

(** X14. Handling one message, the enrichment stage sends exactly one message
    when it returns and none when it raises; it calls the model at most
    twice and the weather service at most once, for at most one HTTP
    request. *)
Theorem enrichment_effects_are_bounded (travel_info : value) :
  sends_on_return (handle_travel_info travel_info)
  /\ at_most is_agent_run 2 (handle_travel_info travel_info)
  /\ at_most is_lookup 1 (handle_travel_info travel_info)
  /\ at_most is_http_get 1 (handle_travel_info travel_info).
Proof.
  split; [apply travel_info_shape|]. split; [|split].
  - apply (travel_info_bound is_agent_run 1 0).
    + intros q. apply at_most_agent_run.
    + intros la lo. apply (at_most_weather is_agent_run).
    + reflexivity.
  - apply (travel_info_bound is_lookup 0 1).
    + intros q. now apply at_most_agent_run_other.
    + intros la lo. apply (at_most_weather is_lookup).
    + reflexivity.
  - apply (travel_info_bound is_http_get 0 1).
    + intros q. now apply at_most_agent_run_other.
    + intros la lo. apply (at_most_weather is_http_get).
    + reflexivity.
Qed.

End StageShapes.

Section DictFacts.
Context {F : PyFloat}.

Lemma dict_get_set_same (d : list (str * value)) (k : str) (v : value) :
  dict_get (dict_set d k v) k = Some v.
Proof.
  induction d as [|[k' v'] d IH]; cbn [dict_set dict_get].
  - now rewrite str_eqb_refl.
  - destruct (str_eqb k' k) eqn:E; cbn [dict_get]; rewrite E; [reflexivity | exact IH].
Qed.

Lemma dict_get_set_other (d : list (str * value)) (k k0 : str) (v : value) :
  k0 <> k -> dict_get (dict_set d k v) k0 = dict_get d k0.
Proof.
  intros Hk. induction d as [|[k' v'] d IH]; cbn [dict_set dict_get].
  - destruct (str_eqb k k0) eqn:E; [|reflexivity].
    apply str_eqb_eq in E. congruence.
  - destruct (str_eqb k' k) eqn:E; cbn [dict_get].
    + destruct (str_eqb k' k0) eqn:E0; [|reflexivity].
      apply str_eqb_eq in E, E0. congruence.
    + now rewrite IH.
Qed.

Lemma py_get_returned (obj default v : value) (k : str) :
  py_get obj k default = Returned v -> exists d, obj = VDict d.
Proof. destruct obj; try discriminate. intros _. now eexists. Qed.


End DictFacts.

Section EnrichmentShape.
Context {F : PyFloat} {P : PyFormat F}.

Lemma complete_enriched (d : list (str * value)) (w a : value) :
  (w = VNone \/ exists reading, w = VDict reading /\ reading <> []) ->
  truthy a = true ->
  exists msg, complete (VDict d) w a = Returned msg /\ enriched d msg.
Proof.
  intros Hw Ha. eexists. split; [reflexivity|].
  exists (dict_set (dict_set d k_weather w) k_weather_analysis a), w, a.
  split; [reflexivity|]. split.
  { rewrite dict_get_set_other by discriminate. apply dict_get_set_same. }
  split; [exact Hw|]. split; [apply dict_get_set_same|]. split; [exact Ha|].
  intros k H1 H2. now rewrite !dict_get_set_other.
Qed.

Local Arguments safe_load_validated : simpl never.
Local Arguments get_weather_info_by_coords : simpl never.
Local Arguments py_get : simpl never.
Local Arguments complete : simpl never.
Local Arguments truthy : simpl never.

(** X15. Whatever the model and the weather endpoint answer, a message the
    enrichment stage sends for a mapping is that mapping with [weather] and
    [weather_analysis] set: every other key reads as before, also when the
    mapping already had one of the two. *)
Theorem enrichment_sets_two_fields
  (e : env) (s s1 : session) (d : list (str * value))
  (r : outcome unit) (t : list event) (msg : value) :
  handle_travel_info (VDict d) e s = (r, s1, t) ->
  In (SendMessage msg) t ->
  enriched d msg.
Proof.
  revert e s r s1 t msg. change (sends_only (enriched d) (handle_travel_info (VDict d))).
  unfold handle_travel_info.
  apply sends_only_bind_lift; intros destination _.
  apply sends_only_bind; [apply sends_only_agent_run | intros geo_raw].
  apply sends_only_bind_lift; intros [geo_data ws] _.
  apply sends_only_bind_lift; intros lat _.
  apply sends_only_bind_lift; intros lon _.
  intros e s r s1 t msg. unfold bind at 1.
  match goal with
  | |- context [(if ?c then _ else _) e s] => destruct c
  end.
  - destruct (get_weather_info_by_coords_returns
                (if is_int_or_float lat then lat else VNone)
                (if is_int_or_float lon then lon else VNone) e s)
      as (w & s0 & t0 & E & Hw & Hno).
    rewrite E. cbv beta iota.
    destruct Hw as [-> | (wd & -> & Hne)].
    + change (truthy VNone) with false. cbv iota.
      destruct (complete_enriched d VNone unavailable_analysis
                  (or_introl eq_refl) eq_refl) as (m & Em & Hm).
      unfold bind, lift, send_message, emit. rewrite Em.
      intros H Hin. inversion H; subst.
      destruct Hin as [Hin | Hin]; [discriminate|].
      apply in_app_or in Hin. destruct Hin as [Hin | Hin].
      * now apply Hno in Hin.
      * destruct Hin as [Hin | []]. now inversion Hin; subst.
    + replace (truthy (VDict wd)) with true
        by (destruct wd; [congruence | reflexivity]).
      cbv iota.
      match goal with
      | |- context [match ?m e s0 with _ => _ end] =>
          assert (Hs : sends_only (enriched d) m)
      end.
      { do 4 (apply sends_only_bind_lift; intros ? _).
        apply sends_only_bind; [apply sends_only_agent_run | intros analysis_raw].
        apply sends_only_bind_lift; intros [wa ws'] _.
        match goal with
        | |- context [complete (VDict d) (VDict wd) ?a] =>
            destruct (complete_enriched d (VDict wd) a) as (m & Em & Hm)
        end.
        { right. now exists wd. }
        { destruct (truthy wa) eqn:Et; [exact Et | reflexivity]. }
        apply sends_only_bind_lift; intros ci Hci.
        rewrite Em in Hci. inversion Hci; subst.
        now apply sends_only_send. }
      match goal with
      | |- context [match ?m e s0 with _ => _ end] =>
          destruct (m e s0) as [[r' s'] t'] eqn:Ek
      end.
      intros H Hin. inversion H; subst.
      destruct Hin as [Hin | Hin]; [discriminate|].
      apply in_app_or in Hin. destruct Hin as [Hin | Hin].
      * now apply Hno in Hin.
      * exact (Hs _ _ _ _ _ _ Ek Hin).
  - unfold ret at 1. change (truthy VNone) with false. cbv iota.
    destruct (complete_enriched d VNone unavailable_analysis
                (or_introl eq_refl) eq_refl) as (m & Em & Hm).
    unfold bind, lift, send_message, emit. rewrite Em.
    intros H Hin. inversion H; subst.
    destruct Hin as [Hin | []]. now inversion Hin; subst.
Qed.

End EnrichmentShape.

Section StageFailures.
Context {F : PyFloat} {P : PyFormat F}.

Local Arguments safe_load_validated : simpl never.
Local Arguments get_weather_info_by_coords : simpl never.
Local Arguments py_get : simpl never.
Local Arguments complete : simpl never.
Local Arguments truthy : simpl never.



End StageFailures.

Section EmptyReading.
Context {F : PyFloat} {P : PyFormat F}.

Local Arguments safe_load_validated : simpl never.
Local Arguments truthy : simpl never.


Local Arguments get_weather_info_by_coords : simpl never.
Local Arguments py_get : simpl never.
Local Arguments complete : simpl never.


End EmptyReading.

Section SynthesisFacts.
Context {F : PyFloat} {P : PyFormat F}.


Lemma weather_line_mapping (a : list (str * value)) :
  weather_line (VDict a)
  = Returned (match dict_get a k_weather_summary with
              | Some v =>
                  if truthy v
                  then [127777; 65039]%N ++ u "  Weather: " ++ py_str v
                  else []
              | None => []
              end).
Proof.
  unfold weather_line. cbn [py_get obind].
  destruct (dict_get a k_weather_summary) as [v|]; [|reflexivity].
  now destruct (truthy v).
Qed.

Lemma final_output_holds_recommendations
  (destination duration travel_type : value) (line recs : str) :
  part_of recs (final_output destination duration travel_type line recs).
Proof.
  unfold final_output.
  repeat first [ apply part_of_prefix
               | eapply part_of_trans; [|apply part_of_suffix] ].
Qed.

Local Arguments final_output : simpl never.
Local Arguments weather_line : simpl never.
Local Arguments str_join : simpl never.
Local Arguments py_get : simpl never.

(** X19. The synthesis stage yields exactly one report when it returns and none
    when it raises, and calls the model at most once, always before the
    report; the report holds the model's recommendations word for word.  A
    failure before the call leaves no event at all. *)
Theorem synthesis_yields_once
  (complete_info : value) (reply : packing_prompt -> outcome str) :
  exists (r : outcome unit) (t : list packing_event),
    handle_complete_info complete_info reply = (r, t)
    /\ match r with
       | Returned _ =>
           exists p recs out,
             t = [PackingRun p; YieldOutput out]
             /\ reply p = Returned recs /\ part_of recs out
       | Raised x =>
           t = [] \/ exists p, t = [PackingRun p] /\ reply p = Raised x
       end.
Proof.
  unfold handle_complete_info, pbind, plift, packing_run, yield_output.
  destruct (py_get complete_info k_destination _) as [destination | x] eqn:E1;
    [|eexists _, _; split; [reflexivity | now left]].
  destruct (py_get complete_info k_duration _) as [duration | x];
    [|eexists _, _; split; [reflexivity | now left]].
  destruct (py_get complete_info k_travel_type _) as [travel_type | x];
    [|eexists _, _; split; [reflexivity | now left]].
  destruct (py_get complete_info k_weather_analysis _) as [wa | x];
    [|eexists _, _; split; [reflexivity | now left]].
  destruct (py_get wa k_weather_summary _) as [info | x] eqn:E5;
    [|eexists _, _; split; [reflexivity | now left]].
  destruct (py_get wa k_packing_notes _) as [notes | x];
    [|eexists _, _; split; [reflexivity | now left]].
  destruct (str_join s_comma_space notes) as [weather_notes | x];
    [|eexists _, _; split; [reflexivity | now left]].
  destruct (reply _) as [recs | x] eqn:Er.
  - destruct (py_get_returned _ _ _ _ E5) as [a ->].
    rewrite weather_line_mapping.
    eexists _, _. split; [reflexivity|].
    eexists _, recs, _. split; [reflexivity|]. split; [exact Er|].
    apply final_output_holds_recommendations.
  - eexists _, _. split; [reflexivity|]. right. eexists. now split.
Qed.


End SynthesisFacts.

Section PipelineFacts.
Context {F : PyFloat} {P : PyFormat F}.

Local Arguments safe_load_validated : simpl never.
Local Arguments get_weather_info_by_coords : simpl never.
Local Arguments truthy : simpl never.




End PipelineFacts.

(** ** Configuration and the entry points *)

Section ConfigFacts.

(** X23. Validation looks at the endpoint only: a configuration is valid exactly
    when AZURE_AI_FOUNDRY_ENDPOINT is set to a text that is not empty.  The
    deployment name is never missing (it defaults to gpt-4o-mini when the
    variable is unset) and is never checked, so an empty name passes. *)
Theorem config_requires_endpoint_only (getenv : str -> option str) :
  (validate_config (new_config getenv) = true
   <-> exists ep, getenv s_endpoint_var = Some ep /\ ep <> [])
  /\ (forall m, getenv s_model_var = Some m ->
                model_deployment_name (new_config getenv) = Some m)
  /\ (getenv s_model_var = None ->
      model_deployment_name (new_config getenv) = Some s_default_model).
Proof.
  split; [|split].
  - unfold validate_config, new_config. cbn [endpoint].
    destruct (getenv s_endpoint_var) as [[|c ep]|]; cbn.
    + split; [discriminate | intros (ep & H & Hne); inversion H; congruence].
    + split; [intros _; now exists (c :: ep) | reflexivity].
    + split; [discriminate | intros (ep & H & _); discriminate].
  - intros m Hm. unfold new_config. cbn. now rewrite Hm.
  - intros Hm. unfold new_config. cbn. now rewrite Hm.
Qed.

End ConfigFacts.

Section EntryFacts.
Context {F : PyFloat}.
Variable run_workflow : AzureAIConfig -> str -> M str.

Local Arguments close : simpl never.
Local Arguments get_setup_instructions : simpl never.

Lemma close_leaves_closed (e : env) (s : session) :
  exists s1 t, close e s = (Returned tt, s1, t) /\ s1 <> OpenSession.
Proof.
  unfold close, bind, emit.
  destruct s; eexists _, _; (split; [reflexivity | discriminate]).
Qed.

(** X24. Whatever the workflow does with the weather service, and however the
    run ends, no HTTP session is open when the entry point is left. *)
Theorem entry_point_leaves_no_open_session
  (user_input : str) (e : env) (r : outcome str) (s1 : session) (t : list event) :
  run_multi_agent_workflow run_workflow user_input e NoSession = (r, s1, t) ->
  s1 <> OpenSession.
Proof.
  unfold run_multi_agent_workflow, bind at 1.
  destruct (validate_config (new_config (getenv e))).
  - cbn [negb]. unfold bind at 1, new_weather_service.
    unfold with_credential, bind at 1.
    destruct (credential_enter e) as [[] | x].
    + unfold bind at 1, emit at 1.
      unfold try_finally at 1.
      unfold try_finally at 1.
      destruct (run_workflow (new_config (getenv e)) user_input e NoSession)
        as [[r0 s0] t0].
      destruct (close_leaves_closed e s0) as (s2 & t2 & Ec & Hs).
      rewrite Ec. unfold emit. intros H. inversion H; subst. exact Hs.
    + intros H. inversion H; subst. discriminate.
  - cbn [negb]. unfold raise. intros H. inversion H; subst. discriminate.
Qed.

Lemma strip_default_request : strip default_request = default_request.
Proof. reflexivity. Qed.

(** X25. A line of white space only, the empty line included, stands for
    the default request: [main] does with it what it does with
    "I'm planning a 5-day vacation to Paris". *)
Theorem main_blank_input_runs_default
  (line : str) (sigint : interruption) (e : env) (s : session) :
  Forall (fun c => isspace c = true) line ->
  main run_workflow (Returned line) sigint e s
  = main run_workflow (Returned default_request) sigint e s.
Proof.
  intros Hb. unfold main. rewrite (strip_blank _ Hb), strip_default_request.
  reflexivity.
Qed.


End EntryFacts.

(** ** The properties above at concrete inputs *)


Lemma enrichment_sets_two_fields_witness :
  enriched
    [(k_destination, VStr (u "Paris")); (k_weather, VStr (u "sunny"))]
    (VDict [(k_destination, VStr (u "Paris")); (k_weather, VNone);
            (k_weather_analysis, @unavailable_analysis literal_float)]).
Proof.
  refine (@enrichment_sets_two_fields literal_float literal_format
            (scripted prose_assessment no_transport) NoSession OpenSession
            [(k_destination, VStr (u "Paris")); (k_weather, VStr (u "sunny"))]
            (Returned tt) _ _ _ _).
  - reflexivity.
  - do 4 right. left. reflexivity.
Defined.




Lemma entry_point_leaves_no_open_session_witness :
  exists (r : outcome str) (s1 : session) (t : list event),
    run_multi_agent_workflow lookup_workflow (u "5 days in Paris")
      (configured prose_assessment mild_reading) NoSession
    = (r, s1, t)
    /\ In SessionCreated t
    /\ s1 <> OpenSession.
Proof.
  eexists _, _, _. split; [reflexivity|]. split.
  - do 3 right. left. reflexivity.
  - apply (@entry_point_leaves_no_open_session literal_float lookup_workflow
             (u "5 days in Paris") (configured prose_assessment mild_reading)
             (Returned []) _
             [WeatherServiceCreated; CredentialEntered;
              WeatherLookup (lit_float "48.85") (lit_float "2.35");
              SessionCreated;
              HttpGet (lit_float "48.85") (lit_float "2.35");
              WeatherClose; SessionClosed; CredentialExited]).
    reflexivity.
Defined.

Lemma main_blank_input_runs_default_witness :
  main idle_workflow (Returned [32; 9; 32]%N) Uninterrupted
    (configured prose_assessment no_transport) NoSession
  = main idle_workflow (Returned default_request) Uninterrupted
      (configured prose_assessment no_transport) NoSession.
Proof.
  apply (@main_blank_input_runs_default literal_float idle_workflow
           [32; 9; 32]%N Uninterrupted
           (configured prose_assessment no_transport) NoSession).
  repeat constructor.
Defined.


(** ** The fallback path through the three stages *)

Section FallbackPath.
Context {F : PyFloat} {P : PyFormat F}.

Local Arguments safe_load_validated : simpl never.
Local Arguments final_output : simpl never.

(** X27. When neither the reply to the extraction prompt nor the reply to
    the geocoding prompt decodes as JSON, the three stages, each given the
    message the one before sent, plan the fallback trip whatever the user
    typed: Paris, 7 days, vacation, without any weather lookup, and the
    report is asked for with the fixed summary and note. *)
Theorem unparseable_replies_plan_the_fallback_trip
  (user_input reply geo_reply recs : str) (x x' : exn) (e : env) (s : session)
  (packing_reply : packing_prompt -> outcome str) :
  agent_reply e (ExtractionPrompt user_input) = Returned reply ->
  json_loads (extract_json_text reply) = Raised x ->
  agent_reply e (GeoPrompt (VStr (u "Paris"))) = Returned geo_reply ->
  json_loads (extract_json_text geo_reply) = Raised x' ->
  let unavailable :=
    VDict [(k_destination, VStr (u "Paris"));
           (k_duration, VInt 7);
           (k_travel_type, VStr (u "vacation"));
           (k_weather, VNone);
           (k_weather_analysis, unavailable_analysis)] in
  let p :=
    PackingPrompt (VStr (u "Paris")) (VInt 7) (VStr (u "vacation"))
      (VStr (u "Weather data unavailable"))
      (u "Pack for variable weather conditions") in
  packing_reply p = Returned recs ->
  handle_user_input user_input e s
  = (Returned tt, s,
     [AgentRun (ExtractionPrompt user_input); SendMessage fallback_travel_info])
  /\ handle_travel_info fallback_travel_info e s
     = (Returned tt, s,
        [AgentRun (GeoPrompt (VStr (u "Paris"))); SendMessage unavailable])
  /\ handle_complete_info unavailable packing_reply
     = (Returned tt,
        [PackingRun p;
         YieldOutput
           (final_output (VStr (u "Paris")) (VInt 7) (VStr (u "vacation"))
              ([127777; 65039]%N ++ u "  Weather: "
                 ++ py_str (VStr (u "Weather data unavailable")))
              recs)]).
Proof.
  intros Hr Hx Hg Hx' unavailable p Hp.
  pose proof (safe_load_parse_failure reply
                [k_destination; k_duration; k_travel_type] x Hx) as E1.
  pose proof (safe_load_parse_failure geo_reply [k_latitude; k_longitude] x' Hx')
    as E2.
  split; [|split].
  - unfold handle_user_input, bind, agent_run, lift, send_message, emit.
    rewrite Hr, E1. reflexivity.
  - unfold handle_travel_info, bind, agent_run, lift, send_message, emit, ret.
    change (py_get fallback_travel_info k_destination (VStr (u "Unknown")))
      with (Returned (@VStr F (u "Paris"))).
    cbv beta iota. rewrite Hg, E2. reflexivity.
  - unfold handle_complete_info, pbind, plift, packing_run, yield_output.
    change (py_get unavailable k_destination (VStr (u "Unknown")))
      with (Returned (@VStr F (u "Paris"))).
    change (py_get unavailable k_duration (VInt 7)) with (Returned (@VInt F 7)).
    change (py_get unavailable k_travel_type (VStr (u "vacation")))
      with (Returned (@VStr F (u "vacation"))).
    change (py_get unavailable k_weather_analysis (VDict []))
      with (Returned (@unavailable_analysis F)).
    cbv beta iota.
    change (py_get unavailable_analysis k_weather_summary
              (VStr (u "Weather data unavailable")))
      with (Returned (@VStr F (u "Weather data unavailable"))).
    change (py_get unavailable_analysis k_packing_notes (VList []))
      with (Returned (@VList F [VStr (u "Pack for variable weather conditions")])).
    cbv beta iota.
    change (str_join s_comma_space
              (VList [VStr (u "Pack for variable weather conditions")]))
      with (Returned (u "Pack for variable weather conditions")).
    cbv beta iota. fold p. rewrite Hp. reflexivity.
Qed.


End FallbackPath.

Lemma unparseable_replies_plan_the_fallback_trip_witness :
  handle_user_input (u "two weeks in Oslo")
    (scripted (fun _ => Returned (u "I cannot help with that.")) no_transport)
    NoSession
  = (Returned tt, NoSession,
     [AgentRun (ExtractionPrompt (u "two weeks in Oslo"));
      SendMessage fallback_travel_info])
  /\ handle_travel_info fallback_travel_info
       (scripted (fun _ => Returned (u "I cannot help with that.")) no_transport)
       NoSession
     = (Returned tt, NoSession,
        [AgentRun (GeoPrompt (VStr (u "Paris")));
         SendMessage
           (VDict [(k_destination, VStr (u "Paris"));
                   (k_duration, VInt 7);
                   (k_travel_type, VStr (u "vacation"));
                   (k_weather, VNone);
                   (k_weather_analysis, unavailable_analysis)])])
  /\ handle_complete_info
       (VDict [(k_destination, VStr (u "Paris"));
               (k_duration, VInt 7);
               (k_travel_type, VStr (u "vacation"));
               (k_weather, VNone);
               (k_weather_analysis, unavailable_analysis)])
       (fun _ => Returned (u "- passport"))
     = (Returned tt,
        [PackingRun
           (PackingPrompt (VStr (u "Paris")) (VInt 7) (VStr (u "vacation"))
              (VStr (u "Weather data unavailable"))
              (u "Pack for variable weather conditions"));
         YieldOutput
           (@final_output literal_float literal_format
              (VStr (u "Paris")) (VInt 7) (VStr (u "vacation"))
              ([127777; 65039]%N ++ u "  Weather: Weather data unavailable")
              (u "- passport"))]).
Proof.
  apply (@unparseable_replies_plan_the_fallback_trip literal_float literal_format
           (u "two weeks in Oslo") (u "I cannot help with that.")
           (u "I cannot help with that.") (u "- passport")
           (json_decode_error msg_value (u "I cannot help with that.") 0)
           (json_decode_error msg_value (u "I cannot help with that.") 0)
           (scripted (fun _ => Returned (u "I cannot help with that.")) no_transport)
           NoSession (fun _ => Returned (u "- passport")));
    reflexivity.
Defined.

